(** * Circuit-breaker routing engine of the job worker

    A shallow embedding of

    - [services/worker/src/circuit-breaker/circuit-breaker.service.ts]
      (the Circuit Breaker Engine over the Redis Failure Store),
    - [services/worker/src/worker/worker.service.ts]
      (the per-job pipeline [processJob] and the Routing Decision Maker),
    - [services/worker/src/worker/worker.controller.ts]
      (the Consumer Loop [handleJob]),
    - [services/worker/src/email/email.service.ts] (the Alerting Hook),
    - [services/control-plane/src/breakers/breakers.service.ts] and
      [breakers.controller.ts] (the listing and the reset operation of
      the control plane),
    - [services/control-plane/src/metrics/metrics.service.ts] and
      [metrics.controller.ts] (the counters of the control plane),
    - [services/job-api/src/jobs/jobs.service.ts] and
      [jobs.controller.ts] (the submission of a job),

    followed by the properties of the specification, stated on it, and
    by further properties of the code. *)

From Stdlib Require Import ZArith QArith String Ascii List Lia.
From stdpp Require Import base gmap strings list pretty.

Open Scope string_scope.
Open Scope list_scope.
Open Scope Z_scope.

(** ** Redis: glob patterns of the [KEYS] command

    [KEYS pattern] returns the keys matched by a glob-style pattern:
    [?] matches one character, [*] any run of characters, [[ae]] one
    character of a class ([[^e]] negates it, [[a-c]] is a range) and a
    backslash takes the next character verbatim. *)

Module Glob.

Inductive item : Type :=
  | One (c : ascii)
  | Range (lo hi : ascii).

Inductive token : Type :=
  | Lit (c : ascii)
  | AnyChar
  | Star
  | Class (negated : bool) (items : list item).

(** The body of a class, up to its closing bracket (or to the end of the
    pattern when the bracket is never closed), with the number of
    pattern characters it takes. *)
Fixpoint class_items (p : string) : list item * nat :=
  match p with
  | EmptyString => ([], 0%nat)
  | String c rest =>
      if Ascii.eqb c "\" then
        match rest with
        | String d rest' =>
            let '(its, n) := class_items rest' in (One d :: its, S (S n))
        | EmptyString => ([One c], 1%nat)
        end
      else if Ascii.eqb c "]" then ([], 1%nat)
      else
        match rest with
        | String m (String hi rest') =>
            if Ascii.eqb m "-" then
              let '(its, n) := class_items rest' in (Range c hi :: its, S (S (S n)))
            else
              let '(its, n) := class_items rest in (One c :: its, S n)
        | _ =>
            let '(its, n) := class_items rest in (One c :: its, S n)
        end
  end.

(** [tokens skip p] reads the pattern [p] after dropping its first [skip]
    characters (those a class has already taken). *)
Fixpoint tokens (skip : nat) (p : string) : list token :=
  match p with
  | EmptyString => []
  | String c rest =>
      match skip with
      | S k => tokens k rest
      | O =>
          if Ascii.eqb c "*" then Star :: tokens 0 rest
          else if Ascii.eqb c "?" then AnyChar :: tokens 0 rest
          else if Ascii.eqb c "[" then
            let '(neg, body, k) :=
              match rest with
              | String n r => if Ascii.eqb n "^" then (true, r, 1%nat) else (false, rest, 0%nat)
              | EmptyString => (false, rest, 0%nat)
              end in
            let '(its, n) := class_items body in
            Class neg its :: tokens (k + n) rest
          else if Ascii.eqb c "\" then
            match rest with
            | String d _ => Lit d :: tokens 1 rest
            | EmptyString => [Lit c]
            end
          else Lit c :: tokens 0 rest
      end
  end.

Definition code (c : ascii) : N := N_of_ascii c.

Definition item_has (c : ascii) (i : item) : bool :=
  match i with
  | One d => Ascii.eqb c d
  | Range a b =>
      let lo := N.min (code a) (code b) in
      let hi := N.max (code a) (code b) in
      (lo <=? code c)%N && (code c <=? hi)%N
  end.

Definition token_has (t : token) (c : ascii) : bool :=
  match t with
  | Lit d => Ascii.eqb c d
  | AnyChar => true
  | Star => false
  | Class neg its => xorb neg (existsb (item_has c) its)
  end.

Fixpoint matches (ts : list token) (s : string) {struct ts} : bool :=
  match ts with
  | [] => match s with EmptyString => true | String _ _ => false end
  | Star :: ts' =>
      (fix star (s : string) : bool :=
         matches ts' s
         || match s with EmptyString => false | String _ s' => star s' end) s
  | t :: ts' =>
      match s with
      | EmptyString => false
      | String c s' => token_has t c && matches ts' s'
      end
  end.

Definition stringmatch (pattern key : string) : bool :=
  matches (tokens 0 pattern) key.

(** A string with none of the characters that a pattern reads specially. *)
Definition special (c : ascii) : bool :=
  Ascii.eqb c "*" || Ascii.eqb c "?" || Ascii.eqb c "[" || Ascii.eqb c "\".

Fixpoint plain (s : string) : bool :=
  match s with
  | EmptyString => true
  | String c rest => negb (special c) && plain rest
  end.

End Glob.

(** ** Redis: the Failure Store

    Redis holds strings.  The two services write two shapes only: decimal
    integers (through [INCR]) and [JSON.stringify] of a
    [CircuitBreakerData]; [JSON.parse] inverts the latter, so a value is
    kept in parsed form.  A key may carry an expiry instant. *)

Inductive CircuitState : Type := CLOSED | OPEN.

Record CircuitBreakerData : Type := mkBreaker {
  state : CircuitState;
  openedAt : option Z            (* openedAt?: number, milliseconds *)
}.

Inductive rvalue : Type :=
  | RInt (n : Z)
  | RJson (d : CircuitBreakerData).

Record entry : Type := mkEntry {
  value : rvalue;
  expireAt : option Z            (* instant, in ms, at which the key is gone *)
}.

#[global] Instance CircuitState_eq_dec : EqDecision CircuitState.
Proof. solve_decision. Defined.
#[global] Instance CircuitBreakerData_eq_dec : EqDecision CircuitBreakerData.
Proof. solve_decision. Defined.
#[global] Instance rvalue_eq_dec : EqDecision rvalue.
Proof. solve_decision. Defined.
#[global] Instance entry_eq_dec : EqDecision entry.
Proof. solve_decision. Defined.

(** ** Messages and effects of the worker *)

Record Metadata : Type := mkMetadata {
  submittedAt : string;
  attemptCount : Z
}.

Record JobMessage : Type := mkJob {
  jobType : string;
  payload : string;              (* opaque to the pipeline *)
  metadata : Metadata
}.

Record JobExecutionResult : Type := mkResult {
  success : bool;
  errorCode : option string;
  message : option string
}.

(** What one call of the (pluggable, here random) executor does: its
    promise resolves with a result or rejects with an error. *)
Inductive Execution : Type :=
  | Resolves (r : JobExecutionResult)
  | Rejects (msg : string).

Inductive Route : Type := ack | retry | quarantine.

Record Decision : Type := mkDecision {
  route : Route;
  reason : string
}.

(** [rabbitClient.emit(pattern, message)] *)
Inductive Emitted : Type :=
  | EmitRetry (job : JobMessage)
  | EmitQuarantine (job : JobMessage) (quarantineReason : string) (quarantinedAt : Z).

(** [channel.ack(msg)] and [channel.nack(msg, allUpTo, requeue)] *)
Inductive ChannelOp : Type :=
  | Ack
  | Nack (allUpTo requeue : bool).

#[global] Instance Metadata_eq_dec : EqDecision Metadata.
Proof. solve_decision. Defined.
#[global] Instance JobMessage_eq_dec : EqDecision JobMessage.
Proof. solve_decision. Defined.
#[global] Instance JobExecutionResult_eq_dec : EqDecision JobExecutionResult.
Proof. solve_decision. Defined.
#[global] Instance Route_eq_dec : EqDecision Route.
Proof. solve_decision. Defined.
#[global] Instance Decision_eq_dec : EqDecision Decision.
Proof. solve_decision. Defined.

(** The world a worker runs in.  [faults] scripts the reachability of the
    store: each Redis command consumes one flag, [true] meaning that the
    command fails (connection lost, timeout); once the script is used up
    the store answers. *)
Record World : Type := mkWorld {
  redis : gmap string entry;
  clock : Z;                               (* Date.now(), ms: read once per delivery *)
  faults : list bool;
  executed : list JobMessage;              (* calls of the executor *)
  alerts : list (string * string * Z);     (* sendCircuitOpenAlert calls *)
  emitted : list Emitted;
  channel : list ChannelOp
}.

Definition with_redis (db : gmap string entry) (w : World) : World :=
  mkWorld db (clock w) (faults w) (executed w) (alerts w) (emitted w) (channel w).
Definition with_clock (t : Z) (w : World) : World :=
  mkWorld (redis w) t (faults w) (executed w) (alerts w) (emitted w) (channel w).
Definition with_faults (fs : list bool) (w : World) : World :=
  mkWorld (redis w) (clock w) fs (executed w) (alerts w) (emitted w) (channel w).
Definition with_executed (js : list JobMessage) (w : World) : World :=
  mkWorld (redis w) (clock w) (faults w) js (alerts w) (emitted w) (channel w).
Definition with_alerts (al : list (string * string * Z)) (w : World) : World :=
  mkWorld (redis w) (clock w) (faults w) (executed w) al (emitted w) (channel w).
Definition with_emitted (es : list Emitted) (w : World) : World :=
  mkWorld (redis w) (clock w) (faults w) (executed w) (alerts w) es (channel w).
Definition with_channel (cs : list ChannelOp) (w : World) : World :=
  mkWorld (redis w) (clock w) (faults w) (executed w) (alerts w) (emitted w) cs.

(** ** Promises: state and exceptions

    An [await]ed call either yields a value or throws; what it did to
    the world before throwing stays done. *)

Inductive result (A : Type) : Type :=
  | Ok (a : A)
  | Err (msg : string).
Arguments Ok {A} a.
Arguments Err {A} msg.

Definition M (A : Type) : Type := World -> World * result A.

Definition ret {A} (a : A) : M A := fun w => (w, Ok a).
Definition throw {A} (msg : string) : M A := fun w => (w, Err msg).
Definition bind {A B} (m : M A) (k : A -> M B) : M B :=
  fun w =>
    match m w with
    | (w', Ok a) => k a w'
    | (w', Err e) => (w', Err e)
    end.
Definition try_catch {A} (m : M A) (handler : string -> M A) : M A :=
  fun w =>
    match m w with
    | (w', Ok a) => (w', Ok a)
    | (w', Err e) => handler e w'
    end.

#[global] Instance M_ret : MRet M := @ret.
#[global] Instance M_bind : MBind M := fun A B k m => bind m k.

Definition Date_now : M Z := fun w => (w, Ok (clock w)).

(** ** Redis commands *)

Definition live (now : Z) (e : entry) : bool :=
  match expireAt e with
  | None => true
  | Some t => now <? t
  end.

Definition lookup_live (now : Z) (db : gmap string entry) (key : string) : option entry :=
  match db !! key with
  | Some e => if live now e then Some e else None
  | None => None
  end.

(** One round trip to the store: it fails when the script of faults says
    so, and otherwise runs against the keys that have not expired. *)
Definition command {A} (run : Z -> gmap string entry -> gmap string entry * result A) : M A :=
  fun w =>
    let go (w : World) :=
      let '(db, r) := run (clock w) (redis w) in (with_redis db w, r) in
    match faults w with
    | true :: fs => (with_faults fs w, Err "Redis connection lost")
    | false :: fs => go (with_faults fs w)
    | [] => go w
    end.

(** [INCR]: a key that is missing or has expired counts from 0, a live
    key keeps its expiry, a value that is not an integer is an error. *)
Definition INCR (key : string) : M Z :=
  command (fun now db =>
    match lookup_live now db key with
    | None => (<[key := mkEntry (RInt 1) None]> db, Ok 1)
    | Some (mkEntry (RInt n) ex) => (<[key := mkEntry (RInt (n + 1)) ex]> db, Ok (n + 1))
    | Some (mkEntry (RJson _) _) => (db, Err "ERR value is not an integer or out of range")
    end).

(** [EXPIRE]: the key is gone [seconds] from now. *)
Definition EXPIRE (key : string) (seconds : Z) : M bool :=
  command (fun now db =>
    match lookup_live now db key with
    | Some e => (<[key := mkEntry (value e) (Some (now + 1000 * seconds))]> db, Ok true)
    | None => (db, Ok false)
    end).

Definition GET (key : string) : M (option rvalue) :=
  command (fun now db => (db, Ok (value <$> lookup_live now db key))).

(** [SET] overwrites the value and drops any expiry. *)
Definition SET (key : string) (v : rvalue) : M unit :=
  command (fun now db => (<[key := mkEntry v None]> db, Ok tt)).

Definition EXISTS (key : string) : M Z :=
  command (fun now db =>
    (db, Ok (match lookup_live now db key with Some _ => 1 | None => 0 end))).

(** [KEYS pattern]: the live keys that the glob pattern matches. *)
Definition matching_keys (now : Z) (pattern : string) (db : gmap string entry) : list string :=
  (List.filter (fun ke : string * entry => live now ke.2 && Glob.stringmatch pattern ke.1)
               (map_to_list db)).*1.

Definition KEYS (pattern : string) : M (list string) :=
  command (fun now db => (db, Ok (matching_keys now pattern db))).

Definition delete_all (keys : list string) (db : gmap string entry) : gmap string entry :=
  foldr delete db keys.

(** [DEL keys] answers the number of keys it removed. *)
Definition DEL (keys : list string) : M Z :=
  command (fun now db =>
    let db' := delete_all keys db in
    (db', Ok (Z.of_nat (size db) - Z.of_nat (size db')))).

(** ** circuit-breaker.service.ts *)

Record CircuitBreakerConfig : Type := mkConfig {
  failureThreshold : Z;
  cooldownPeriod : Z             (* seconds *)
}.

(** [parseInt(process.env.FAILURE_THRESHOLD || '5', 10)] and
    [parseInt(process.env.COOLDOWN_PERIOD || '60', 10)] with neither
    variable set. *)
Definition defaultConfig : CircuitBreakerConfig := mkConfig 5 60.

Definition breakerKey (jobType : string) : string := "breaker:" +:+ jobType.
Definition failureKey (jobType errorCode : string) : string :=
  "failure:" +:+ jobType +:+ ":" +:+ errorCode.
Definition failurePattern (jobType : string) : string :=
  "failure:" +:+ jobType +:+ ":*".

(** [(Date.now() - breaker.openedAt) / 1000 >= cooldownPeriod] *)
Definition elapsed (now opened : Z) : Q := (now - opened) # 1000.
Definition cooldown_elapsed (cooldown now opened : Z) : bool :=
  Qle_bool (inject_Z cooldown) (elapsed now opened).

(** A number is truthy unless it is zero; [undefined] is not. *)
Definition truthy (n : option Z) : bool :=
  match n with
  | Some t => negb (t =? 0)
  | None => false
  end.

Section CircuitBreakerService.

Variable config : CircuitBreakerConfig.

Definition incrementFailure (jobType errorCode : string) : M Z :=
  let key := failureKey jobType errorCode in
  count ← INCR key;
  (* Set TTL on first increment to auto-cleanup old counters *)
  (if count =? 1 then _ ← EXPIRE key 3600; mret tt else mret tt);;
  mret count.

(** [parseInt(count || '0', 10) >= failureThreshold]; a value that is not
    a number parses to NaN, which is above nothing. *)
Definition shouldOpenCircuit (jobType errorCode : string) : M bool :=
  let key := failureKey jobType errorCode in
  count ← GET key;
  mret (match count with
        | None => failureThreshold config <=? 0
        | Some (RInt n) => failureThreshold config <=? n
        | Some (RJson _) => false
        end).

Definition openCircuit (jobType : string) : M unit :=
  let key := breakerKey jobType in
  now ← Date_now;
  SET key (RJson (mkBreaker OPEN (Some now))).

Definition closeCircuit (jobType : string) : M unit :=
  let key := breakerKey jobType in
  SET key (RJson (mkBreaker CLOSED None));;
  (* Reset failure counters when circuit closes *)
  let pattern := failurePattern jobType in
  keys ← KEYS pattern;
  (if (0 <? length keys)%nat then _ ← DEL keys; mret tt else mret tt).

(** [JSON.parse(data)] is the stored value in parsed form: a record, or
    a number when the key holds a counter, whose [state] is [undefined]:
    the promise then resolves with [undefined], here [None]. *)
Definition getCircuitState (jobType : string) : M (option CircuitState) :=
  let key := breakerKey jobType in
  data ← GET key;
  match data with
  | None => mret (Some CLOSED)
  | Some (RJson breaker) =>
      (* the elapsed cooldown is only logged here: no auto-close *)
      mret (Some (state breaker))
  | Some (RInt _) => mret None
  end.

Definition canProbe (jobType : string) : M bool :=
  let key := breakerKey jobType in
  data ← GET key;
  match data with
  | None => mret false
  | Some (RJson breaker) =>
      match state breaker, openedAt breaker with
      | OPEN, Some opened =>
          if truthy (openedAt breaker)
          then now ← Date_now; mret (cooldown_elapsed (cooldownPeriod config) now opened)
          else mret false
      | _, _ => mret false
      end
  | Some (RInt _) =>
      (* the [state] of a number is [undefined], which is not OPEN *)
      mret false
  end.

End CircuitBreakerService.

(** ** email.service.ts

    [sendCircuitOpenAlert] logs when mail is disabled and catches every
    error of the transport: the call is recorded and never throws. *)
Definition sendCircuitOpenAlert (jobType errorCode : string) (failureCount : Z) : M unit :=
  fun w => (with_alerts (alerts w ++ [(jobType, errorCode, failureCount)]) w, Ok tt).

(** ** Numbers

    A number is an IEEE 754 double.  Those of the pipeline
    ([attemptCount], [MAX_RETRIES]) are integers and kept as [Z]; sums
    and their decimal form are those of doubles. *)

(** The double nearest to an integer (below 2^1024 in magnitude), ties
    to the even significand: integers up to 2^53 are doubles, above that
    only the multiples of the unit in the last place are. *)
Definition double_nearest (x : Z) : Z :=
  let a := Z.abs x in
  if a <? 2 ^ 53 then x
  else
    let ulp := 2 ^ (Z.log2 a - 52) in
    let q := a / ulp in
    let r := a mod ulp in
    let down := q * ulp in
    let up := (q + 1) * ulp in
    Z.sgn x * (if 2 * r <? ulp then down
               else if ulp <? 2 * r then up
               else if Z.even q then down else up).

(** [x + y] *)
Definition number_add (x y : Z) : Z := double_nearest (x + y).

(** The integer with the fewest significant digits that rounds to the
    double [x] > 0, the nearest to [x] among those (then the even one),
    searched from [10^j] downwards.  [lo4] and [hi4] are four times the
    bounds of the reals that round to [x]; [inclusive] tells whether the
    bounds themselves do. *)
Fixpoint shortest_decimal (x lo4 hi4 : Z) (inclusive : bool) (j : nat) : Z :=
  let step := 4 * 10 ^ Z.of_nat j in
  let first := let c := (lo4 + step - 1) / step in
               if negb inclusive && (c * step =? lo4) then c + 1 else c in
  let last := let d := hi4 / step in
              if negb inclusive && (d * step =? hi4) then d - 1 else d in
  if first <=? last then
    let below := Z.max first (Z.min last (4 * x / step)) in
    let above := Z.max first (Z.min last (4 * x / step + 1)) in
    let d_below := Z.abs (4 * x - below * step) in
    let d_above := Z.abs (above * step - 4 * x) in
    10 ^ Z.of_nat j
    * (if d_below <? d_above then below
       else if d_above <? d_below then above
       else if Z.even below then below else above)
  else
    match j with
    | O => x
    | S j' => shortest_decimal x lo4 hi4 inclusive j'
    end.

Fixpoint strip_zeros (digits : list ascii) : list ascii :=
  match digits with
  | [] => []
  | c :: rest =>
      match strip_zeros rest with
      | [] => if Ascii.eqb c "0" then [] else [c]
      | rest' => c :: rest'
      end
  end.

(** [Number::toString] on a positive integer: its digits below 2^53;
    above, the digits of the shortest decimal followed by zeros, or the
    exponential form from 22 digits on. *)
Definition positive_toString (x : Z) : string :=
  if x <? 2 ^ 53 then pretty x
  else
    let e := Z.log2 x - 52 in
    let m := x / 2 ^ e in
    let above4 := 2 * 2 ^ e in
    let below4 := if m =? 2 ^ 52 then 2 ^ e else 2 * 2 ^ e in
    let decimal := shortest_decimal x (4 * x - below4) (4 * x + above4) (Z.even m) 330 in
    let digits := pretty decimal in
    let n := String.length digits in
    if (n <=? 21)%nat then digits
    else
      match strip_zeros (list_ascii_of_string digits) with
      | [] => digits
      | [d] => String d ("e+" +:+ pretty (Z.of_nat n - 1))
      | d :: ds =>
          String d ("." +:+ string_of_list_ascii ds +:+ "e+" +:+ pretty (Z.of_nat n - 1))
      end.

(** [`${x}`] *)
Definition Number_toString (x : Z) : string :=
  let d := double_nearest x in
  if d =? 0 then "0"
  else if d <? 0 then "-" +:+ positive_toString (- d)
  else positive_toString d.

(** ** worker.service.ts *)

Section WorkerService.

Variable config : CircuitBreakerConfig.
(** [parseInt(process.env.MAX_RETRIES || '3', 10)] *)
Variable maxRetries : Z.

(** [executeJobLogic]: the mock draws its outcome at random; the outcome
    of this call is given by [exec]. *)
Definition executeJobLogic (job : JobMessage) (exec : Execution) : M JobExecutionResult :=
  fun w =>
    let w' := with_executed (executed w ++ [job]) w in
    match exec with
    | Resolves r => (w', Ok r)
    | Rejects msg => (w', Err msg)
    end.

(** [result.errorCode || 'UNKNOWN_ERROR'] *)
Definition recordedCode (r : JobExecutionResult) : string :=
  match errorCode r with
  | Some c => if decide (c = EmptyString) then "UNKNOWN_ERROR" else c
  | None => "UNKNOWN_ERROR"
  end.

Definition circuitOpenResult : JobExecutionResult :=
  mkResult false (Some "CIRCUIT_OPEN") (Some "Circuit breaker is open, job not processed").

Definition internalErrorResult (msg : string) : JobExecutionResult :=
  mkResult false (Some "INTERNAL_ERROR") (Some msg).

Definition processJob (job : JobMessage) (exec : Execution) : M JobExecutionResult :=
  try_catch
    ((* Check circuit breaker state before processing *)
     circuitState ← getCircuitState (jobType job);
     skip ← (if decide (circuitState = Some OPEN)
             then probe ← canProbe config (jobType job); mret (negb probe)
             else mret false);
     if (skip : bool) then mret circuitOpenResult
     else
       result ← executeJobLogic job exec;
       (if success result then
          (* On success, close circuit if it was open *)
          if decide (circuitState = Some OPEN) then closeCircuit (jobType job) else mret tt
        else
          (* On failure, increment counter and check threshold *)
          let errorCode := recordedCode result in
          failureCount ← incrementFailure (jobType job) errorCode;
          shouldOpen ← shouldOpenCircuit config (jobType job) errorCode;
          if (shouldOpen : bool) && bool_decide (circuitState = Some CLOSED) then
            openCircuit (jobType job);;
            sendCircuitOpenAlert (jobType job) errorCode failureCount
          else mret tt);;
       mret result)
    (fun msg => mret (internalErrorResult msg)).

Definition getRoutingDecision (job : JobMessage) (result : JobExecutionResult) : M Decision :=
  if success result then mret (mkDecision ack "Job completed successfully")
  else if decide (errorCode result = Some "CIRCUIT_OPEN")
  then mret (mkDecision quarantine "Circuit breaker is open")
  else
    circuitState ← getCircuitState (jobType job);
    (* If circuit is open or max retries exceeded, quarantine *)
    if bool_decide (circuitState = Some OPEN)
       || (maxRetries <=? attemptCount (metadata job)) then
      mret (mkDecision quarantine
              (if decide (circuitState = Some OPEN)
               then "Circuit breaker opened due to repeated failures"
               else "Max retries exceeded"))
    else
      (* Otherwise, retry *)
      mret (mkDecision retry
              ("Retry attempt " +:+ Number_toString (number_add (attemptCount (metadata job)) 1)
               +:+ "/" +:+ Number_toString maxRetries)).

(** ** worker.controller.ts *)

Definition channel_ack : M unit :=
  fun w => (with_channel (channel w ++ [Ack]) w, Ok tt).
Definition channel_nack (allUpTo requeue : bool) : M unit :=
  fun w => (with_channel (channel w ++ [Nack allUpTo requeue]) w, Ok tt).
Definition emit (m : Emitted) : M unit :=
  fun w => (with_emitted (emitted w ++ [m]) w, Ok tt).

(** The message of a retry: the job with
    [attemptCount: job.metadata.attemptCount + 1], a sum of numbers. *)
Definition retryJob (job : JobMessage) : JobMessage :=
  mkJob (jobType job) (payload job)
        (mkMetadata (submittedAt (metadata job)) (number_add (attemptCount (metadata job)) 1)).

Definition handleJob (job : JobMessage) (exec : Execution) : M unit :=
  try_catch
    ((* Process the job *)
     result ← processJob job exec;
     (* Determine routing based on result *)
     decision ← getRoutingDecision job result;
     match route decision with
     | ack => channel_ack
     | retry => emit (EmitRetry (retryJob job));; channel_ack
     | quarantine =>
         now ← Date_now;
         emit (EmitQuarantine job (reason decision) now);;
         channel_ack
     end)
    (fun _ =>
       (* On unexpected error, nack and requeue (will hit DLQ after retries) *)
       channel_nack false false).

Definition handleRetryJob (job : JobMessage) (exec : Execution) : M unit :=
  handleJob job exec.

End WorkerService.

(** ** control-plane: breakers.service.ts *)

Definition resetBreaker (jobType : string) : M unit :=
  let key := breakerKey jobType in
  exists_ ← EXISTS key;
  if exists_ =? 0 then
    throw ("Circuit breaker for jobType '" +:+ jobType +:+ "' not found")
  else
    (* Close the circuit *)
    SET key (RJson (mkBreaker CLOSED None));;
    (* Clear failure counters *)
    let pattern := failurePattern jobType in
    failureKeys ← KEYS pattern;
    (if (0 <? length failureKeys)%nat then _ ← DEL failureKeys; mret tt else mret tt).

(** ** Listing the circuit breakers

    [key.replace('breaker:', '')]: a string pattern is replaced at its
    first occurrence (the replacement here has no [$] pattern). *)

Fixpoint starts_with (p s : string) : bool :=
  match p, s with
  | EmptyString, _ => true
  | String a p', String b s' => Ascii.eqb a b && starts_with p' s'
  | String _ _, EmptyString => false
  end.

Fixpoint drop_chars (n : nat) (s : string) : string :=
  match n, s with
  | S k, String _ s' => drop_chars k s'
  | _, _ => s
  end.

Fixpoint replace_first (pattern replacement s : string) : string :=
  if starts_with pattern s
  then replacement +:+ drop_chars (String.length pattern) s
  else
    match s with
    | EmptyString => EmptyString
    | String c s' => String c (replace_first pattern replacement s')
    end.

(** [getAllBreakers] of circuit-breaker.service.ts fills a plain object,
    kept here as the map of its own properties: the assignment
    [breakers[jobType] = ...] creates one for every name but
    [__proto__], which an object takes as its prototype (or ignores,
    for a number) instead.  [JSON.parse(data)] is the stored value in
    parsed form: a record, or a number when the key holds a counter. *)
Fixpoint collectBreakers (keys : list string) (breakers : gmap string rvalue)
    : M (gmap string rvalue) :=
  match keys with
  | [] => mret breakers
  | key :: rest =>
      data ← GET key;
      match data with
      | None => collectBreakers rest breakers
      | Some parsed =>
          let jobType := replace_first "breaker:" EmptyString key in
          collectBreakers rest
            (if decide (jobType = "__proto__") then breakers
             else <[jobType := parsed]> breakers)
      end
  end.

Definition getAllBreakers : M (gmap string rvalue) :=
  let pattern := "breaker:*" in
  keys ← KEYS pattern;
  collectBreakers keys ∅.

(** ** control-plane: breakers.service.ts and breakers.controller.ts *)

Module BreakersService.

Record CircuitBreakerInfo : Type := mkInfo {
  jobType : string;
  state : option CircuitState;           (* undefined when the value has no [state] *)
  openedAt : option Z;
  cooldownElapsed : option bool          (* cooldownElapsed?: boolean *)
}.

Section Service.

(** [parseInt(process.env.COOLDOWN_PERIOD || '60', 10)] *)
Variable cooldownPeriod : Z.

Fixpoint collect (keys : list string) (breakers : list CircuitBreakerInfo)
    : M (list CircuitBreakerInfo) :=
  match keys with
  | [] => mret breakers
  | key :: rest =>
      data ← GET key;
      match data with
      | None => collect rest breakers
      | Some (RJson (mkBreaker st opened)) =>
          let jobType := replace_first "breaker:" EmptyString key in
          (* Calculate if cooldown has elapsed *)
          elapsed ← match st, opened with
                    | OPEN, Some t =>
                        if truthy opened
                        then now ← Date_now; mret (Some (cooldown_elapsed cooldownPeriod now t))
                        else mret None
                    | _, _ => mret None
                    end;
          collect rest (breakers ++ [mkInfo jobType (Some st) opened elapsed])
      | Some (RInt _) =>
          (* a number has no [state] and no [openedAt] *)
          let jobType := replace_first "breaker:" EmptyString key in
          collect rest (breakers ++ [mkInfo jobType None None None])
      end
  end.

Definition getAllBreakers : M (list CircuitBreakerInfo) :=
  let pattern := "breaker:*" in
  keys ← KEYS pattern;
  collect keys [].

End Service.

End BreakersService.

Module BreakersController.

Record Listing : Type := mkListing {
  count : nat;
  breakers : list BreakersService.CircuitBreakerInfo
}.

Record ResetResponse : Type := mkResetResponse {
  message : string;
  jobType : string
}.

(** GET /breakers *)
Definition getBreakers (cooldownPeriod : Z) : M Listing :=
  breakers ← BreakersService.getAllBreakers cooldownPeriod;
  mret (mkListing (length breakers) breakers).

(** POST /breakers/:jobType/reset *)
Definition resetBreaker (jobType : string) : M ResetResponse :=
  resetBreaker jobType;;
  mret (mkResetResponse ("Circuit breaker for '" +:+ jobType +:+ "' has been reset") jobType).

End BreakersController.

(** ** control-plane: metrics.service.ts and metrics.controller.ts *)

Module MetricsService.

(** What a property of the object [failuresByJobType] may hold or
    yield: nothing, a number, [NaN], a string built by [+=] on something
    that is no number (its content is not tracked; it is never empty),
    or a member of [Object.prototype] that the object inherits. *)
Inductive jsvalue : Type :=
  | Undefined
  | Num (n : Z)
  | NaN
  | Text
  | Inherited.

#[global] Instance jsvalue_eq_dec : EqDecision jsvalue.
Proof. solve_decision. Defined.

(** The names that a plain object inherits from [Object.prototype]. *)
Definition prototype_member (name : string) : bool :=
  bool_decide (name ∈ [ "constructor"; "__defineGetter__"; "__defineSetter__";
                        "hasOwnProperty"; "__lookupGetter__"; "__lookupSetter__";
                        "isPrototypeOf"; "propertyIsEnumerable"; "toString"; "valueOf";
                        "__proto__"; "toLocaleString" ]).

(** [obj[name]] on a plain object kept as the map of its own properties. *)
Definition get (obj : gmap string jsvalue) (name : string) : jsvalue :=
  match obj !! name with
  | Some v => v
  | None => if prototype_member name then Inherited else Undefined
  end.

(** [obj[name] = v] for a primitive [v]: the setter of [__proto__]
    ignores what is no object. *)
Definition set (obj : gmap string jsvalue) (name : string) (v : jsvalue)
    : gmap string jsvalue :=
  if decide (name = "__proto__") then obj else <[name := v]> obj.

(** [!v] *)
Definition falsy (v : jsvalue) : bool :=
  match v with
  | Undefined | NaN => true
  | Num n => n =? 0
  | Text | Inherited => false
  end.

(** [v + p] for a number [p]: a sum of numbers, or the concatenation of
    strings when [v] is a string, a function or an object. *)
Definition plus (v p : jsvalue) : jsvalue :=
  match v with
  | Num a => match p with Num n => Num (a + n) | _ => NaN end
  | Undefined | NaN => NaN
  | Text | Inherited => Text
  end.

(** [parseInt(count || '0', 10)]: the decimal integer that [INCR]
    wrote, 0 for a missing key, [NaN] for the text of a record. *)
Definition parseCount (count : option rvalue) : jsvalue :=
  match count with
  | None => Num 0
  | Some (RInt n) => Num n
  | Some (RJson _) => NaN
  end.

(** [key.split(':')] *)
Fixpoint split (sep : ascii) (s : string) : list string :=
  match s with
  | EmptyString => [EmptyString]
  | String c rest =>
      if Ascii.eqb c sep then EmptyString :: split sep rest
      else match split sep rest with
           | part :: parts => String c part :: parts
           | [] => [String c EmptyString]
           end
  end.

Record CircuitBreakers : Type := mkCircuitBreakers {
  total : nat;
  open : Z;
  closed : Z
}.

Record Failures : Type := mkFailures {
  byJobType : gmap string jsvalue
}.

Record Metrics : Type := mkMetrics {
  circuitBreakers : CircuitBreakers;
  failures : Failures
}.

(** The first loop of [getMetrics]: a value without a [state] that is
    ['OPEN'] counts as closed. *)
Fixpoint countBreakers (breakerKeys : list string) (openCount closedCount : Z) : M (Z * Z) :=
  match breakerKeys with
  | [] => mret (openCount, closedCount)
  | key :: rest =>
      data ← GET key;
      match data with
      | None => countBreakers rest openCount closedCount
      | Some (RJson breaker) =>
          if decide (state breaker = OPEN)
          then countBreakers rest (openCount + 1) closedCount
          else countBreakers rest openCount (closedCount + 1)
      | Some (RInt _) => countBreakers rest openCount (closedCount + 1)
      end
  end.

(** The second loop of [getMetrics]. *)
Fixpoint sumFailures (failureKeys : list string) (failuresByJobType : gmap string jsvalue)
    : M (gmap string jsvalue) :=
  match failureKeys with
  | [] => mret failuresByJobType
  | key :: rest =>
      let parts := split ":" key in
      if (2 <=? length parts)%nat then
        let jobType := nth 1 parts EmptyString in
        count ← GET key;
        let initialised :=
          if falsy (get failuresByJobType jobType)
          then set failuresByJobType jobType (Num 0)
          else failuresByJobType in
        sumFailures rest
          (set initialised jobType (plus (get initialised jobType) (parseCount count)))
      else sumFailures rest failuresByJobType
  end.

Definition getMetrics : M Metrics :=
  (* Get circuit breaker stats *)
  breakerKeys ← KEYS "breaker:*";
  counts ← countBreakers breakerKeys 0 0;
  (* Get failure counts by job type *)
  failureKeys ← KEYS "failure:*";
  failuresByJobType ← sumFailures failureKeys ∅;
  mret (mkMetrics (mkCircuitBreakers (length breakerKeys) counts.1 counts.2)
                  (mkFailures failuresByJobType)).

End MetricsService.

Module MetricsController.

(** GET /metrics *)
Definition getMetrics : M MetricsService.Metrics := MetricsService.getMetrics.

End MetricsController.

(** ** job-api: jobs.service.ts and jobs.controller.ts *)

Module JobsService.

Record CreateJobDto : Type := mkDto {
  jobType : string;
  payload : string
}.

(** [publishJob]: the message emitted to the main queue under
    [job.created]; [nowISO] is [new Date().toISOString()]. *)
Definition publishJob (jobDto : CreateJobDto) (nowISO : string) (main : list JobMessage)
    : list JobMessage :=
  let jobMessage := mkJob (jobType jobDto) (payload jobDto) (mkMetadata nowISO 0) in
  main ++ [jobMessage].

End JobsService.

Module JobsController.

Record Accepted : Type := mkAccepted {
  status : string;
  message : string;
  jobType : string
}.

(** POST /jobs *)
Definition createJob (createJobDto : JobsService.CreateJobDto) (nowISO : string)
    (main : list JobMessage) : list JobMessage * Accepted :=
  (JobsService.publishJob createJobDto nowISO main,
   mkAccepted "accepted" "Job queued for processing" (JobsService.jobType createJobDto)).

End JobsController.

(** ** Vocabulary of the properties *)

(** One delivery of the main (or retry) queue: the job, what its
    execution does if the executor is reached, and the instant at which
    the worker handles it. *)
Record Delivery : Type := mkDelivery {
  d_job : JobMessage;
  d_exec : Execution;
  d_at : Z
}.

Section Runs.

Variable config : CircuitBreakerConfig.
Variable maxRetries : Z.

Definition deliver (d : Delivery) (w : World) : World :=
  (handleJob config maxRetries (d_job d) (d_exec d) (with_clock (d_at d) w)).1.

(** The consumer handles one delivery at a time (prefetch 1). *)
Definition run (ds : list Delivery) (w : World) : World :=
  fold_left (fun w d => deliver d w) ds w.

End Runs.

(** The error code under which the pipeline records a delivery whose
    execution the executor reports as failed. *)
Definition failure_code (d : Delivery) : option string :=
  match d_exec d with
  | Resolves r => if success r then None else Some (recordedCode r)
  | Rejects _ => None
  end.

(** A failed execution of a job of type [jt], recorded under [ec]. *)
Definition failing (jt ec : string) (d : Delivery) : Prop :=
  jobType (d_job d) = jt ∧ failure_code d = Some ec.

(** How many deliveries of a run fail with the error code [ec]. *)
Definition occurrences (ec : string) (ds : list Delivery) : nat :=
  length (List.filter (fun d => bool_decide (failure_code d = Some ec)) ds).

(** *** What the store holds *)

(** The records that [closeCircuit] and [openCircuit] write. *)
Definition closed_record : entry := mkEntry (RJson (mkBreaker CLOSED None)) None.
Definition open_record (t : Z) : entry := mkEntry (RJson (mkBreaker OPEN (Some t))) None.

(** The Circuit Record of a job type is absent or CLOSED. *)
Definition record_closed (db : gmap string entry) (jt : string) : bool :=
  match db !! breakerKey jt with
  | None => true
  | Some e =>
      match value e with
      | RJson b => bool_decide (state b = CLOSED)
      | RInt _ => false
      end
  end.

(** The stored value of a counter at an instant: nothing once expired. *)
Definition counter (now : Z) (db : gmap string entry) (jt ec : string) : option rvalue :=
  value <$> lookup_live now db (failureKey jt ec).

(** The time-to-live of a counter, [expire(key, 3600)], in milliseconds. *)
Definition hour_ms : Z := 1000 * 3600.

(** The instant of the first delivery of a run that fails with the error
    code [ec]. *)
Definition first_failure (ec : string) (ds : list Delivery) : option Z :=
  d_at <$> head (List.filter (fun d => bool_decide (failure_code d = Some ec)) ds).

(** Every failure of a run with the error code [ec] is handled less than
    an hour after the first of them: within the time-to-live that the
    first increment gives the counter. *)
Definition within_ttl (ec : string) (ds : list Delivery) : Prop :=
  ∀ t, first_failure ec ds = Some t →
       Forall (λ d, failure_code d = Some ec → d_at d < t + hour_ms) ds.

(** What lies under a counter key can be incremented. *)
Definition is_counter (e : option entry) : bool :=
  match e with
  | Some (mkEntry (RJson _) _) => false
  | _ => true
  end.

(** A counter that holds at most [m]. *)
Definition at_most (m : Z) (e : option entry) : Prop :=
  match e with
  | None => True
  | Some e => ∃ n, value e = RInt n ∧ n ≤ m
  end.

(** *** What the engine does to a store that answers *)

(** The store after [closeCircuit]. *)
Definition closed_db (now : Z) (jt : string) (db : gmap string entry) : gmap string entry :=
  let db1 := <[breakerKey jt := closed_record]> db in
  delete_all (matching_keys now (failurePattern jt) db1) db1.

(** The store and the count after [incrementFailure] on a counter key. *)
Definition bump (now : Z) (db : gmap string entry) (key : string) : gmap string entry * Z :=
  match lookup_live now db key with
  | Some (mkEntry (RInt n) ex) =>
      (<[key := mkEntry (RInt (n + 1)) (if n + 1 =? 1 then Some (now + hour_ms) else ex)]> db,
       n + 1)
  | _ => (<[key := mkEntry (RInt 1) (Some (now + hour_ms))]> db, 1)
  end.

(** The world after a failed execution handled while the circuit reads
    CLOSED. *)
Definition after_failure (config : CircuitBreakerConfig) (job : JobMessage) (ec : string)
    (w : World) : World :=
  let '(db', c) := bump (clock w) (redis w) (failureKey (jobType job) ec) in
  let opens := failureThreshold config <=? c in
  mkWorld (if opens then <[breakerKey (jobType job) := open_record (clock w)]> db' else db')
          (clock w) [] (executed w ++ [job])
          (if opens then alerts w ++ [(jobType job, ec, c)] else alerts w)
          (emitted w) (channel w).

(** *** Frames *)

(** A computation whose every run relates the world before to the world after. *)
Definition keeps {A} (R : relation World) (m : M A) : Prop := ∀ w, R w (m w).1.

(** Two worlds that differ in the script of faults at most. *)
Definition only_faults (w w' : World) : Prop :=
  w' = with_faults (faults w') w ∧ (faults w = [] → faults w' = []).

(** The queue side of the world is as before. *)
Definition same_queues (w w' : World) : Prop :=
  emitted w' = emitted w ∧ channel w' = channel w.

(** The store and the alerts are as before. *)
Definition same_store (w w' : World) : Prop :=
  redis w' = redis w ∧ alerts w' = alerts w ∧ clock w' = clock w.

(** The record under key [k] is as before, or has been set to an entry
    that [allowed] admits at the instant of the step. *)
Definition record_moves (k : string) (allowed : Z → entry → Prop) (w w' : World) : Prop :=
  clock w' = clock w
  ∧ (redis w' !! k = redis w !! k ∨ ∃ e, redis w' !! k = Some e ∧ allowed (clock w) e).

(** *** Sample worlds and deliveries *)

(** An empty store, and the [email] job of the unit tests. *)
Definition world0 : World := mkWorld ∅ 0 [] [] [] [] [].
Definition emailJob (attempt : Z) : JobMessage :=
  mkJob "email" "{to: test@example.com}" (mkMetadata "2024-01-01" attempt).

(** Outcomes as the mock executor builds them. *)
Definition fails (code : string) : Execution :=
  Resolves (mkResult false (Some code) (Some ("Mock failure: " +:+ code))).
Definition succeeds : Execution := Resolves (mkResult true None None).
Definition timeoutResult : JobExecutionResult :=
  mkResult false (Some "API_TIMEOUT") (Some "Mock failure: API_TIMEOUT").
Definition timeout_at (t : Z) : Delivery := mkDelivery (emailJob 0) (fails "API_TIMEOUT") t.

(** Four failures of API_TIMEOUT and four of VALIDATION_ERROR. *)
Definition mixed_failures : list Delivery :=
  [ timeout_at 1000;
    mkDelivery (emailJob 0) (fails "VALIDATION_ERROR") 2000;
    timeout_at 3000;
    mkDelivery (emailJob 1) (fails "VALIDATION_ERROR") 4000;
    mkDelivery (emailJob 2) (fails "VALIDATION_ERROR") 5000;
    timeout_at 6000;
    timeout_at 7000;
    mkDelivery (emailJob 0) (fails "VALIDATION_ERROR") 8000 ].

(** The circuit of [email] opened at instant [opened]. *)
Definition open_world (opened now : Z) : World :=
  mkWorld {[ breakerKey "email" := open_record opened ]} now [] [] [] [] [].

(** The counter of (email, INTERNAL_ERROR) one below the default threshold. *)
Definition almost_tripped : World :=
  mkWorld {[ failureKey "email" "INTERNAL_ERROR" := mkEntry (RInt 4) (Some hour_ms) ]}
          1000 [] [] [] [] [].

(** An empty store that drops the commands scripted in [fs]. *)
Definition flaky (fs : list bool) : World := mkWorld ∅ 1000 fs [] [] [] [].

(** A job type that a glob pattern reads as a character class, with its
    circuit open and its counter for API_TIMEOUT at 5. *)
Definition bracketJob : JobMessage := mkJob "[a]" "{}" (mkMetadata "2024-01-01" 0).
Definition bracket_world : World :=
  mkWorld {[ breakerKey "[a]" := open_record 1000;
             failureKey "[a]" "API_TIMEOUT" := mkEntry (RInt 5) (Some hour_ms) ]}
          100000 [] [] [] [] [].

(** The clock is as before. *)
Definition same_clock (w w' : World) : Prop := clock w' = clock w.

(** The job [j'] is what a handler emits to the retry queue for [j]. *)
Definition retried (config : CircuitBreakerConfig) (maxRetries : Z) (j j' : JobMessage) : Prop :=
  ∃ exec w,
    emitted (handleJob config maxRetries j exec w).1 = emitted w ++ [EmitRetry j']
    ∨ emitted (handleRetryJob config maxRetries j exec w).1 = emitted w ++ [EmitRetry j'].

(** [n] retry hops lead from [j] to [j']. *)
Inductive retries (config : CircuitBreakerConfig) (maxRetries : Z)
    : nat → JobMessage → JobMessage → Prop :=
  | retries_none j : retries config maxRetries 0 j j
  | retries_more n j j' j'' :
      retries config maxRetries n j j' → retried config maxRetries j' j'' →
      retries config maxRetries (S n) j j''.

(** Everything but the store and the script of faults is as before. *)
Definition store_only (w w' : World) : Prop :=
  clock w' = clock w ∧ alerts w' = alerts w ∧ executed w' = executed w
  ∧ emitted w' = emitted w ∧ channel w' = channel w.

(** The alerts are as before. *)
Definition same_alerts (w w' : World) : Prop := alerts w' = alerts w.

(** The prefix of the counter keys of a job type. *)
Definition failurePrefix (jobType : string) : string := "failure:" +:+ jobType +:+ ":".

(** A job type without a colon. *)
Fixpoint colon_free (s : string) : bool :=
  match s with
  | EmptyString => true
  | String c rest => negb (Ascii.eqb c ":") && colon_free rest
  end.

(** What the control plane reports for the value [v] found under [key]. *)
Definition info_of (cooldownPeriod now : Z) (key : string) (v : rvalue)
    : BreakersService.CircuitBreakerInfo :=
  let jobType := replace_first "breaker:" EmptyString key in
  match v with
  | RJson b =>
      BreakersService.mkInfo jobType (Some (state b)) (openedAt b)
        (match state b, openedAt b with
         | OPEN, Some t =>
             if truthy (openedAt b) then Some (cooldown_elapsed cooldownPeriod now t) else None
         | _, _ => None
         end)
  | RInt _ => BreakersService.mkInfo jobType None None None
  end.

(** The value live under [key] is a record with state OPEN. *)
Definition reads_open (now : Z) (db : gmap string entry) (key : string) : bool :=
  match value <$> lookup_live now db key with
  | Some (RJson b) => bool_decide (state b = OPEN)
  | _ => false
  end.

(** The part of a key between its first and its second colon. *)
Definition segment (key : string) : string := nth 1 (MetricsService.split ":" key) EmptyString.



(** The keys of [ks] whose segment is [jt]. *)
Definition keys_of_segment (jt : string) (ks : list string) : list string :=
  List.filter (λ k, bool_decide (segment k = jt)) ks.

(** Unfolding of the monad operations. *)
Ltac promise := unfold mbind, M_bind, bind, mret, M_ret, ret, throw in *.

(** * Properties *)

(** ** Glob patterns over plain text *)

Module GlobFacts.
Import Glob.

Lemma tokens_plain_app p q :
  plain p = true → tokens 0 (p +:+ q) = ((Lit <$> list_ascii_of_string p) ++ tokens 0 q)%list.
Proof.
  induction p as [|c p IH]; simpl; [done|].
  intros [Hc Hp]%andb_prop. unfold special in Hc.
  apply negb_true_iff in Hc.
  repeat (apply orb_false_iff in Hc as [Hc ?]).
  rewrite Hc, H1, H0, H. by rewrite IH.
Qed.

Lemma matches_star_any s : matches [Star] s = true.
Proof. induction s as [|c s IH]; simpl; [done|]. exact IH. Qed.

Lemma matches_lits p ts s :
  matches ts s = true →
  matches ((Lit <$> list_ascii_of_string p) ++ ts)%list (p +:+ s) = true.
Proof.
  intros H. induction p as [|c p IH]; simpl; [done|].
  rewrite Ascii.eqb_refl. exact IH.
Qed.

End GlobFacts.

(** ** Keys *)

Lemma breakerKey_inj a b : breakerKey a = breakerKey b → a = b.
Proof. unfold breakerKey. apply (inj (String.app _)). Qed.

Lemma failureKey_inj jt a b : failureKey jt a = failureKey jt b → a = b.
Proof.
  unfold failureKey. intros H.
  do 3 apply (inj (String.app _)) in H. done.
Qed.

Lemma breakerKey_ne_failureKey a jt ec : breakerKey a ≠ failureKey jt ec.
Proof. unfold breakerKey, failureKey. intros H. simpl in H. discriminate H. Qed.

Lemma failurePattern_failureKey jt ec :
  Glob.plain jt = true → Glob.stringmatch (failurePattern jt) (failureKey jt ec) = true.
Proof.
  intros Hp. unfold Glob.stringmatch, failurePattern, failureKey. simpl.
  change (Glob.matches (Glob.tokens 0 (jt +:+ ":*")) (jt +:+ ":" +:+ ec) = true).
  rewrite (GlobFacts.tokens_plain_app jt ":*" Hp).
  apply GlobFacts.matches_lits. simpl. rewrite GlobFacts.matches_star_any.
  by destruct ec.
Qed.

Lemma failurePattern_breakerKey jt a :
  Glob.stringmatch (failurePattern jt) (breakerKey a) = false.
Proof. reflexivity. Qed.

(** ** The store when it answers *)

Lemma with_redis_same w : with_redis (redis w) w = w.
Proof. by destruct w. Qed.

Lemma command_ok {A} (f : Z → gmap string entry → gmap string entry * result A) w :
  faults w = [] →
  command f w = (with_redis (f (clock w) (redis w)).1 w, (f (clock w) (redis w)).2).
Proof. intros H. unfold command. rewrite H. by destruct (f _ _). Qed.

Lemma GET_ok key w :
  faults w = [] → GET key w = (w, Ok (value <$> lookup_live (clock w) (redis w) key)).
Proof. intros H. unfold GET. rewrite command_ok by done. simpl. by rewrite with_redis_same. Qed.

Lemma SET_ok key v w :
  faults w = [] → SET key v w = (with_redis (<[key := mkEntry v None]> (redis w)) w, Ok tt).
Proof. intros H. unfold SET. by rewrite command_ok. Qed.

Lemma EXISTS_ok key w :
  faults w = [] →
  EXISTS key w
  = (w, Ok (match lookup_live (clock w) (redis w) key with Some _ => 1 | None => 0 end)).
Proof. intros H. unfold EXISTS. rewrite command_ok by done. simpl. by rewrite with_redis_same. Qed.

Lemma KEYS_ok pattern w :
  faults w = [] → KEYS pattern w = (w, Ok (matching_keys (clock w) pattern (redis w))).
Proof. intros H. unfold KEYS. rewrite command_ok by done. simpl. by rewrite with_redis_same. Qed.

Lemma getCircuitState_ok jt w :
  faults w = [] →
  getCircuitState jt w =
    (w, Ok (match value <$> lookup_live (clock w) (redis w) (breakerKey jt) with
            | None => Some CLOSED
            | Some (RJson b) => Some (state b)
            | Some (RInt _) => None
            end)).
Proof.
  intros H. unfold getCircuitState. promise. rewrite GET_ok by done.
  by destruct (value <$> _) as [[]|].
Qed.

Lemma canProbe_ok config jt w :
  faults w = [] →
  canProbe config jt w =
    (w, Ok (match value <$> lookup_live (clock w) (redis w) (breakerKey jt) with
            | Some (RJson b) =>
                match state b, openedAt b with
                | OPEN, Some opened =>
                    truthy (openedAt b)
                    && cooldown_elapsed (cooldownPeriod config) (clock w) opened
                | _, _ => false
                end
            | _ => false
            end)).
Proof.
  intros H. unfold canProbe. promise. rewrite GET_ok by done.
  destruct (value <$> _) as [[n|[[] [t|]]]|]; try done.
  simpl. by destruct (negb _).
Qed.

Lemma closeCircuit_ok jt w :
  faults w = [] →
  closeCircuit jt w = (with_redis (closed_db (clock w) jt (redis w)) w, Ok tt).
Proof.
  intros H. unfold closeCircuit, closed_db. promise.
  rewrite SET_ok by done. rewrite KEYS_ok by done. simpl.
  destruct (matching_keys _ _ _) as [|k ks] eqn:E; simpl.
  - destruct w; done.
  - unfold DEL. rewrite command_ok by done. simpl. by destruct w.
Qed.

Lemma incrementFailure_ok jt ec w :
  faults w = [] →
  is_counter (lookup_live (clock w) (redis w) (failureKey jt ec)) = true →
  incrementFailure jt ec w =
    (with_redis (bump (clock w) (redis w) (failureKey jt ec)).1 w,
     Ok (bump (clock w) (redis w) (failureKey jt ec)).2).
Proof.
  intros H Hc. unfold incrementFailure, bump, INCR, EXPIRE. promise.
  rewrite command_ok by done. simpl.
  destruct (lookup_live (clock w) (redis w) (failureKey jt ec)) as [[[n|b] ex]|] eqn:E;
    simpl in *; try done.
  - destruct (n + 1 =? 1) eqn:N; simpl; [|done].
    rewrite command_ok by done. simpl.
    unfold lookup_live in *. rewrite lookup_insert_eq.
    destruct (redis w !! failureKey jt ec) as [e|]; [|done].
    destruct (live (clock w) e) eqn:L; [|done]. injection E as ->.
    unfold live in *. simpl in *. rewrite L. simpl.
    by rewrite insert_insert_eq.
  - rewrite command_ok by done. simpl. unfold lookup_live. rewrite lookup_insert_eq. simpl.
    by rewrite insert_insert_eq.
Qed.

Lemma bump_lookup now db k :
  ∃ ex, (bump now db k).1 !! k = Some (mkEntry (RInt (bump now db k).2) ex)
        ∧ live now (mkEntry (RInt (bump now db k).2) ex) = true.
Proof.
  assert (∀ v, live now (mkEntry v (Some (now + hour_ms))) = true) as Hfresh.
  { intros v. unfold live, hour_ms. simpl. apply Z.ltb_lt. lia. }
  unfold bump, lookup_live.
  destruct (db !! k) as [[[n|b] ex]|] eqn:E; simpl.
  - destruct (live now (mkEntry (RInt n) ex)) eqn:L; simpl.
    + eexists. rewrite lookup_insert_eq. split; [done|].
      destruct (n + 1 =? 1); [apply Hfresh|exact L].
    + eexists. rewrite lookup_insert_eq. split; [done|]. apply Hfresh.
  - destruct (live now (mkEntry (RJson b) ex)); simpl;
      eexists; rewrite lookup_insert_eq; (split; [done|]); apply Hfresh.
  - eexists. rewrite lookup_insert_eq. split; [done|]. apply Hfresh.
Qed.

Lemma bump_other now db k k' : k' ≠ k → (bump now db k).1 !! k' = db !! k'.
Proof.
  intros Hne. unfold bump.
  destruct (lookup_live now db k) as [[[n|b] ex]|]; simpl; by rewrite lookup_insert_ne.
Qed.

Lemma record_closed_view db jt now :
  record_closed db jt = true →
  match value <$> lookup_live now db (breakerKey jt) with
  | None => True
  | Some (RJson b) => state b = CLOSED
  | Some (RInt _) => False
  end.
Proof.
  unfold record_closed, lookup_live. intros H.
  destruct (db !! breakerKey jt) as [[[n|b] ex]|]; simpl in *; [done| |done].
  apply bool_decide_eq_true in H. by destruct (live _ _).
Qed.

Lemma processJob_failure_closed config job r w :
  faults w = [] →
  record_closed (redis w) (jobType job) = true →
  is_counter (lookup_live (clock w) (redis w)
                (failureKey (jobType job) (recordedCode r))) = true →
  success r = false →
  processJob config job (Resolves r) w = (after_failure config job (recordedCode r) w, Ok r).
Proof.
  intros Hf Hc Hn Hs. unfold processJob, try_catch. promise.
  rewrite getCircuitState_ok by done.
  pose proof (record_closed_view _ _ (clock w) Hc) as Hv.
  assert (match value <$> lookup_live (clock w) (redis w) (breakerKey (jobType job)) with
          | None => Some CLOSED | Some (RJson b) => Some (state b)
          | Some (RInt _) => None end = Some CLOSED) as ->.
  { destruct (value <$> _) as [[n|b]|]; [done| by rewrite Hv | done]. }
  simpl. rewrite Hs.
  rewrite incrementFailure_ok by done.
  unfold shouldOpenCircuit, after_failure. promise.
  rewrite GET_ok by done. simpl.
  destruct (bump_lookup (clock w) (redis w) (failureKey (jobType job) (recordedCode r)))
    as (ex & Hl & Hlive).
  destruct (bump _ _ _) as [db' c] eqn:Eb. simpl in *.
  unfold lookup_live. rewrite Hl, Hlive. simpl.
  destruct (failureThreshold config <=? c); simpl.
  - unfold openCircuit, Date_now. promise. rewrite SET_ok by done. simpl.
    unfold sendCircuitOpenAlert. simpl. destruct w; simpl in *; by subst.
  - destruct w; simpl in *; by subst.
Qed.

(** ** Reads leave the world as it is *)

Lemma only_faults_refl w : only_faults w w.
Proof. split; [by destruct w | done]. Qed.

Lemma only_faults_trans w1 w2 w3 : only_faults w1 w2 → only_faults w2 w3 → only_faults w1 w3.
Proof.
  intros [E1 F1] [E2 F2]. split; [|auto].
  rewrite E2 at 1. rewrite E1. by destruct w1.
Qed.

Lemma command_read {A} (f : Z → gmap string entry → gmap string entry * result A) w :
  (∀ now db, (f now db).1 = db) → only_faults w (command f w).1.
Proof.
  intros Hf. unfold command.
  destruct (faults w) as [|[] fs] eqn:E; simpl.
  - specialize (Hf (clock w) (redis w)). destruct (f _ _) as [db r]. simpl in *. subst.
    split; [by destruct w | by simpl].
  - split; [by destruct w | by rewrite E].
  - specialize (Hf (clock w) (redis w)). destruct (f _ _) as [db r]. simpl in *. subst.
    split; [by destruct w | by rewrite E].
Qed.

Lemma GET_quiet key w : only_faults w (GET key w).1.
Proof. by apply command_read. Qed.

Lemma getCircuitState_quiet jt w : only_faults w (getCircuitState jt w).1.
Proof.
  unfold getCircuitState. promise. pose proof (GET_quiet (breakerKey jt) w) as H.
  destruct (GET _ w) as [w' [[[n|b]|]|e]]; done.
Qed.

Lemma getRoutingDecision_quiet mr job r w : only_faults w (getRoutingDecision mr job r w).1.
Proof.
  unfold getRoutingDecision. promise.
  destruct (success r); [apply only_faults_refl|].
  destruct (decide _); [apply only_faults_refl|].
  pose proof (getCircuitState_quiet (jobType job) w) as H.
  destruct (getCircuitState _ w) as [w' [cs|e]]; [|done].
  by destruct (_ || _).
Qed.

Lemma handleJob_store config mr job exec w :
  let p := (processJob config job exec w).1 in
  let h := (handleJob config mr job exec w).1 in
  redis h = redis p ∧ clock h = clock p ∧ executed h = executed p ∧ alerts h = alerts p
  ∧ (faults p = [] → faults h = []).
Proof.
  unfold handleJob, try_catch. promise.
  destruct (processJob config job exec w) as [w1 [r|e]]; simpl; [|done].
  pose proof (getRoutingDecision_quiet mr job r w1) as [E F].
  destruct (getRoutingDecision mr job r w1) as [w2 [d|e]]; simpl in *.
  - destruct (route d); simpl; rewrite E; destruct w1; simpl in *; auto.
  - rewrite E. destruct w1; simpl in *; auto.
Qed.

Lemma deliver_failure_closed config mr jt ec d w :
  faults w = [] →
  record_closed (redis w) jt = true →
  failing jt ec d →
  is_counter (lookup_live (d_at d) (redis w) (failureKey jt ec)) = true →
  let w' := deliver config mr d w in
  let a := after_failure config (d_job d) ec (with_clock (d_at d) w) in
  redis w' = redis a ∧ alerts w' = alerts a ∧ executed w' = executed a ∧ faults w' = []
  ∧ clock w' = d_at d.
Proof.
  intros Hf Hc [Hj Hx] Hn. unfold failure_code in Hx.
  destruct (d_exec d) as [r|] eqn:Ex; [|done].
  destruct (success r) eqn:Hs; [done|]. injection Hx as Hr. subst jt ec. unfold deliver.
  pose proof (handleJob_store config mr (d_job d) (d_exec d) (with_clock (d_at d) w)) as H.
  rewrite Ex in *. rewrite processJob_failure_closed in H by done.
  simpl in H. destruct H as (H1 & H2 & H3 & H4 & H5).
  repeat split; try done.
  - apply H5. unfold after_failure. by destruct (bump _ _ _).
  - rewrite H2. unfold after_failure. by destruct (bump _ _ _).
Qed.

(** ** Counting a failure *)

Lemma bump_live now db k n ex :
  db !! k = Some (mkEntry (RInt n) ex) → live now (mkEntry (RInt n) ex) = true →
  bump now db k =
    (<[k := mkEntry (RInt (n + 1)) (if n + 1 =? 1 then Some (now + hour_ms) else ex)]> db, n + 1).
Proof. intros H L. unfold bump, lookup_live. by rewrite H, L. Qed.

Lemma bump_fresh now db k :
  lookup_live now db k = None →
  bump now db k = (<[k := mkEntry (RInt 1) (Some (now + hour_ms))]> db, 1).
Proof. intros H. unfold bump. by rewrite H. Qed.

Lemma record_closed_bump now db k jt :
  k ≠ breakerKey jt → record_closed (bump now db k).1 jt = record_closed db jt.
Proof. intros H. unfold record_closed. by rewrite bump_other. Qed.

Lemma run_snoc config mr ds d w :
  run config mr (ds ++ [d]) w = deliver config mr d (run config mr ds w).
Proof. unfold run. by rewrite fold_left_app. Qed.

Lemma getCircuitState_open jt w t :
  faults w = [] → redis w !! breakerKey jt = Some (open_record t) →
  getCircuitState jt w = (w, Ok (Some OPEN)).
Proof.
  intros Hf H. rewrite getCircuitState_ok by done. unfold lookup_live. by rewrite H.
Qed.

Lemma getCircuitState_closed jt w :
  faults w = [] → record_closed (redis w) jt = true →
  getCircuitState jt w = (w, Ok (Some CLOSED)).
Proof.
  intros Hf H. rewrite getCircuitState_ok by done.
  pose proof (record_closed_view _ _ (clock w) H) as Hv.
  destruct (value <$> _) as [[n|b]|]; [done| by rewrite Hv | done].
Qed.

(** ** C1: failures of one error code *)

Section Failures.

Variable config : CircuitBreakerConfig.
Variable maxRetries : Z.
Variables jt ec : string.

Let fk := failureKey jt ec.
Let T := failureThreshold config.

(** A failure that leaves the counter below the threshold. *)
Lemma deliver_failure_below d w c db' :
  faults w = [] → record_closed (redis w) jt = true → failing jt ec d →
  is_counter (lookup_live (d_at d) (redis w) fk) = true →
  bump (d_at d) (redis w) fk = (db', c) → c < T →
  let w' := deliver config maxRetries d w in
  faults w' = [] ∧ redis w' = db' ∧ alerts w' = alerts w ∧ record_closed (redis w') jt = true.
Proof.
  intros Hf Hc Hd Hn Hb Hlt.
  destruct (deliver_failure_closed config maxRetries jt ec d w Hf Hc Hd Hn)
    as (Hr & Ha & _ & Hf' & _).
  assert (jobType (d_job d) = jt) as Hj by apply Hd.
  unfold after_failure in *. simpl in *. rewrite Hj in *. fold fk in Hr, Ha.
  rewrite Hb in *. fold T in Hr, Ha.
  assert ((T <=? c) = false) as E by (apply Z.leb_gt; lia). rewrite E in *. simpl in *.
  repeat split; try done. rewrite Hr.
  replace db' with (bump (d_at d) (redis w) fk).1 by (by rewrite Hb).
  rewrite record_closed_bump; [done|]. intros H. symmetry in H.
  by apply breakerKey_ne_failureKey in H.
Qed.

(** A failure that brings the counter to the threshold. *)
Lemma deliver_failure_opens d w c db' :
  faults w = [] → record_closed (redis w) jt = true → failing jt ec d →
  is_counter (lookup_live (d_at d) (redis w) fk) = true →
  bump (d_at d) (redis w) fk = (db', c) → T ≤ c →
  let w' := deliver config maxRetries d w in
  redis w' !! breakerKey jt = Some (open_record (d_at d))
  ∧ getCircuitState jt w' = (w', Ok (Some OPEN))
  ∧ alerts w' = alerts w ++ [(jt, ec, c)].
Proof.
  intros Hf Hc Hd Hn Hb Hle.
  destruct (deliver_failure_closed config maxRetries jt ec d w Hf Hc Hd Hn)
    as (Hr & Ha & _ & Hf' & Hk).
  assert (jobType (d_job d) = jt) as Hj by apply Hd.
  unfold after_failure in *. simpl in *. rewrite Hj in *. fold fk in Hr, Ha.
  rewrite Hb in *. fold T in Hr, Ha.
  assert ((T <=? c) = true) as E by (apply Z.leb_le; lia). rewrite E in *. simpl in *.
  assert (redis (deliver config maxRetries d w) !! breakerKey jt
          = Some (open_record (d_at d))) as Ho.
  { rewrite Hr. apply lookup_insert_eq. }
  split; [done|]. split; [|done]. by eapply getCircuitState_open.
Qed.

(** A failure handled while the circuit reads CLOSED writes under its
    counter key and, when it opens the circuit, under the breaker key of
    its job type: every other key is left as it was. *)
Lemma deliver_failure_frame d w k :
  faults w = [] → record_closed (redis w) jt = true → failing jt ec d →
  is_counter (lookup_live (d_at d) (redis w) fk) = true →
  k ≠ fk → k ≠ breakerKey jt →
  redis (deliver config maxRetries d w) !! k = redis w !! k.
Proof.
  intros Hf Hc Hd Hn Hk Hb.
  destruct (deliver_failure_closed config maxRetries jt ec d w Hf Hc Hd Hn) as (Hr & _).
  assert (jobType (d_job d) = jt) as Hj by apply Hd.
  rewrite Hr. unfold after_failure. simpl. rewrite Hj. fold fk.
  pose proof (bump_other (d_at d) (redis w) fk k Hk) as Ho.
  destruct (bump (d_at d) (redis w) fk) as [db' c]. simpl in *.
  destruct (failureThreshold config <=? c); simpl; [|done].
  by rewrite lookup_insert_ne.
Qed.

(** The store after a failure that brings the counter to the threshold. *)
Lemma deliver_failure_opens_store d w c db' :
  faults w = [] → record_closed (redis w) jt = true → failing jt ec d →
  is_counter (lookup_live (d_at d) (redis w) fk) = true →
  bump (d_at d) (redis w) fk = (db', c) → T ≤ c →
  redis (deliver config maxRetries d w) = <[breakerKey jt := open_record (d_at d)]> db'.
Proof.
  intros Hf Hc Hd Hn Hb Hle.
  destruct (deliver_failure_closed config maxRetries jt ec d w Hf Hc Hd Hn) as (Hr & _).
  assert (jobType (d_job d) = jt) as Hj by apply Hd.
  unfold after_failure in *. simpl in *. rewrite Hj in *. fold fk in Hr.
  rewrite Hb in *. fold T in Hr.
  assert ((T <=? c) = true) as E by (apply Z.leb_le; lia). rewrite E in *. exact Hr.
Qed.

End Failures.

Section ThresholdRun.

Variable config : CircuitBreakerConfig.
Variable maxRetries : Z.
Variables jt ec : string.

Lemma live_within now n e : now < e → live now (mkEntry (RInt n) (Some e)) = true.
Proof. intros H. unfold live. simpl. by apply Z.ltb_lt. Qed.

(** While fewer failures than the threshold have been handled, all
    within the hour that the first one opened, the counter holds their
    number and the circuit is still closed. *)
Lemma run_failures_counted w d1 ds :
  faults w = [] →
  record_closed (redis w) jt = true →
  counter (d_at d1) (redis w) jt ec = None →
  Forall (failing jt ec) (d1 :: ds) →
  Forall (λ d, d_at d < d_at d1 + hour_ms) ds →
  Z.of_nat (length (d1 :: ds)) < failureThreshold config →
  let w' := run config maxRetries (d1 :: ds) w in
  faults w' = [] ∧ record_closed (redis w') jt = true ∧ alerts w' = alerts w
  ∧ redis w' !! failureKey jt ec
    = Some (mkEntry (RInt (Z.of_nat (length (d1 :: ds)))) (Some (d_at d1 + hour_ms))).
Proof.
  intros Hf Hc Hn. induction ds as [|d ds IH] using rev_ind; intros Hall Hwin Hlen.
  - simpl in *. apply Forall_inv in Hall.
    assert (lookup_live (d_at d1) (redis w) (failureKey jt ec) = None) as Hl.
    { unfold counter in Hn. by destruct (lookup_live _ _ _). }
    destruct (deliver_failure_below config maxRetries jt ec d1 w 1
                (<[failureKey jt ec := mkEntry (RInt 1) (Some (d_at d1 + hour_ms))]> (redis w))
                Hf Hc Hall)
      as (H1 & H2 & H3 & H4); [by rewrite Hl | by apply bump_fresh | lia |].
    repeat split; try done. rewrite H2. apply lookup_insert_eq.
  - change (d1 :: ds ++ [d]) with ((d1 :: ds) ++ [d]) in *.
    rewrite run_snoc. rewrite length_app in *. simpl length in *.
    apply Forall_app in Hall as [Hall Hd]. apply Forall_inv in Hd.
    apply Forall_app in Hwin as [Hwin Ht]. apply Forall_inv in Ht.
    destruct IH as (H1 & H2 & H3 & H4); [done|done|lia|].
    set (wk := run config maxRetries (d1 :: ds) w) in *.
    set (k := Z.of_nat (S (length ds))) in *.
    assert (live (d_at d) (mkEntry (RInt k) (Some (d_at d1 + hour_ms))) = true) as Hlive
      by (by apply live_within).
    destruct (deliver_failure_below config maxRetries jt ec d wk (k + 1)
                (<[failureKey jt ec := mkEntry (RInt (k + 1)) (Some (d_at d1 + hour_ms))]>
                   (redis wk))
                H1 H2 Hd) as (G1 & G2 & G3 & G4).
    + unfold lookup_live. by rewrite H4, Hlive.
    + rewrite (bump_live _ _ _ _ _ H4 Hlive).
      assert ((k + 1 =? 1) = false) as -> by (apply Z.eqb_neq; lia). done.
    + lia.
    + repeat split; try done; [congruence|].
      rewrite G2, lookup_insert_eq. do 3 f_equal. lia.
Qed.

End ThresholdRun.

(** C1 (amended: within the time-to-live of the counter).  Start from a
    CLOSED circuit with no live counter for (jobType, errorCode) and a
    store that answers.  [failureThreshold] consecutive failed
    executions of that job type with that one error code, all handled
    less than an hour after the first, leave the circuit CLOSED and the
    alert silent up to the last one; handling the last one writes an OPEN
    record stamped with its instant, so that the state reads OPEN, and
    fires the alert with (jobType, errorCode, failureThreshold) exactly
    once. *)
Theorem C1_threshold_failures_within_ttl_open_once
    config maxRetries jt ec w pre dl :
  let first := hd dl pre in
  faults w = [] →
  record_closed (redis w) jt = true →
  counter (d_at first) (redis w) jt ec = None →
  Forall (failing jt ec) (pre ++ [dl]) →
  Forall (λ d, d_at d < d_at first + hour_ms) (pre ++ [dl]) →
  Z.of_nat (length (pre ++ [dl])) = failureThreshold config →
  let before := run config maxRetries pre w in
  let after := deliver config maxRetries dl before in
  (getCircuitState jt before = (before, Ok (Some CLOSED)) ∧ alerts before = alerts w)
  ∧ redis after !! breakerKey jt = Some (open_record (d_at dl))
  ∧ getCircuitState jt after = (after, Ok (Some OPEN))
  ∧ alerts after = alerts w ++ [(jt, ec, failureThreshold config)].
Proof.
  intros first Hf Hc Hn Hall Hwin Hlen before after.
  apply Forall_app in Hall as [Hall Hd]. apply Forall_inv in Hd.
  apply Forall_app in Hwin as [Hwin Ht]. apply Forall_inv in Ht.
  rewrite length_app in Hlen. simpl in Hlen.
  destruct pre as [|d1 ds]; simpl in *.
  - assert (lookup_live (d_at dl) (redis w) (failureKey jt ec) = None) as Hl.
    { unfold counter in Hn. by destruct (lookup_live _ _ _). }
    split; [split; [by apply getCircuitState_closed | done]|].
    rewrite <- Hlen.
    eapply deliver_failure_opens; eauto; [by rewrite Hl | by apply bump_fresh | lia].
  - destruct (run_failures_counted config maxRetries jt ec w d1 ds Hf Hc Hn Hall)
      as (H1 & H2 & H3 & H4); [by eapply Forall_inv_tail | simpl; lia |].
    subst first. fold before in H1, H2, H3, H4.
    split; [split; [by apply getCircuitState_closed | done]|].
    assert (live (d_at dl) (mkEntry (RInt (Z.of_nat (length (d1 :: ds))))
                              (Some (d_at d1 + hour_ms))) = true) as Hlive
      by (by apply live_within).
    rewrite <- H3, <- Hlen.
    eapply deliver_failure_opens; eauto.
    + unfold lookup_live. by rewrite H4, Hlive.
    + rewrite (bump_live _ _ _ _ _ H4 Hlive).
      assert ((Z.of_nat (length (d1 :: ds)) + 1 =? 1) = false) as ->
        by (apply Z.eqb_neq; simpl length; lia).
      f_equal. simpl length. lia.
    + lia.
Qed.

(** Five API_TIMEOUT failures of [email] jobs, one second apart, with the
    default threshold of 5. *)
Lemma C1_witness :
  let pre := [timeout_at 1000; timeout_at 2000; timeout_at 3000; timeout_at 4000] in
  let before := run defaultConfig 3 pre world0 in
  let after := deliver defaultConfig 3 (timeout_at 5000) before in
  (getCircuitState "email" before = (before, Ok (Some CLOSED)) ∧ alerts before = alerts world0)
  ∧ redis after !! breakerKey "email" = Some (open_record 5000)
  ∧ getCircuitState "email" after = (after, Ok (Some OPEN))
  ∧ alerts after = alerts world0 ++ [("email", "API_TIMEOUT", 5)].
Proof.
  apply (C1_threshold_failures_within_ttl_open_once defaultConfig 3 "email" "API_TIMEOUT"
           world0 [timeout_at 1000; timeout_at 2000; timeout_at 3000; timeout_at 4000]
           (timeout_at 5000)).
  - reflexivity.
  - reflexivity.
  - reflexivity.
  - repeat constructor.
  - repeat constructor.
  - reflexivity.
Defined.

(** Four failures, then a fifth more than an hour after the first: the
    counter has expired and starts again at 1, the circuit stays CLOSED
    and no alert fires. *)
Lemma C1_counterexample :
  let ds := [timeout_at 1000; timeout_at 2000; timeout_at 3000; timeout_at 4000;
             timeout_at 3700000] in
  let after := run defaultConfig 3 ds world0 in
  faults world0 = [] ∧ record_closed (redis world0) "email" = true
  ∧ (∀ t, counter t (redis world0) "email" "API_TIMEOUT" = None)
  ∧ Forall (failing "email" "API_TIMEOUT") ds
  ∧ Z.of_nat (length ds) = failureThreshold defaultConfig
  ∧ getCircuitState "email" after = (after, Ok (Some CLOSED))
  ∧ alerts after = []
  ∧ counter 3700000 (redis after) "email" "API_TIMEOUT" = Some (RInt 1).
Proof.
  intros ds after.
  split; [reflexivity|]. split; [reflexivity|]. split; [intros t; reflexivity|].
  split; [repeat constructor|]. split; [reflexivity|].
  split; [vm_compute; reflexivity|].
  split; [vm_compute; reflexivity|].
  vm_compute; reflexivity.
Qed.

(** ** C5: mixed error codes *)

Lemma occurrences_app ec ds1 ds2 :
  occurrences ec (ds1 ++ ds2) = (occurrences ec ds1 + occurrences ec ds2)%nat.
Proof. unfold occurrences. by rewrite List.filter_app, length_app. Qed.

Lemma occurrences_failing jt ec d : failing jt ec d → occurrences ec [d] = 1%nat.
Proof. intros [_ H]. unfold occurrences. simpl. by rewrite bool_decide_eq_true_2. Qed.

Lemma occurrences_other jt ec ec' d :
  failing jt ec d → ec' ≠ ec → occurrences ec' [d] = 0%nat.
Proof.
  intros [_ H] Hne. unfold occurrences. simpl.
  rewrite bool_decide_eq_false_2; [done|]. congruence.
Qed.

Lemma at_most_is_counter m now db k :
  at_most m (db !! k) → is_counter (lookup_live now db k) = true.
Proof.
  unfold at_most, lookup_live. destruct (db !! k) as [[v ex]|]; [|done].
  intros (n & Hv & _). simpl in Hv. subst v. by destruct (live _ _).
Qed.

Lemma bump_at_most m now db k :
  0 ≤ m → at_most m (db !! k) → (bump now db k).2 ≤ m + 1.
Proof.
  unfold at_most, bump, lookup_live. intros Hm.
  destruct (db !! k) as [[v ex]|]; simpl; [|lia].
  intros (n & Hv & Hn). simpl in Hv. subst v.
  destruct (live _ _); simpl; lia.
Qed.

(** The keys of two job types without a colon are apart, whatever the
    error codes. *)
Lemma failureKey_apart jt jt' ec ec' :
  colon_free jt = true → colon_free jt' = true →
  failureKey jt ec = failureKey jt' ec' → jt = jt'.
Proof.
  unfold failureKey. intros Hc Hc' H. apply (inj (String.app _)) in H.
  revert jt' Hc Hc' H. induction jt as [|c a IH]; intros [|d b] Hc Hc' H; [done|..].
  - change (String ":" ec = String d (b +:+ ":" +:+ ec')) in H. injection H as <- _.
    by simpl in Hc'.
  - change (String c (a +:+ ":" +:+ ec) = String ":" ec') in H. injection H as -> _.
    by simpl in Hc.
  - change (String c (a +:+ ":" +:+ ec) = String d (b +:+ ":" +:+ ec')) in H.
    injection H as -> H. simpl in Hc, Hc'.
    apply andb_prop in Hc as [_ Hc]. apply andb_prop in Hc' as [_ Hc'].
    f_equal. by apply IH.
Qed.

Lemma first_failure_app ec ds1 ds2 :
  first_failure ec (ds1 ++ ds2)
  = match first_failure ec ds1 with
    | Some t => Some t
    | None => first_failure ec ds2
    end.
Proof.
  unfold first_failure. rewrite List.filter_app. by destruct (List.filter _ ds1).
Qed.

Lemma first_failure_failing jt ec d : failing jt ec d → first_failure ec [d] = Some (d_at d).
Proof. intros [_ H]. unfold first_failure. simpl. by rewrite bool_decide_eq_true_2. Qed.

Lemma first_failure_other jt ec ec' d :
  failing jt ec d → ec' ≠ ec → first_failure ec' [d] = None.
Proof.
  intros [_ H] Hne. unfold first_failure. simpl.
  rewrite bool_decide_eq_false_2; [done|]. congruence.
Qed.

Lemma first_failure_None ec ds : first_failure ec ds = None → occurrences ec ds = 0%nat.
Proof. unfold first_failure, occurrences. by destruct (List.filter _ ds). Qed.

Lemma first_failure_Some ec ds t :
  first_failure ec ds = Some t → (0 < occurrences ec ds)%nat.
Proof.
  unfold first_failure, occurrences. destruct (List.filter _ ds); [done|]. simpl. lia.
Qed.

Lemma within_ttl_prefix ec ds1 ds2 : within_ttl ec (ds1 ++ ds2) → within_ttl ec ds1.
Proof.
  intros H t Ht. specialize (H t). rewrite first_failure_app, Ht in H.
  specialize (H eq_refl). by apply Forall_app in H as [H _].
Qed.

Section MixedCodes.

Variable config : CircuitBreakerConfig.
Variable maxRetries : Z.
Variable jt : string.

(** As long as no error code has failed as often as the threshold, the
    circuit stays closed, whatever the order and the instants. *)
Lemma run_below_threshold w ds :
  faults w = [] →
  record_closed (redis w) jt = true →
  Forall (λ d, ∃ ec, failing jt ec d ∧ redis w !! failureKey jt ec = None
                     ∧ Z.of_nat (occurrences ec ds) < failureThreshold config) ds →
  let w' := run config maxRetries ds w in
  faults w' = [] ∧ record_closed (redis w') jt = true ∧ alerts w' = alerts w
  ∧ ∀ ec, redis w !! failureKey jt ec = None →
          at_most (Z.of_nat (occurrences ec ds)) (redis w' !! failureKey jt ec).
Proof.
  intros Hf Hc. induction ds as [|d ds IH] using rev_ind; intros Hall.
  - simpl. repeat split; try done. intros ec ->. done.
  - apply Forall_app in Hall as [Hall Hd]. apply Forall_inv in Hd.
    destruct Hd as (ec0 & Hd & Hfresh & Hocc).
    rewrite run_snoc.
    destruct IH as (H1 & H2 & H3 & H4).
    { eapply Forall_impl; [exact Hall|]. simpl. intros x (ec & ? & ? & Hx).
      exists ec. split; [done|]. split; [done|]. rewrite occurrences_app in Hx. lia. }
    set (wk := run config maxRetries ds w) in *.
    rewrite occurrences_app, (occurrences_failing _ _ _ Hd) in Hocc.
    pose proof (H4 ec0 Hfresh) as Hm.
    pose proof (bump_at_most _ (d_at d) _ _ (Nat2Z.is_nonneg _) Hm) as Hb.
    destruct (bump (d_at d) (redis wk) (failureKey jt ec0)) as [db' c] eqn:Eb.
    simpl in Hb.
    destruct (deliver_failure_below config maxRetries jt ec0 d wk c db' H1 H2 Hd)
      as (G1 & G2 & G3 & G4); [by eapply at_most_is_counter | done | lia |].
    repeat split; try done; [congruence|].
    intros ec Hec. rewrite G2. rewrite occurrences_app.
    destruct (decide (ec = ec0)) as [->|Hne].
    + rewrite (occurrences_failing _ _ _ Hd).
      destruct (bump_lookup (d_at d) (redis wk) (failureKey jt ec0)) as (ex & Hl & _).
      rewrite Eb in Hl. simpl in Hl. rewrite Hl. simpl. exists c. split; [done|lia].
    + rewrite (occurrences_other _ _ _ _ Hd Hne).
      replace db' with (bump (d_at d) (redis wk) (failureKey jt ec0)).1 by (by rewrite Eb).
      rewrite bump_other; [|by intros ?%failureKey_inj].
      replace (occurrences ec ds + 0)%nat with (occurrences ec ds) by lia. by apply H4.
Qed.

(** Such a run writes under the counter keys of its job type only. *)
Lemma run_below_threshold_frame w ds k :
  faults w = [] →
  record_closed (redis w) jt = true →
  Forall (λ d, ∃ ec, failing jt ec d ∧ redis w !! failureKey jt ec = None
                     ∧ Z.of_nat (occurrences ec ds) < failureThreshold config) ds →
  (∀ ec, k ≠ failureKey jt ec) →
  redis (run config maxRetries ds w) !! k = redis w !! k.
Proof.
  intros Hf Hc. induction ds as [|d ds IH] using rev_ind; intros Hall Hk; [done|].
  apply Forall_app in Hall as [Hall Hd]. apply Forall_inv in Hd.
  destruct Hd as (ec0 & Hd & Hfresh & Hocc).
  assert (Forall (λ d, ∃ ec, failing jt ec d ∧ redis w !! failureKey jt ec = None
                   ∧ Z.of_nat (occurrences ec ds) < failureThreshold config) ds) as Hall'.
  { eapply Forall_impl; [exact Hall|]. simpl. intros x (ec' & ? & ? & Hx).
    exists ec'. split; [done|]. split; [done|]. rewrite occurrences_app in Hx. lia. }
  rewrite run_snoc, <- (IH Hall' Hk).
  destruct (run_below_threshold w ds Hf Hc Hall') as (H1 & H2 & H3 & H4).
  set (wk := run config maxRetries ds w) in *.
  rewrite occurrences_app, (occurrences_failing _ _ _ Hd) in Hocc.
  pose proof (H4 ec0 Hfresh) as Hm.
  pose proof (bump_at_most _ (d_at d) _ _ (Nat2Z.is_nonneg _) Hm) as Hb.
  destruct (bump (d_at d) (redis wk) (failureKey jt ec0)) as [db' c] eqn:Eb.
  simpl in Hb.
  destruct (deliver_failure_below config maxRetries jt ec0 d wk c db' H1 H2 Hd)
    as (_ & G2 & _); [by eapply at_most_is_counter | done | lia |].
  rewrite G2.
  replace db' with (bump (d_at d) (redis wk) (failureKey jt ec0)).1 by (by rewrite Eb).
  by apply bump_other.
Qed.

(** The counter of an error code whose failures all fall within its
    time-to-live holds their number, and expires an hour after the first
    of them, whatever other codes fail in between. *)
Lemma run_mixed_counted w ds ec :
  faults w = [] →
  record_closed (redis w) jt = true →
  Forall (λ d, ∃ ec, failing jt ec d ∧ redis w !! failureKey jt ec = None
                     ∧ Z.of_nat (occurrences ec ds) < failureThreshold config) ds →
  redis w !! failureKey jt ec = None →
  within_ttl ec ds →
  redis (run config maxRetries ds w) !! failureKey jt ec
  = (λ t, mkEntry (RInt (Z.of_nat (occurrences ec ds))) (Some (t + hour_ms)))
      <$> first_failure ec ds.
Proof.
  intros Hf Hc. induction ds as [|d ds IH] using rev_ind; intros Hall Hec Hwin.
  - done.
  - apply Forall_app in Hall as [Hall Hd]. apply Forall_inv in Hd.
    destruct Hd as (ec0 & Hd & Hfresh & Hocc).
    assert (Forall (λ d, ∃ ec, failing jt ec d ∧ redis w !! failureKey jt ec = None
                     ∧ Z.of_nat (occurrences ec ds) < failureThreshold config) ds) as Hall'.
    { eapply Forall_impl; [exact Hall|]. simpl. intros x (ec' & ? & ? & Hx).
      exists ec'. split; [done|]. split; [done|]. rewrite occurrences_app in Hx. lia. }
    rewrite run_snoc.
    destruct (run_below_threshold w ds Hf Hc Hall') as (H1 & H2 & H3 & H4).
    specialize (IH Hall' Hec (within_ttl_prefix _ _ _ Hwin)).
    set (wk := run config maxRetries ds w) in *.
    rewrite occurrences_app, (occurrences_failing _ _ _ Hd) in Hocc.
    pose proof (H4 ec0 Hfresh) as Hm.
    pose proof (bump_at_most _ (d_at d) _ _ (Nat2Z.is_nonneg _) Hm) as Hb.
    destruct (bump (d_at d) (redis wk) (failureKey jt ec0)) as [db' c] eqn:Eb.
    simpl in Hb.
    destruct (deliver_failure_below config maxRetries jt ec0 d wk c db' H1 H2 Hd)
      as (_ & G2 & _); [by eapply at_most_is_counter | done | lia |].
    rewrite G2, first_failure_app, occurrences_app.
    destruct (decide (ec = ec0)) as [->|Hne].
    + rewrite (occurrences_failing _ _ _ Hd), (first_failure_failing _ _ _ Hd).
      destruct (first_failure ec0 ds) as [t|] eqn:Ef; simpl in IH |- *.
      * assert (d_at d < t + hour_ms) as Ht.
        { specialize (Hwin t). rewrite first_failure_app, Ef in Hwin.
          specialize (Hwin eq_refl). apply Forall_app in Hwin as [_ Hwin].
          apply Forall_inv in Hwin. apply Hwin, Hd. }
        pose proof (first_failure_Some _ _ _ Ef) as Hpos.
        rewrite (bump_live _ _ _ _ _ IH (live_within _ _ _ Ht)) in Eb.
        injection Eb as <- <-. rewrite lookup_insert_eq.
        assert ((Z.of_nat (occurrences ec0 ds) + 1 =? 1) = false) as ->
          by (apply Z.eqb_neq; lia).
        do 3 f_equal. lia.
      * rewrite bump_fresh in Eb by (unfold lookup_live; by rewrite IH).
        injection Eb as <- <-. rewrite lookup_insert_eq.
        by rewrite (first_failure_None _ _ Ef).
    + rewrite (occurrences_other _ _ _ _ Hd Hne), (first_failure_other _ _ _ _ Hd Hne).
      replace db' with (bump (d_at d) (redis wk) (failureKey jt ec0)).1 by (by rewrite Eb).
      rewrite bump_other; [|by intros ?%failureKey_inj]. rewrite IH.
      replace (occurrences ec ds + 0)%nat with (occurrences ec ds) by lia.
      by destruct (first_failure ec ds).
Qed.

End MixedCodes.

Lemma length_two_codes jt A B ds :
  A ≠ B → Forall (λ d, failing jt A d ∨ failing jt B d) ds →
  length ds = (occurrences A ds + occurrences B ds)%nat.
Proof.
  intros Hne. induction 1 as [|d ds Hd _ IH]; [done|].
  change (d :: ds) with ([d] ++ ds). rewrite !occurrences_app, length_app, IH.
  destruct Hd as [Hd|Hd].
  - rewrite (occurrences_failing _ _ _ Hd), (occurrences_other _ _ B _ Hd); [simpl; lia|].
    by intros ->.
  - rewrite (occurrences_failing _ _ _ Hd), (occurrences_other _ _ A _ Hd); [simpl; lia|done].
Qed.

(** C5 (amended: within the time-to-live of the counter).  For a job type
    whose circuit is CLOSED and whose counters for two distinct error
    codes A and B are absent, with a store that answers, any interleaving
    of threshold-1 failures of A and threshold-1 failures of B, at any
    instants, leaves the circuit CLOSED after every prefix and fires no
    alert, although 2*(threshold-1) failures were handled.  When a
    further failure of A follows, and it and the failures of A before it
    are all handled less than an hour after the first of them, the
    counter of A stands at threshold-1 when it arrives and at threshold
    after it, the counter of B is left as it was, the circuit reads OPEN
    and the one alert carries (jobType, A, threshold).  With or without
    that window, the counters of every other job type are what they were
    before the run, for job types without a colon: with one, two pairs
    of job type and error code can spell the same key. *)
Theorem C5_mixed_error_codes_within_ttl_counted_independently
    config maxRetries jt A B w ds :
  A ≠ B →
  faults w = [] →
  record_closed (redis w) jt = true →
  redis w !! failureKey jt A = None →
  redis w !! failureKey jt B = None →
  Forall (λ d, failing jt A d ∨ failing jt B d) ds →
  Z.of_nat (occurrences A ds) = failureThreshold config - 1 →
  Z.of_nat (occurrences B ds) = failureThreshold config - 1 →
  Z.of_nat (length ds) = 2 * (failureThreshold config - 1)
  ∧ (∀ pre post, ds = pre ++ post →
     let w1 := run config maxRetries pre w in
     getCircuitState jt w1 = (w1, Ok (Some CLOSED)) ∧ alerts w1 = alerts w)
  ∧ (∀ d, failing jt A d → within_ttl A (ds ++ [d]) →
       let w1 := run config maxRetries ds w in
       let w2 := deliver config maxRetries d w1 in
       counter (d_at d) (redis w1) jt A
         = (if failureThreshold config =? 1 then None
            else Some (RInt (failureThreshold config - 1)))
       ∧ counter (d_at d) (redis w2) jt A = Some (RInt (failureThreshold config))
       ∧ redis w2 !! failureKey jt B = redis w1 !! failureKey jt B
       ∧ getCircuitState jt w2 = (w2, Ok (Some OPEN))
       ∧ alerts w2 = alerts w ++ [(jt, A, failureThreshold config)])
  ∧ (∀ jt' ec d, colon_free jt = true → colon_free jt' = true → jt' ≠ jt →
       failing jt A d →
       let w1 := run config maxRetries ds w in
       let w2 := deliver config maxRetries d w1 in
       redis w1 !! failureKey jt' ec = redis w !! failureKey jt' ec
       ∧ redis w2 !! failureKey jt' ec = redis w !! failureKey jt' ec).
Proof.
  intros Hne Hf Hc HA HB Hall HoA HoB.
  assert (Forall (λ d, ∃ ec, failing jt ec d ∧ redis w !! failureKey jt ec = None
            ∧ Z.of_nat (occurrences ec ds) < failureThreshold config) ds) as Hall'.
  { eapply Forall_impl; [exact Hall|]. simpl.
    intros x [Hx|Hx]; [exists A | exists B]; (split; [done|]); (split; [done|]); lia. }
  split; [rewrite (length_two_codes jt A B ds Hne Hall); lia|].
  split; [|split].
  - intros pre post ->. rewrite occurrences_app in HoA, HoB.
    apply Forall_app in Hall as [Hall _].
    destruct (run_below_threshold config maxRetries jt w pre Hf Hc) as (H1 & H2 & H3 & _).
    + eapply Forall_impl; [exact Hall|]. simpl.
      intros x [Hx|Hx]; [exists A | exists B]; (split; [done|]); (split; [done|]); lia.
    + split; [by apply getCircuitState_closed | done].
  - intros d Hd Hwin.
    destruct (run_below_threshold config maxRetries jt w ds Hf Hc Hall') as (H1 & H2 & H3 & _).
    pose proof (run_mixed_counted config maxRetries jt w ds A Hf Hc Hall' HA
                  (within_ttl_prefix _ _ _ Hwin)) as H4.
    set (w1 := run config maxRetries ds w) in *.
    set (T := failureThreshold config) in *.
    assert (∃ t, d_at d < t + hour_ms
                 ∧ lookup_live (d_at d) (redis w1) (failureKey jt A)
                   = (if T =? 1 then None else Some (mkEntry (RInt (T - 1)) (Some (t + hour_ms))))
                 ∧ bump (d_at d) (redis w1) (failureKey jt A)
                   = (<[failureKey jt A := mkEntry (RInt T) (Some (t + hour_ms))]> (redis w1), T))
      as (t & Ht & Hl & Hb).
    { destruct (first_failure A ds) as [t|] eqn:Ef; simpl in H4.
      - pose proof (first_failure_Some _ _ _ Ef) as Hpos.
        assert (d_at d < t + hour_ms) as Ht.
        { specialize (Hwin t). rewrite first_failure_app, Ef in Hwin.
          specialize (Hwin eq_refl). apply Forall_app in Hwin as [_ Hwin].
          apply Forall_inv in Hwin. apply Hwin, Hd. }
        rewrite HoA in H4. exists t. split; [done|].
        assert ((T =? 1) = false) as -> by (apply Z.eqb_neq; lia).
        split; [unfold lookup_live; by rewrite H4, (live_within _ _ _ Ht)|].
        rewrite (bump_live _ _ _ _ _ H4 (live_within _ _ _ Ht)).
        assert ((T - 1 + 1 =? 1) = false) as -> by (apply Z.eqb_neq; lia).
        do 4 f_equal; lia.
      - pose proof (first_failure_None _ _ Ef) as Hzero.
        assert (T = 1) as HT by lia.
        exists (d_at d). split; [unfold hour_ms; lia|].
        assert (lookup_live (d_at d) (redis w1) (failureKey jt A) = None) as Hl
          by (unfold lookup_live; by rewrite H4).
        rewrite HT. split; [done|]. by apply bump_fresh. }
    assert (is_counter (lookup_live (d_at d) (redis w1) (failureKey jt A)) = true) as Hn
      by (rewrite Hl; by destruct (T =? 1)).
    pose proof (deliver_failure_opens_store config maxRetries jt A d w1 _ _ H1 H2 Hd Hn Hb
                  (Z.le_refl _)) as Hs.
    destruct (deliver_failure_opens config maxRetries jt A d w1 _ _ H1 H2 Hd Hn Hb
                (Z.le_refl _)) as (_ & Ho & Ha).
    split; [unfold counter; rewrite Hl; by destruct (T =? 1)|].
    split.
    { unfold counter, lookup_live. rewrite Hs.
      rewrite lookup_insert_ne by apply breakerKey_ne_failureKey.
      by rewrite lookup_insert_eq, (live_within _ _ _ Ht). }
    split.
    { rewrite Hs. rewrite lookup_insert_ne by apply breakerKey_ne_failureKey.
      apply lookup_insert_ne. intros H%failureKey_inj. done. }
    split; [exact Ho|]. by rewrite <- H3.
  - intros jt' ec d Hj Hj' Hjt Hd.
    destruct (run_below_threshold config maxRetries jt w ds Hf Hc Hall') as (H1 & H2 & _ & H4).
    assert (∀ ec0, failureKey jt' ec ≠ failureKey jt ec0) as Hk.
    { intros ec0 E. apply Hjt. by apply (failureKey_apart jt' jt ec ec0). }
    pose proof (run_below_threshold_frame config maxRetries jt w ds _ Hf Hc Hall' Hk) as Hw.
    split; [exact Hw|]. rewrite <- Hw.
    apply (deliver_failure_frame config maxRetries jt A); try done.
    eapply at_most_is_counter. by apply H4.
Qed.

(** The scenario of the specification: threshold 5, four API_TIMEOUT and
    four VALIDATION_ERROR failures, then a ninth job failing with
    API_TIMEOUT, all within ten seconds. *)
Lemma C5_witness :
  let w1 := run defaultConfig 3 mixed_failures world0 in
  let w2 := deliver defaultConfig 3 (timeout_at 9000) w1 in
  (getCircuitState "email" w1 = (w1, Ok (Some CLOSED)) ∧ alerts w1 = [])
  ∧ counter 9000 (redis w1) "email" "API_TIMEOUT" = Some (RInt 4)
  ∧ counter 9000 (redis w2) "email" "API_TIMEOUT" = Some (RInt 5)
  ∧ redis w2 !! failureKey "email" "VALIDATION_ERROR"
    = redis w1 !! failureKey "email" "VALIDATION_ERROR"
  ∧ getCircuitState "email" w2 = (w2, Ok (Some OPEN))
  ∧ alerts w2 = [("email", "API_TIMEOUT", 5)].
Proof.
  destruct (C5_mixed_error_codes_within_ttl_counted_independently defaultConfig 3 "email"
              "API_TIMEOUT" "VALIDATION_ERROR" world0 mixed_failures) as (_ & H1 & H2 & _).
  - discriminate.
  - reflexivity.
  - reflexivity.
  - reflexivity.
  - reflexivity.
  - repeat (constructor; [first [by left | by right]|]). constructor.
  - reflexivity.
  - reflexivity.
  - split.
    + apply (H1 mixed_failures []). reflexivity.
    + apply (H2 (timeout_at 9000)); [by split|].
      intros t [= <-]. repeat (constructor; [intros _; reflexivity|]). constructor.
Defined.

(** The same eight failures, then the ninth more than an hour after the
    first API_TIMEOUT: the counter of API_TIMEOUT has expired and starts
    again at 1, the circuit stays CLOSED and no alert fires. *)
Lemma C5_counterexample :
  let d := timeout_at 3700000 in
  let w1 := run defaultConfig 3 mixed_failures world0 in
  let w2 := deliver defaultConfig 3 d w1 in
  faults world0 = [] ∧ record_closed (redis world0) "email" = true
  ∧ redis world0 !! failureKey "email" "API_TIMEOUT" = None
  ∧ redis world0 !! failureKey "email" "VALIDATION_ERROR" = None
  ∧ Forall (λ d, failing "email" "API_TIMEOUT" d ∨ failing "email" "VALIDATION_ERROR" d)
      mixed_failures
  ∧ Z.of_nat (occurrences "API_TIMEOUT" mixed_failures) = failureThreshold defaultConfig - 1
  ∧ Z.of_nat (occurrences "VALIDATION_ERROR" mixed_failures)
    = failureThreshold defaultConfig - 1
  ∧ failing "email" "API_TIMEOUT" d
  ∧ redis w1 !! failureKey "email" "API_TIMEOUT"
    = Some (mkEntry (RInt 4) (Some (1000 + hour_ms)))
  ∧ getCircuitState "email" w2 = (w2, Ok (Some CLOSED))
  ∧ alerts w2 = []
  ∧ counter 3700000 (redis w2) "email" "API_TIMEOUT" = Some (RInt 1).
Proof.
  intros d w1 w2.
  split; [reflexivity|]. split; [reflexivity|]. split; [reflexivity|].
  split; [reflexivity|].
  split; [repeat (constructor; [first [by left | by right]|]); constructor|].
  split; [reflexivity|]. split; [reflexivity|]. split; [by split|].
  split; [vm_compute; reflexivity|].
  split; [vm_compute; reflexivity|].
  split; [vm_compute; reflexivity|].
  vm_compute; reflexivity.
Qed.

(** ** C2, C4: routing *)

(** The integers up to 2^53 in magnitude are doubles. *)
Lemma double_nearest_exact x : - 2 ^ 53 ≤ x ≤ 2 ^ 53 → double_nearest x = x.
Proof.
  intros Hx. unfold double_nearest. destruct (Z.abs x <? 2 ^ 53) eqn:E; [done|].
  apply Z.ltb_ge in E.
  assert (x = 2 ^ 53 ∨ x = - 2 ^ 53) as [-> | ->] by lia; vm_compute; reflexivity.
Qed.

(** 2^53 + 1 is halfway between two doubles, and the even one is 2^53. *)
Lemma number_add_stuck : number_add (2 ^ 53) 1 = 2 ^ 53.
Proof. vm_compute. reflexivity. Qed.

(** Below 2^53 a number is printed with all its digits. *)
Lemma Number_toString_exact x : - 2 ^ 53 < x < 2 ^ 53 → Number_toString x = pretty x.
Proof.
  intros Hx. unfold Number_toString. rewrite double_nearest_exact by lia. cbv zeta.
  destruct x as [|p|p].
  - reflexivity.
  - change (Z.pos p =? 0) with false. change (Z.pos p <? 0) with false. cbv iota.
    unfold positive_toString.
    assert ((Z.pos p <? 2 ^ 53) = true) as -> by (apply Z.ltb_lt; lia). done.
  - change (Z.neg p =? 0) with false. change (Z.neg p <? 0) with true. cbv iota.
    unfold positive_toString. change (- Z.neg p) with (Z.pos p).
    assert ((Z.pos p <? 2 ^ 53) = true) as -> by (apply Z.ltb_lt; lia). done.
Qed.

(** The reason of a retry below 2^53: the next attempt number and the
    budget, in digits. *)
Lemma retry_reason_exact attempt maxRetries :
  - 2 ^ 53 < attempt + 1 < 2 ^ 53 → - 2 ^ 53 < maxRetries < 2 ^ 53 →
  "Retry attempt " +:+ Number_toString (number_add attempt 1)
    +:+ "/" +:+ Number_toString maxRetries
  = "Retry attempt " +:+ pretty (attempt + 1) +:+ "/" +:+ pretty maxRetries.
Proof.
  intros Ha Hm. unfold number_add.
  rewrite double_nearest_exact, !Number_toString_exact by lia. done.
Qed.

(** Above 2^53 the sum and the digits are those of doubles. *)
Lemma retry_reason_examples :
  "Retry attempt " +:+ Number_toString (number_add 0 1) +:+ "/" +:+ Number_toString 3
  = "Retry attempt 1/3"
  ∧ "Retry attempt " +:+ Number_toString (number_add (2 ^ 53) 1)
      +:+ "/" +:+ Number_toString (2 ^ 53 + 2)
    = "Retry attempt 9007199254740992/9007199254740994"
  ∧ Number_toString (2 ^ 64) = "18446744073709552000"
  ∧ Number_toString (10 ^ 21) = "1e+21".
Proof. vm_compute. repeat split; reflexivity. Qed.

Lemma canProbe_quiet config jt w : only_faults w (canProbe config jt w).1.
Proof.
  unfold canProbe. promise. pose proof (GET_quiet (breakerKey jt) w) as H.
  destruct (GET _ w) as [w' [[[n|[[] [t|]]]|]|e]]; try done.
  simpl in *. by destruct (t =? 0).
Qed.

Lemma only_faults_executed w w' : only_faults w w' → executed w' = executed w.
Proof. intros [-> _]. done. Qed.

(** C2 (amended: the reason as the code spells it).  When the circuit
    of a job reads OPEN and [canProbe] answers false, [processJob]
    returns the synthetic outcome with error code CIRCUIT_OPEN and the
    executor is not called; the Routing Decision Maker routes that
    outcome to quarantine with reason "Circuit breaker is open" in every
    world, and [handleJob] emits the job to the quarantine queue with
    that reason and acks the delivery. *)
Theorem C2_open_circuit_skips_executor_and_quarantines
    config maxRetries job exec w w1 w2 :
  getCircuitState (jobType job) w = (w1, Ok (Some OPEN)) →
  canProbe config (jobType job) w1 = (w2, Ok false) →
  (processJob config job exec w = (w2, Ok circuitOpenResult) ∧ executed w2 = executed w)
  ∧ (success circuitOpenResult = false ∧ errorCode circuitOpenResult = Some "CIRCUIT_OPEN")
  ∧ (∀ w3, getRoutingDecision maxRetries job circuitOpenResult w3
           = (w3, Ok (mkDecision quarantine "Circuit breaker is open")))
  ∧ (let w' := (handleJob config maxRetries job exec w).1 in
     executed w' = executed w
     ∧ emitted w' = emitted w ++ [EmitQuarantine job "Circuit breaker is open" (clock w)]
     ∧ channel w' = channel w ++ [Ack]).
Proof.
  intros H1 H2.
  assert (processJob config job exec w = (w2, Ok circuitOpenResult)) as Hp.
  { unfold processJob, try_catch. promise. rewrite H1. simpl. by rewrite H2. }
  pose proof (getCircuitState_quiet (jobType job) w) as Q1. rewrite H1 in Q1.
  pose proof (canProbe_quiet config (jobType job) w1) as Q2. rewrite H2 in Q2.
  pose proof (only_faults_trans _ _ _ Q1 Q2) as [Q _]. simpl in Q.
  split; [split; [done|by rewrite Q]|]. split; [done|]. split; [done|].
  unfold handleJob, try_catch. promise. rewrite Hp. simpl.
  rewrite Q. by destruct w.
Qed.

(** One second after the circuit of [email] opened. *)
Lemma C2_witness :
  let w := open_world 1000 2000 in
  let w' := (handleJob defaultConfig 3 (emailJob 0) succeeds w).1 in
  (processJob defaultConfig (emailJob 0) succeeds w = (w, Ok circuitOpenResult)
   ∧ executed w = executed w)
  ∧ executed w' = []
  ∧ emitted w' = [EmitQuarantine (emailJob 0) "Circuit breaker is open" 2000]
  ∧ channel w' = [Ack].
Proof.
  intros w w'.
  destruct (C2_open_circuit_skips_executor_and_quarantines defaultConfig 3 (emailJob 0)
              succeeds w w w) as (H1 & _ & _ & H4).
  - vm_compute. reflexivity.
  - vm_compute. reflexivity.
  - split; [exact H1 | exact H4].
Defined.

(** The reason of the decision is not the string of the claim. *)
Lemma C2_counterexample :
  let w := open_world 1000 2000 in
  getCircuitState "email" w = (w, Ok (Some OPEN))
  ∧ canProbe defaultConfig "email" w = (w, Ok false)
  ∧ ∃ d, getRoutingDecision 3 (emailJob 0) circuitOpenResult w = (w, Ok d)
         ∧ route d = quarantine
         ∧ reason d ≠ "circuit breaker is open".
Proof.
  intros w. split; [vm_compute; reflexivity|]. split; [vm_compute; reflexivity|].
  eexists. split; [reflexivity|]. split; [reflexivity|]. discriminate.
Qed.

(** A failure other than CIRCUIT_OPEN is never acked, and is quarantined
    when the circuit reads OPEN. *)
Lemma getRoutingDecision_failure_route maxRetries job result w w' cs :
  success result = false →
  errorCode result ≠ Some "CIRCUIT_OPEN" →
  getCircuitState (jobType job) w = (w', Ok cs) →
  ∃ d, getRoutingDecision maxRetries job result w = (w', Ok d)
    ∧ route d ≠ ack ∧ (cs = Some OPEN → route d = quarantine).
Proof.
  intros Hs Hc Hg. unfold getRoutingDecision. promise. rewrite Hs.
  destruct (decide _) as [E|_]; [done|]. rewrite Hg.
  destruct cs as [[]|]; simpl; [|by eexists|];
    destruct (maxRetries <=? attemptCount (metadata job)); by eexists.
Qed.

(** C4 (amended: the reasons as the code spells them).  A failed
    execution whose error code is not CIRCUIT_OPEN is routed on the
    circuit state read again after the failure: OPEN gives quarantine
    with reason "Circuit breaker opened due to repeated failures",
    whatever the attempt count; otherwise an attempt count of at least
    [maxRetries] gives quarantine with reason "Max retries exceeded", and
    a smaller one gives retry with the reason
    "Retry attempt <attemptCount+1>/<maxRetries>". *)
Theorem C4_failed_execution_routing maxRetries job result w w' cs :
  success result = false →
  errorCode result ≠ Some "CIRCUIT_OPEN" →
  getCircuitState (jobType job) w = (w', Ok cs) →
  ∃ d, getRoutingDecision maxRetries job result w = (w', Ok d)
    ∧ (cs = Some OPEN →
         d = mkDecision quarantine "Circuit breaker opened due to repeated failures")
    ∧ (cs ≠ Some OPEN → maxRetries ≤ attemptCount (metadata job) →
         d = mkDecision quarantine "Max retries exceeded")
    ∧ (cs ≠ Some OPEN → attemptCount (metadata job) < maxRetries →
         d = mkDecision retry
               ("Retry attempt " +:+ Number_toString (number_add (attemptCount (metadata job)) 1)
                +:+ "/" +:+ Number_toString maxRetries)).
Proof.
  intros Hs Hc Hg. unfold getRoutingDecision. promise. rewrite Hs.
  destruct (decide _) as [E|_]; [done|]. rewrite Hg.
  destruct (decide (cs = Some OPEN)) as [->|Hcs].
  - simpl. eexists. split; [done|]. split; [done|]. split; intros H; by destruct H.
  - rewrite bool_decide_eq_false_2 by done. simpl.
    destruct (maxRetries <=? attemptCount (metadata job)) eqn:E.
    + apply Z.leb_le in E. eexists. split; [done|]. split; [done|].
      split; [done|]. intros _ ?. lia.
    + apply Z.leb_gt in E. eexists. split; [done|]. split; [done|].
      split; [|done]. intros _ ?. lia.
Qed.

(** A first-attempt job that fails while the circuit is open. *)
Lemma C4_witness :
  let w := open_world 1000 2000 in
  ∃ d, getRoutingDecision 3 (emailJob 0) timeoutResult w = (w, Ok d)
    ∧ (Some OPEN = Some OPEN →
         d = mkDecision quarantine "Circuit breaker opened due to repeated failures")
    ∧ (Some OPEN ≠ Some OPEN → 3 ≤ attemptCount (metadata (emailJob 0)) →
         d = mkDecision quarantine "Max retries exceeded")
    ∧ (Some OPEN ≠ Some OPEN → attemptCount (metadata (emailJob 0)) < 3 →
         d = mkDecision retry
               ("Retry attempt "
                +:+ Number_toString (number_add (attemptCount (metadata (emailJob 0))) 1)
                +:+ "/" +:+ Number_toString 3)).
Proof.
  intros w.
  apply (C4_failed_execution_routing 3 (emailJob 0) timeoutResult w w (Some OPEN)).
  - reflexivity.
  - discriminate.
  - vm_compute. reflexivity.
Defined.

(** The reason of the decision is not the string of the claim. *)
Lemma C4_counterexample :
  let w := open_world 1000 2000 in
  success timeoutResult = false
  ∧ errorCode timeoutResult ≠ Some "CIRCUIT_OPEN"
  ∧ getCircuitState "email" w = (w, Ok (Some OPEN))
  ∧ ∃ d, getRoutingDecision 3 (emailJob 0) timeoutResult w = (w, Ok d)
         ∧ route d = quarantine
         ∧ reason d ≠ "circuit opened due to repeated failures".
Proof.
  intros w. split; [reflexivity|]. split; [discriminate|].
  split; [vm_compute; reflexivity|].
  eexists. split; [vm_compute; reflexivity|]. split; [reflexivity|]. discriminate.
Qed.

(** ** Closing a circuit *)

Lemma elem_of_matching_keys now pattern db k :
  k ∈ matching_keys now pattern db ↔
  ∃ e, db !! k = Some e ∧ live now e = true ∧ Glob.stringmatch pattern k = true.
Proof.
  unfold matching_keys. rewrite list_elem_of_fmap. split.
  - intros ([k' e] & -> & Hin). apply list_elem_of_In, filter_In in Hin as [Hin Hb].
    apply list_elem_of_In, elem_of_map_to_list in Hin.
    apply andb_prop in Hb as [? ?]. by exists e.
  - intros (e & Hl & Hlive & Hm). exists (k, e). split; [done|].
    apply list_elem_of_In, filter_In. split.
    + by apply list_elem_of_In, elem_of_map_to_list.
    + simpl. by rewrite Hlive, Hm.
Qed.

Lemma lookup_delete_all ks (db : gmap string entry) k :
  delete_all ks db !! k = if decide (k ∈ ks) then None else db !! k.
Proof.
  unfold delete_all. destruct (decide _).
  - by apply lookup_foldr_delete.
  - by apply lookup_foldr_delete_not_elem_of.
Qed.

Lemma closed_db_breaker now jt db :
  closed_db now jt db !! breakerKey jt = Some closed_record.
Proof.
  unfold closed_db. simpl. rewrite lookup_delete_all.
  destruct (decide _) as [Hin|_]; [|apply lookup_insert_eq].
  apply elem_of_matching_keys in Hin as (e & _ & _ & Hm).
  by rewrite failurePattern_breakerKey in Hm.
Qed.

Lemma closed_db_other_breaker now jt db jt' :
  jt' ≠ jt → closed_db now jt db !! breakerKey jt' = db !! breakerKey jt'.
Proof.
  intros Hne. unfold closed_db. simpl. rewrite lookup_delete_all.
  destruct (decide _) as [Hin|_].
  - apply elem_of_matching_keys in Hin as (e & _ & _ & Hm).
    by rewrite failurePattern_breakerKey in Hm.
  - rewrite lookup_insert_ne; [done|]. by intros ?%breakerKey_inj.
Qed.

(** For a job type in plain text, no counter of the job type is left. *)
Lemma closed_db_counter now jt db ec :
  Glob.plain jt = true → counter now (closed_db now jt db) jt ec = None.
Proof.
  intros Hp. unfold counter, lookup_live, closed_db. simpl. rewrite lookup_delete_all.
  destruct (decide _) as [Hin|Hnot]; [done|].
  destruct (_ !! failureKey jt ec) as [e|] eqn:E; [|done].
  destruct (live now e) eqn:L; [|done].
  exfalso. apply Hnot, elem_of_matching_keys. exists e.
  split; [done|]. split; [done|]. by apply failurePattern_failureKey.
Qed.

Lemma closed_db_idempotent now jt db :
  closed_db now jt (closed_db now jt db) = closed_db now jt db.
Proof.
  set (db2 := closed_db now jt db).
  assert (<[breakerKey jt := closed_record]> db2 = db2) as E.
  { apply insert_id, closed_db_breaker. }
  unfold closed_db at 1. simpl. rewrite E.
  unfold delete_all. apply foldr_delete_id, Forall_forall.
  intros k Hin. apply elem_of_matching_keys in Hin as (e & Hl & Hlive & Hm).
  subst db2. unfold closed_db in Hl. simpl in Hl. rewrite lookup_delete_all in Hl.
  destruct (decide _) as [|Hnot]; [done|].
  exfalso. apply Hnot, elem_of_matching_keys. by exists e.
Qed.

(** ** C10: reset of the control plane *)

(** C10 (amended: only when a Circuit Record exists).  With a store
    that answers, [resetBreaker] on a job type that has a Circuit Record
    is [closeCircuit]: same result and same world, the record CLOSED and,
    for a job type in plain text, no counter of the job type left.  On a
    job type without a record [resetBreaker] raises NotFound and leaves
    the world as it is. *)
Theorem C10_reset_is_close_when_record_exists jt w :
  faults w = [] →
  (is_Some (lookup_live (clock w) (redis w) (breakerKey jt)) →
     resetBreaker jt w = closeCircuit jt w
     ∧ redis (closeCircuit jt w).1 !! breakerKey jt = Some closed_record
     ∧ (Glob.plain jt = true →
        ∀ ec, counter (clock w) (redis (closeCircuit jt w).1) jt ec = None))
  ∧ (lookup_live (clock w) (redis w) (breakerKey jt) = None →
     resetBreaker jt w
       = (w, Err ("Circuit breaker for jobType '" +:+ jt +:+ "' not found"))).
Proof.
  intros Hf. split.
  - intros [e He]. rewrite closeCircuit_ok by done. simpl.
    split; [|split; [apply closed_db_breaker | intros Hp ec; by apply closed_db_counter]].
    unfold resetBreaker. promise. rewrite EXISTS_ok by done. rewrite He. simpl.
    rewrite SET_ok by done. rewrite KEYS_ok by done. simpl.
    unfold closed_db. simpl.
    destruct (matching_keys _ _ _) as [|k ks] eqn:E; simpl.
    + by destruct w.
    + unfold DEL. rewrite command_ok by done. simpl. by destruct w.
  - intros Hn. unfold resetBreaker. promise. rewrite EXISTS_ok by done. by rewrite Hn.
Qed.

(** Reset of the open circuit of [email]. *)
Lemma C10_witness :
  let w := open_world 1000 2000 in
  resetBreaker "email" w = closeCircuit "email" w
  ∧ redis (closeCircuit "email" w).1 !! breakerKey "email" = Some closed_record.
Proof.
  intros w.
  destruct (C10_reset_is_close_when_record_exists "email" w) as [H _]; [reflexivity|].
  destruct H as (H1 & H2 & _); [by eexists|]. by split.
Defined.

(** No Circuit Record for the job type: the reset raises NotFound and
    writes nothing, whereas [closeCircuit] creates a CLOSED record. *)
Lemma C10_counterexample :
  (resetBreaker "email" world0).2 = Err "Circuit breaker for jobType 'email' not found"
  ∧ redis (resetBreaker "email" world0).1 !! breakerKey "email" = None
  ∧ (closeCircuit "email" world0).2 = Ok tt
  ∧ redis (closeCircuit "email" world0).1 !! breakerKey "email" = Some closed_record
  ∧ resetBreaker "email" world0 ≠ closeCircuit "email" world0.
Proof.
  split; [vm_compute; reflexivity|]. split; [vm_compute; reflexivity|].
  split; [vm_compute; reflexivity|]. split; [vm_compute; reflexivity|].
  intros H. apply (f_equal snd) in H. vm_compute in H. discriminate H.
Qed.

(** ** Frames *)

Section Keeps.

Context (R : relation World) `{!PreOrder R}.

Lemma keeps_ret {A} (a : A) : keeps R (mret a).
Proof. intros w. simpl. reflexivity. Qed.

Lemma keeps_throw {A} msg : keeps R (@throw A msg).
Proof. intros w. simpl. reflexivity. Qed.

Lemma keeps_bind {A B} (m : M A) (k : A → M B) :
  keeps R m → (∀ a, keeps R (k a)) → keeps R (m ≫= k).
Proof.
  intros Hm Hk w. unfold mbind, M_bind, bind. specialize (Hm w).
  destruct (m w) as [w' [a|e]]; simpl in *; [|done].
  etrans; [exact Hm | apply Hk].
Qed.

Lemma keeps_try_catch {A} (m : M A) (h : string → M A) :
  keeps R m → (∀ e, keeps R (h e)) → keeps R (try_catch m h).
Proof.
  intros Hm Hh w. unfold try_catch. specialize (Hm w).
  destruct (m w) as [w' [a|e]]; simpl in *; [done|].
  etrans; [exact Hm | apply Hh].
Qed.

Lemma keeps_command {A} (f : Z → gmap string entry → gmap string entry * result A) :
  (∀ w db fs, R w (with_faults fs (with_redis db w))) → keeps R (command f).
Proof.
  intros H w. unfold command.
  destruct (faults w) as [|[] fs] eqn:E; simpl.
  - destruct (f _ _) as [db r]. simpl.
    replace (with_redis db w) with (with_faults [] (with_redis db w)); [apply H|].
    destruct w; simpl in *. by subst.
  - replace (with_faults fs w) with (with_faults fs (with_redis (redis w) w)); [apply H|].
    by destruct w.
  - destruct (f _ _) as [db r]. simpl.
    replace (with_redis db (with_faults fs w)) with (with_faults fs (with_redis db w));
      [apply H|]. by destruct w.
Qed.

End Keeps.

#[global] Instance same_queues_preorder : PreOrder same_queues.
Proof.
  split; [by intros w|]. intros w1 w2 w3 [? ?] [? ?]. split; congruence.
Qed.

#[global] Instance same_store_preorder : PreOrder same_store.
Proof.
  split; [by intros w|]. intros w1 w2 w3 (? & ? & ?) (? & ? & ?). repeat split; congruence.
Qed.

Lemma command_same_queues {A} (f : Z → gmap string entry → gmap string entry * result A) :
  keeps same_queues (command f).
Proof. apply keeps_command. by intros w db fs. Qed.

Ltac keeps_queues :=
  repeat first
    [ apply command_same_queues
    | apply keeps_ret; try apply _
    | apply keeps_throw; try apply _
    | apply keeps_bind; try apply _; [|intros ?]
    | apply keeps_try_catch; try apply _; [|intros ?]
    | match goal with |- keeps _ (if ?b then _ else _) => destruct b end
    | match goal with |- keeps _ (match ?b with _ => _ end) => destruct b end
    | (intros ?; done) ].

Lemma processJob_same_queues config job exec : keeps same_queues (processJob config job exec).
Proof.
  unfold processJob, getCircuitState, canProbe, closeCircuit, incrementFailure,
    shouldOpenCircuit, openCircuit, GET, SET, KEYS, DEL, INCR, EXPIRE.
  keeps_queues. intros w. unfold executeJobLogic. by destruct exec.
Qed.

Lemma only_faults_same_store w w' : only_faults w w' → same_store w w'.
Proof. intros [-> _]. done. Qed.

Lemma getRoutingDecision_same_queues maxRetries job r :
  keeps same_queues (getRoutingDecision maxRetries job r).
Proof.
  intros w. destruct (getRoutingDecision_quiet maxRetries job r w) as [-> _]. done.
Qed.

(** ** C7: an executor that throws *)

Lemma processJob_rejected config job msg w :
  let p := processJob config job (Rejects msg) w in
  same_store w p.1
  ∧ (∀ w1 cs, getCircuitState (jobType job) w = (w1, Ok cs) → cs ≠ Some OPEN →
       p = (with_executed (executed w ++ [job]) w1, Ok (internalErrorResult msg)))
  ∧ (∀ w1 w2, getCircuitState (jobType job) w = (w1, Ok (Some OPEN)) →
       canProbe config (jobType job) w1 = (w2, Ok true) →
       p = (with_executed (executed w ++ [job]) w2, Ok (internalErrorResult msg))).
Proof.
  unfold processJob, try_catch. promise.
  pose proof (getCircuitState_quiet (jobType job) w) as Q1.
  destruct (getCircuitState (jobType job) w) as [w1 [cs|e]]; simpl in *.
  - destruct (decide (cs = Some OPEN)) as [->|Hcs]; simpl.
    + pose proof (canProbe_quiet config (jobType job) w1) as Q2.
      pose proof (only_faults_trans _ _ _ Q1 Q2) as Q.
      destruct (canProbe config (jobType job) w1) as [w2 [[]|e]] eqn:E2; simpl in *.
      * split; [|split].
        -- apply only_faults_same_store in Q as (? & ? & ?). by destruct w2.
        -- intros ? ? [= <- <-] Hn. by destruct Hn.
        -- intros ? ? [= <-] E. rewrite E2 in E. injection E as <-.
           destruct Q as [-> _]. done.
      * split; [by apply only_faults_same_store|]. split.
        -- intros ? ? [= <- <-] Hn. by destruct Hn.
        -- intros ? ? [= <-] E. rewrite E2 in E. discriminate E.
      * split; [by apply only_faults_same_store|]. split.
        -- intros ? ? [= <- <-] Hn. by destruct Hn.
        -- intros ? ? [= <-] E. rewrite E2 in E. discriminate E.
    + split; [|split].
      * apply only_faults_same_store in Q1 as (? & ? & ?). by destruct w1.
      * intros ? ? [= <- <-] _. destruct Q1 as [-> _]. done.
      * intros ? ? [= <- E]. by destruct Hcs.
  - split; [by apply only_faults_same_store|]. split; intros; discriminate.
Qed.

Lemma processJob_returns config job exec w :
  ∃ res, (processJob config job exec w).2 = Ok res.
Proof.
  unfold processJob, try_catch.
  match goal with |- context [match ?m w with _ => _ end] => destruct (m w) as [w' [a|e]] end;
    simpl; eauto.
Qed.

(** C7 (amended: nothing is recorded).  When the executor throws,
    [processJob] leaves the store and the alerts untouched and returns an
    outcome: no counter moves, no threshold is checked and no circuit
    opens.  Whenever the executor was reached (the circuit did not read
    OPEN, or read OPEN with a probe allowed) that outcome is the failure
    INTERNAL_ERROR carrying the message of the exception, which the
    Routing Decision Maker then routes as it routes any failure: never to
    ack, and to quarantine when the circuit reads OPEN. *)
Theorem C7_executor_exception_is_internal_error_without_failure_record
    config maxRetries job msg w :
  let p := processJob config job (Rejects msg) w in
  (redis p.1 = redis w ∧ alerts p.1 = alerts w)
  ∧ (∃ res, p.2 = Ok res)
  ∧ (∀ w1 cs, getCircuitState (jobType job) w = (w1, Ok cs) → cs ≠ Some OPEN →
       p = (with_executed (executed w ++ [job]) w1, Ok (internalErrorResult msg)))
  ∧ (∀ w1 w2, getCircuitState (jobType job) w = (w1, Ok (Some OPEN)) →
       canProbe config (jobType job) w1 = (w2, Ok true) →
       p = (with_executed (executed w ++ [job]) w2, Ok (internalErrorResult msg)))
  ∧ (∀ w1 w2 cs, getCircuitState (jobType job) w1 = (w2, Ok cs) →
       ∃ d, getRoutingDecision maxRetries job (internalErrorResult msg) w1 = (w2, Ok d)
            ∧ route d ≠ ack
            ∧ (cs = Some OPEN → route d = quarantine)).
Proof.
  intros p. destruct (processJob_rejected config job msg w) as ((H1 & H2 & _) & H3 & H4).
  split; [done|]. split; [apply processJob_returns|]. split; [done|]. split; [done|].
  intros w1 w2 cs Hg.
  by apply getRoutingDecision_failure_route.
Qed.

(** The executor throws on an [email] job while the circuit is closed. *)
Lemma C7_witness :
  let w := almost_tripped in
  let p := processJob defaultConfig (emailJob 0) (Rejects "socket hang up") w in
  (redis p.1 = redis w ∧ alerts p.1 = alerts w)
  ∧ p = (with_executed [emailJob 0] w, Ok (internalErrorResult "socket hang up"))
  ∧ ∃ d, getRoutingDecision 3 (emailJob 0) (internalErrorResult "socket hang up") w = (w, Ok d)
         ∧ route d ≠ ack.
Proof.
  intros w p.
  destruct (C7_executor_exception_is_internal_error_without_failure_record
              defaultConfig 3 (emailJob 0) "socket hang up" w) as (H1 & _ & H3 & _ & H5).
  split; [exact H1|]. split.
  - apply (H3 w (Some CLOSED)); [vm_compute; reflexivity|discriminate].
  - destruct (H5 w w (Some CLOSED)) as (d & Hd & Ha & _); [vm_compute; reflexivity|].
    by exists d.
Defined.

(** The executor throws on a job whose INTERNAL_ERROR counter is one
    below the threshold: nothing is recorded and the circuit stays
    closed, whereas the same failure reported as a typed outcome trips
    it. *)
Lemma C7_counterexample :
  let w := almost_tripped in
  let thrown := (processJob defaultConfig (emailJob 0) (Rejects "socket hang up") w).1 in
  let typed := (processJob defaultConfig (emailJob 0) (fails "INTERNAL_ERROR") w).1 in
  counter 1000 (redis thrown) "email" "INTERNAL_ERROR" = Some (RInt 4)
  ∧ getCircuitState "email" thrown = (thrown, Ok (Some CLOSED))
  ∧ alerts thrown = []
  ∧ counter 1000 (redis typed) "email" "INTERNAL_ERROR" = Some (RInt 5)
  ∧ getCircuitState "email" typed = (typed, Ok (Some OPEN))
  ∧ alerts typed = [("email", "INTERNAL_ERROR", 5)].
Proof.
  intros w thrown typed.
  split; [vm_compute; reflexivity|]. split; [vm_compute; reflexivity|].
  split; [vm_compute; reflexivity|]. split; [vm_compute; reflexivity|].
  split; [vm_compute; reflexivity|]. vm_compute; reflexivity.
Qed.

(** ** C6: the store is unreachable *)





(** With the store down for the whole delivery the message is rejected
    with [requeue = false]. *)
Lemma handleJob_store_down_nacks_without_requeue :
  channel (handleJob defaultConfig 3 (emailJob 0) succeeds (flaky [true; true])).1
  = [Nack false false].
Proof. vm_compute. reflexivity. Qed.

(** ** C3: probing an open circuit *)

Lemma cooldown_elapsed_iff c now t :
  cooldown_elapsed c now t = true ↔ 1000 * c ≤ now - t.
Proof.
  unfold cooldown_elapsed, elapsed. rewrite Qle_bool_iff.
  unfold Qle. simpl. lia.
Qed.








(** ** C8: closing a circuit *)

Lemma closeCircuit_forgets jt w :
  faults w = [] →
  let w' := (closeCircuit jt w).1 in
  (closeCircuit jt w).2 = Ok tt
  ∧ redis w' !! breakerKey jt = Some closed_record
  ∧ getCircuitState jt w' = (w', Ok (Some CLOSED))
  ∧ (Glob.plain jt = true → ∀ ec, counter (clock w) (redis w') jt ec = None).
Proof.
  intros Hf. rewrite closeCircuit_ok by done. simpl.
  split; [done|]. split; [apply closed_db_breaker|].
  split; [|intros; by apply closed_db_counter].
  rewrite getCircuitState_ok by done. simpl. unfold lookup_live.
  by rewrite closed_db_breaker.
Qed.

Lemma closeCircuit_idempotent jt w :
  faults w = [] →
  closeCircuit jt (closeCircuit jt w).1 = closeCircuit jt w.
Proof.
  intros Hf. rewrite (closeCircuit_ok jt w) by done. simpl.
  rewrite closeCircuit_ok by done. simpl.
  rewrite closed_db_idempotent. by destruct w.
Qed.

(** The job type [[a]] reads as a character class in the pattern
    [failure:[a]:*], which then matches the counters of job type [a] and
    none of its own. *)
Lemma failurePattern_bracket :
  Glob.stringmatch (failurePattern "[a]") (failureKey "[a]" "API_TIMEOUT") = false
  ∧ Glob.stringmatch (failurePattern "[a]") (failureKey "a" "API_TIMEOUT") = true.
Proof. split; reflexivity. Qed.

(** C8 (the code at a failing input).  [closeCircuit] on the job type
    [[a]], whose counter for API_TIMEOUT stands at 5: the state reads
    CLOSED afterwards but the counter is still there, and the next
    failure with that code opens the circuit at once. *)
Theorem C8_close_keeps_counters_of_job_type_with_glob_characters :
  let w' := (closeCircuit "[a]" bracket_world).1 in
  let w2 := deliver defaultConfig 3 (mkDelivery bracketJob (fails "API_TIMEOUT") 100001) w' in
  Glob.stringmatch (failurePattern "[a]") (failureKey "[a]" "API_TIMEOUT") = false
  ∧ Glob.stringmatch (failurePattern "[a]") (failureKey "a" "API_TIMEOUT") = true
  ∧ getCircuitState "[a]" w' = (w', Ok (Some CLOSED))
  ∧ counter (clock w') (redis w') "[a]" "API_TIMEOUT" = Some (RInt 5)
  ∧ getCircuitState "[a]" w2 = (w2, Ok (Some OPEN)).
Proof.
  intros w' w2.
  split; [vm_compute; reflexivity|]. split; [vm_compute; reflexivity|].
  split; [vm_compute; reflexivity|]. split; [vm_compute; reflexivity|].
  vm_compute; reflexivity.
Qed.

(** ** C9: the life of a Circuit Record *)

#[global] Instance record_moves_preorder k allowed : PreOrder (record_moves k allowed).
Proof.
  split.
  - intros w. split; [done|by left].
  - intros w1 w2 w3 [C1 H1] [C2 H2]. split; [congruence|].
    destruct H2 as [H2|(e & H2 & Ha)].
    + rewrite H2. exact H1.
    + right. exists e. split; [done|]. by rewrite <- C1.
Qed.

Lemma only_faults_moves k allowed w w' : only_faults w w' → record_moves k allowed w w'.
Proof. intros [-> _]. split; [done|by left]. Qed.

Section Moves.

Variable jt : string.
Variable allowed : Z → entry → Prop.

Let R := record_moves (breakerKey jt) allowed.

Lemma command_untouched {A} (f : Z → gmap string entry → gmap string entry * result A) :
  (∀ now db, (f now db).1 !! breakerKey jt = db !! breakerKey jt) → keeps R (command f).
Proof.
  intros H w. unfold command.
  destruct (faults w) as [|[] fs]; simpl.
  - specialize (H (clock w) (redis w)). destruct (f _ _) as [db r]. simpl in *.
    split; [done|by left].
  - split; [done|by left].
  - specialize (H (clock w) (redis w)). destruct (f _ _) as [db r]. simpl in *.
    split; [done|by left].
Qed.

Lemma getCircuitState_moves jt' : keeps R (getCircuitState jt').
Proof. intros w. apply only_faults_moves, getCircuitState_quiet. Qed.

Lemma canProbe_moves config jt' : keeps R (canProbe config jt').
Proof. intros w. apply only_faults_moves, canProbe_quiet. Qed.

Lemma shouldOpenCircuit_moves config jt' ec : keeps R (shouldOpenCircuit config jt' ec).
Proof.
  unfold shouldOpenCircuit. apply keeps_bind; [apply _| |intros ?; apply keeps_ret; apply _].
  intros w. apply only_faults_moves, GET_quiet.
Qed.

Lemma incrementFailure_moves jt' ec : keeps R (incrementFailure jt' ec).
Proof.
  assert (breakerKey jt ≠ failureKey jt' ec) as Hne by apply breakerKey_ne_failureKey.
  unfold incrementFailure, INCR, EXPIRE.
  apply keeps_bind; [apply _| |intros c].
  - apply command_untouched. intros now db.
    destruct (lookup_live _ _ _) as [[[n|b] ex]|]; simpl; by rewrite ?lookup_insert_ne.
  - apply keeps_bind; [apply _| |intros ?; apply keeps_ret; apply _].
    destruct (c =? 1); [|apply keeps_ret; apply _].
    apply keeps_bind; [apply _| |intros ?; apply keeps_ret; apply _].
    apply command_untouched. intros now db.
    destruct (lookup_live _ _ _) as [e|]; simpl; by rewrite ?lookup_insert_ne.
Qed.

Lemma executeJobLogic_moves job exec : keeps R (executeJobLogic job exec).
Proof. intros w. unfold executeJobLogic. destruct exec; (split; [done|by left]). Qed.

Lemma sendCircuitOpenAlert_moves jt' ec n : keeps R (sendCircuitOpenAlert jt' ec n).
Proof. intros w. split; [done|by left]. Qed.

Lemma SET_moves key v :
  (key = breakerKey jt → ∀ now, allowed now (mkEntry v None)) → keeps R (SET key v).
Proof.
  intros H w. unfold SET, command.
  assert (R w (with_redis (<[key := mkEntry v None]> (redis w)) w)) as Hset.
  { split; [done|]. simpl. destruct (decide (key = breakerKey jt)) as [->|Hne].
    - right. eexists. split; [apply lookup_insert_eq|]. by apply H.
    - left. by rewrite lookup_insert_ne. }
  destruct (faults w) as [|[] fs]; simpl; [done| |].
  - split; [done|by left].
  - destruct Hset as [? Hs]. split; [done|]. exact Hs.
Qed.

Lemma openCircuit_moves jt' :
  (jt' = jt → ∀ now, allowed now (open_record now)) → keeps R (openCircuit jt').
Proof.
  intros H w. unfold openCircuit, Date_now. promise.
  assert (R w (with_redis (<[breakerKey jt' := open_record (clock w)]> (redis w)) w)) as Hset.
  { split; [done|]. simpl. destruct (decide (jt' = jt)) as [->|Hne].
    - right. eexists. split; [apply lookup_insert_eq|]. by apply H.
    - left. rewrite lookup_insert_ne; [done|]. by intros ?%breakerKey_inj. }
  unfold SET, command. destruct (faults w) as [|[] fs]; simpl; [done| |].
  - split; [done|by left].
  - destruct Hset as [? Hs]. split; [done|]. exact Hs.
Qed.

Lemma delete_matching_untouched now jt' db :
  delete_all (matching_keys now (failurePattern jt') db) db !! breakerKey jt
  = db !! breakerKey jt.
Proof.
  rewrite lookup_delete_all. destruct (decide _) as [Hin|]; [|done].
  apply elem_of_matching_keys in Hin as (e & _ & _ & Hm).
  by rewrite failurePattern_breakerKey in Hm.
Qed.

Lemma keeps_bind_yields {A B} (P : A → Prop) (m : M A) (k : A → M B) :
  keeps R m → (∀ w w' a, m w = (w', Ok a) → P a) → (∀ a, P a → keeps R (k a)) →
  keeps R (m ≫= k).
Proof.
  intros Hm Hy Hk w. unfold mbind, M_bind, bind. specialize (Hm w). specialize (Hy w).
  destruct (m w) as [w' [a|e]]; simpl in *; [|done].
  etrans; [exact Hm|]. apply Hk. by eapply Hy.
Qed.

Lemma KEYS_yields pattern w w' ks :
  KEYS pattern w = (w', Ok ks) → ∀ x, x ∈ ks → Glob.stringmatch pattern x = true.
Proof.
  unfold KEYS, command. intros H x Hin.
  destruct (faults w) as [|[] fs]; simpl in H; try discriminate H;
    injection H as _ <-; by apply elem_of_matching_keys in Hin as (? & _ & _ & ?).
Qed.

Lemma DEL_moves jt' ks :
  (∀ x, x ∈ ks → Glob.stringmatch (failurePattern jt') x = true) → keeps R (DEL ks).
Proof.
  intros H. apply command_untouched. intros now db. simpl.
  rewrite lookup_delete_all. destruct (decide _) as [Hin|]; [|done].
  apply H in Hin. by rewrite failurePattern_breakerKey in Hin.
Qed.

Lemma closeCircuit_moves jt' :
  (jt' = jt → ∀ now, allowed now closed_record) → keeps R (closeCircuit jt').
Proof.
  intros H. unfold closeCircuit.
  apply keeps_bind; [apply _| |intros _].
  - apply SET_moves. intros E%breakerKey_inj. by apply H.
  - apply (keeps_bind_yields
             (λ ks, ∀ x, x ∈ ks → Glob.stringmatch (failurePattern jt') x = true)).
    + apply command_untouched. by intros now db.
    + intros w w' ks. apply KEYS_yields.
    + intros ks Hks. destruct (0 <? length ks)%nat; [|apply keeps_ret; apply _].
      apply keeps_bind; [apply _| |intros ?; apply keeps_ret; apply _].
      by eapply DEL_moves.
Qed.

(** What [processJob] does once it has read the circuit state [cs]. *)
Lemma processJob_moves config job exec w :
  (∀ w1 cs, getCircuitState (jobType job) w = (w1, Ok cs) → jobType job = jt →
     match cs with
     | Some OPEN => ∀ now, allowed now closed_record
     | Some CLOSED => ∀ now, allowed now (open_record now)
     | None => True
     end) →
  R w (processJob config job exec w).1.
Proof.
  intros H. unfold processJob, try_catch.
  match goal with |- R w (match ?m w with _ => _ end).1 =>
    assert (R w (m w).1) as Hm; [|destruct (m w) as [w' [a|e]]; exact Hm] end.
  unfold mbind at 1. unfold M_bind at 1. unfold bind at 1.
  pose proof (getCircuitState_moves (jobType job) w) as Hg.
  destruct (getCircuitState (jobType job) w) as [w1 [cs|e]] eqn:E; [|exact Hg].
  specialize (H w1 cs eq_refl). cbv beta iota.
  match goal with |- R w (?k w1).1 =>
    assert (keeps R k) as Hk; [|etrans; [exact Hg|apply Hk]] end.
  clear Hg E w w1.
  apply keeps_bind; [apply _| |intros skip].
  { destruct (decide _); [|apply keeps_ret; apply _].
    apply keeps_bind; [apply _|apply canProbe_moves|intros ?; apply keeps_ret; apply _]. }
  destruct skip; [apply keeps_ret; apply _|].
  apply keeps_bind; [apply _|apply executeJobLogic_moves|intros result].
  apply keeps_bind; [apply _| |intros ?; apply keeps_ret; apply _].
  destruct (success result).
  - destruct (decide (cs = Some OPEN)) as [->|]; [|apply keeps_ret; apply _].
    apply closeCircuit_moves. exact H.
  - simpl. apply keeps_bind; [apply _|apply incrementFailure_moves|intros failureCount].
    apply keeps_bind; [apply _|apply shouldOpenCircuit_moves|intros shouldOpen].
    destruct shouldOpen; simpl; [|apply keeps_ret; apply _].
    destruct (bool_decide_reflect (cs = Some CLOSED)) as [->|]; [|apply keeps_ret; apply _].
    apply keeps_bind; [apply _| |intros ?; apply sendCircuitOpenAlert_moves].
    apply openCircuit_moves. exact H.
Qed.

End Moves.

Lemma getCircuitState_inv jt w w1 cs :
  getCircuitState jt w = (w1, Ok cs) →
  match value <$> lookup_live (clock w) (redis w) (breakerKey jt) with
  | None => cs = Some CLOSED
  | Some (RJson b) => cs = Some (state b)
  | Some (RInt _) => cs = None
  end.
Proof.
  unfold getCircuitState, GET, command. promise.
  destruct (faults w) as [|[] fs]; simpl; try discriminate;
    destruct (value <$> _) as [[n|b]|]; simpl; intros [=]; done.
Qed.

Lemma handleJob_moves jt allowed config maxRetries job exec w :
  record_moves (breakerKey jt) allowed w (processJob config job exec w).1 →
  record_moves (breakerKey jt) allowed w (handleJob config maxRetries job exec w).1.
Proof.
  intros [Hc Hr].
  destruct (handleJob_store config maxRetries job exec w) as (H1 & H2 & _).
  split; [congruence|]. by rewrite H1.
Qed.

Section CircuitRecord.

Variable config : CircuitBreakerConfig.
Variable maxRetries : Z.
Variable jt : string.

(** A record that reads OPEN is left as it is or closed. *)
Lemma handleJob_open_record job exec w e b :
  lookup_live (clock w) (redis w) (breakerKey jt) = Some e →
  value e = RJson b → state b = OPEN →
  let w' := (handleJob config maxRetries job exec w).1 in
  redis w' !! breakerKey jt = Some e ∨ redis w' !! breakerKey jt = Some closed_record.
Proof.
  intros Hl Hv Hs w'.
  assert (redis w !! breakerKey jt = Some e) as Hraw.
  { unfold lookup_live in Hl. destruct (redis w !! breakerKey jt) as [e0|]; [|done].
    by destruct (live _ _); simplify_eq. }
  destruct (handleJob_moves jt (λ _ e', e' = closed_record) config maxRetries job exec w)
    as [_ [H|(e' & H & ->)]].
  - apply processJob_moves. intros w1 cs Hg Hj. rewrite Hj in Hg.
    apply getCircuitState_inv in Hg. rewrite Hl in Hg. simpl in Hg. rewrite Hv in Hg.
    subst cs. by rewrite Hs.
  - left. by rewrite <- Hraw.
  - by right.
Qed.

(** A record that changes to anything but CLOSED has been opened, at the
    instant of the step, by a job of that type that read CLOSED. *)
Lemma handleJob_new_record job exec w e' :
  let w' := (handleJob config maxRetries job exec w).1 in
  redis w' !! breakerKey jt = Some e' →
  redis w !! breakerKey jt ≠ Some e' →
  e' ≠ closed_record →
  e' = open_record (clock w) ∧ jobType job = jt
  ∧ ∃ w1, getCircuitState jt w = (w1, Ok (Some CLOSED)).
Proof.
  intros w' Hnew Hold Hne.
  destruct (decide (jobType job = jt)) as [Hj|Hj].
  - destruct (getCircuitState jt w) as [w1 [[[]|]|err]] eqn:Hg.
    + destruct (handleJob_moves jt (λ now e, e = open_record now) config maxRetries job exec w)
        as [_ [H|(e & H & ->)]].
      * apply processJob_moves. intros w2 cs Hg2 _. rewrite Hj, Hg in Hg2.
        by injection Hg2 as <- <-.
      * fold w' in H. congruence.
      * fold w' in H. rewrite Hnew in H. injection H as ->. eauto.
    + destruct (handleJob_moves jt (λ _ e, e = closed_record) config maxRetries job exec w)
        as [_ [H|(e & H & ->)]].
      * apply processJob_moves. intros w2 cs Hg2 _. rewrite Hj, Hg in Hg2.
        by injection Hg2 as <- <-.
      * fold w' in H. congruence.
      * fold w' in H. congruence.
    + destruct (handleJob_moves jt (λ _ _, False) config maxRetries job exec w)
        as [_ [H|(e & H & [])]].
      * apply processJob_moves. intros w2 cs Hg2 _. rewrite Hj, Hg in Hg2.
        by injection Hg2 as <- <-.
      * fold w' in H. congruence.
    + destruct (handleJob_moves jt (λ _ _, False) config maxRetries job exec w)
        as [_ [H|(e & H & [])]].
      * apply processJob_moves. intros w2 cs Hg2 _. rewrite Hj, Hg in Hg2. discriminate Hg2.
      * fold w' in H. congruence.
  - destruct (handleJob_moves jt (λ _ _, False) config maxRetries job exec w)
      as [_ [H|(e & H & [])]].
    + apply processJob_moves. intros w2 cs _ Hj'. done.
    + fold w' in H. congruence.
Qed.

Lemma deliver_open_record d w t :
  redis w !! breakerKey jt = Some (open_record t) →
  let w' := deliver config maxRetries d w in
  redis w' !! breakerKey jt = Some (open_record t)
  ∨ redis w' !! breakerKey jt = Some closed_record.
Proof.
  intros H. unfold deliver.
  eapply (handleJob_open_record (d_job d) (d_exec d) (with_clock (d_at d) w)); [|done..].
  unfold lookup_live. simpl. by rewrite H.
Qed.

Lemma run_open_record ds w t :
  redis w !! breakerKey jt = Some (open_record t) →
  redis (run config maxRetries ds w) !! breakerKey jt = Some (open_record t)
  ∨ ∃ pre post, ds = pre ++ post
      ∧ redis (run config maxRetries pre w) !! breakerKey jt = Some closed_record.
Proof.
  intros H. induction ds as [|d ds IH] using rev_ind; [by left|].
  rewrite run_snoc. destruct IH as [IH|(pre & post & -> & IH)].
  - destruct (deliver_open_record d _ t IH) as [Hd|Hd]; [by left|].
    right. exists (ds ++ [d]), []. rewrite app_nil_r, run_snoc. done.
  - right. exists pre, (post ++ [d]). by rewrite app_assoc.
Qed.

End CircuitRecord.

(** C9.  Deliveries handled one after the other, for any jobs, any
    executions and any outages of the store.  A Circuit Record that
    reads OPEN is either left exactly as it is, [openedAt] included, or
    replaced by the CLOSED record.  A record that changes to anything
    else has been written by a job of that very type whose read of the
    state before execution was CLOSED, and it is the OPEN record stamped
    with the instant of that delivery.  Hence along any run an OPEN
    record keeps its [openedAt] unless the circuit was CLOSED in between. *)
Theorem C9_open_record_is_never_reopened config maxRetries jt :
  (∀ job exec w e b,
     lookup_live (clock w) (redis w) (breakerKey jt) = Some e →
     value e = RJson b → state b = OPEN →
     let w' := (handleJob config maxRetries job exec w).1 in
     redis w' !! breakerKey jt = Some e ∨ redis w' !! breakerKey jt = Some closed_record)
  ∧ (∀ job exec w e',
       let w' := (handleJob config maxRetries job exec w).1 in
       redis w' !! breakerKey jt = Some e' →
       redis w !! breakerKey jt ≠ Some e' →
       e' ≠ closed_record →
       e' = open_record (clock w) ∧ jobType job = jt
       ∧ ∃ w1, getCircuitState jt w = (w1, Ok (Some CLOSED)))
  ∧ (∀ ds w t,
       redis w !! breakerKey jt = Some (open_record t) →
       redis (run config maxRetries ds w) !! breakerKey jt = Some (open_record t)
       ∨ ∃ pre post, ds = pre ++ post
           ∧ redis (run config maxRetries pre w) !! breakerKey jt = Some closed_record).
Proof.
  split; [apply handleJob_open_record|]. split; [apply handleJob_new_record|].
  apply run_open_record.
Qed.

(** Failing probes against the circuit opened at instant 1000. *)
Lemma C9_witness :
  let w := open_world 1000 100000 in
  let ds := [timeout_at 100000; timeout_at 100001; timeout_at 200000] in
  (let w' := (handleJob defaultConfig 3 (emailJob 0) (fails "API_TIMEOUT") w).1 in
   redis w' !! breakerKey "email" = Some (open_record 1000)
   ∨ redis w' !! breakerKey "email" = Some closed_record)
  ∧ (redis (run defaultConfig 3 ds w) !! breakerKey "email" = Some (open_record 1000)
     ∨ ∃ pre post, ds = pre ++ post
         ∧ redis (run defaultConfig 3 pre w) !! breakerKey "email" = Some closed_record).
Proof.
  intros w ds.
  destruct (C9_open_record_is_never_reopened defaultConfig 3 "email") as (H1 & _ & H3).
  split.
  - apply (H1 (emailJob 0) (fails "API_TIMEOUT") w (open_record 1000)
              (mkBreaker OPEN (Some 1000))); reflexivity.
  - apply (H3 ds w 1000). reflexivity.
Defined.

(** * Further properties of the code *)

(** ** The consumer loop *)

#[global] Instance same_clock_preorder : PreOrder same_clock.
Proof. split; [by intros w|]. intros w1 w2 w3 H1 H2. unfold same_clock in *. congruence. Qed.

Lemma command_same_clock {A} (f : Z → gmap string entry → gmap string entry * result A) :
  keeps same_clock (command f).
Proof. apply keeps_command. by intros w db fs. Qed.

Lemma processJob_same_clock config job exec : keeps same_clock (processJob config job exec).
Proof.
  unfold processJob, getCircuitState, canProbe, closeCircuit, incrementFailure,
    shouldOpenCircuit, openCircuit, GET, SET, KEYS, DEL, INCR, EXPIRE.
  repeat first
    [ apply command_same_clock
    | apply keeps_ret; try apply _
    | apply keeps_throw; try apply _
    | apply keeps_bind; try apply _; [|intros ?]
    | apply keeps_try_catch; try apply _; [|intros ?]
    | match goal with |- keeps _ (if ?b then _ else _) => destruct b end
    | match goal with |- keeps _ (match ?b with _ => _ end) => destruct b end
    | (intros ?; done) ].
  intros w. unfold executeJobLogic. by destruct exec.
Qed.

Lemma getRoutingDecision_retry maxRetries job r w w' d :
  getRoutingDecision maxRetries job r w = (w', Ok d) →
  route d = retry → attemptCount (metadata job) < maxRetries.
Proof.
  unfold getRoutingDecision. promise.
  destruct (success r); [by intros [= <- <-]|].
  destruct (decide _); [by intros [= <- <-]|].
  destruct (getCircuitState _ w) as [w1 [cs|e]]; [|done].
  destruct (bool_decide _ || _) eqn:E; [by intros [= <- <-]|].
  intros _ _. apply orb_false_iff in E as [_ E]. by apply Z.leb_gt in E.
Qed.

(** What one delivery leaves on the channel and in the queues. *)
Lemma handleJob_outcome config maxRetries job exec w :
  let h := handleJob config maxRetries job exec w in
  h.2 = Ok tt
  ∧ ((channel h.1 = channel w ++ [Nack false false] ∧ emitted h.1 = emitted w)
     ∨ (channel h.1 = channel w ++ [Ack]
        ∧ (emitted h.1 = emitted w
           ∨ (emitted h.1 = emitted w ++ [EmitRetry (retryJob job)]
              ∧ attemptCount (metadata job) < maxRetries)
           ∨ ∃ reason, emitted h.1 = emitted w ++ [EmitQuarantine job reason (clock w)]))).
Proof.
  intros h. subst h.
  pose proof (processJob_same_queues config job exec w) as [Qe Qc].
  pose proof (processJob_same_clock config job exec w) as Qt. unfold same_clock in Qt.
  unfold handleJob, try_catch. promise.
  destruct (processJob config job exec w) as [w1 [r|e0]]; simpl in *.
  - pose proof (getRoutingDecision_same_queues maxRetries job r w1) as [Ge Gc].
    pose proof (getRoutingDecision_quiet maxRetries job r w1) as [Gq _].
    pose proof (getRoutingDecision_retry maxRetries job r w1) as Gr.
    destruct (getRoutingDecision maxRetries job r w1) as [w2 [d|e]]; simpl in *.
    + assert (clock w2 = clock w) as Hc by (rewrite Gq; simpl; done).
      destruct (route d) eqn:Hr; simpl; (split; [done|]); right;
        rewrite ?Ge, ?Gc, ?Qe, ?Qc, ?Hc; (split; [done|]).
      * by left.
      * right; left. split; [done|]. by eapply Gr.
      * right; right. by eexists.
    + split; [done|]. left. by rewrite Ge, Gc, Qe, Qc.
  - split; [done|]. left. by rewrite Qe, Qc.
Qed.

Lemma retried_spec config maxRetries j j' :
  retried config maxRetries j j' →
  j' = retryJob j ∧ attemptCount (metadata j) < maxRetries.
Proof.
  intros (exec & w & H).
  assert (emitted (handleJob config maxRetries j exec w).1 = emitted w ++ [EmitRetry j']) as E
    by (by destruct H).
  destruct (handleJob_outcome config maxRetries j exec w)
    as (_ & [[_ He]|(_ & [He|[[He Hlt]|(reason & He)]])]); rewrite He in E.
  - apply (f_equal length) in E. rewrite length_app in E. simpl in E. lia.
  - apply (f_equal length) in E. rewrite length_app in E. simpl in E. lia.
  - apply app_inv_head in E. by injection E as <-.
  - apply app_inv_head in E. discriminate E.
Qed.

(** X1.  Every delivery is answered exactly once on the channel, by an
    ack or by a nack without requeue, and [handleJob] itself never
    throws.  At most one message is emitted, and none with a nack; it is
    the job with its attempt count raised by one, or the job as it came
    with a reason and the instant of the delivery. *)
Theorem X1_handleJob_answers_once config maxRetries job exec w :
  let h := handleJob config maxRetries job exec w in
  h.2 = Ok tt
  ∧ ∃ op es,
      channel h.1 = channel w ++ [op]
      ∧ emitted h.1 = emitted w ++ es
      ∧ (op = Ack ∨ (op = Nack false false ∧ es = []))
      ∧ (length es ≤ 1)%nat
      ∧ ∀ m, m ∈ es →
          m = EmitRetry (retryJob job) ∨ ∃ reason, m = EmitQuarantine job reason (clock w).
Proof.
  intros h.
  destruct (handleJob_outcome config maxRetries job exec w)
    as (Hr & [[Hc He]|(Hc & [He|[[He _]|(reason & He)]])]); fold h in Hr, Hc, He.
  - split; [done|]. exists (Nack false false), [].
    rewrite app_nil_r. repeat split; auto. intros m Hm. by apply elem_of_nil in Hm.
  - split; [done|]. exists Ack, [].
    rewrite app_nil_r. repeat split; auto. intros m Hm. by apply elem_of_nil in Hm.
  - split; [done|]. exists Ack, [EmitRetry (retryJob job)].
    repeat split; auto. intros m Hm%list_elem_of_singleton. by left.
  - split; [done|]. exists Ack, [EmitQuarantine job reason (clock w)].
    repeat split; auto. intros m Hm%list_elem_of_singleton. right. by exists reason.
Qed.

Lemma iter_retryJob n j :
  jobType (Nat.iter n retryJob j) = jobType j
  ∧ payload (Nat.iter n retryJob j) = payload j
  ∧ submittedAt (metadata (Nat.iter n retryJob j)) = submittedAt (metadata j).
Proof.
  induction n as [|n (H1 & H2 & H3)]; [done|].
  rewrite Nat.iter_succ. unfold retryJob at 1 2 3. simpl. done.
Qed.

Lemma retries_iter config maxRetries n j j' :
  retries config maxRetries n j j' → j' = Nat.iter n retryJob j.
Proof.
  induction 1 as [j|n j j' j'' _ -> Hhop]; [done|].
  by apply retried_spec in Hhop as [-> _].
Qed.

(** While the counts stay within the integers that doubles tell apart,
    each hop adds one. *)
Lemma retries_count config maxRetries n j j' :
  retries config maxRetries n j j' →
  - 2 ^ 53 ≤ attemptCount (metadata j) →
  maxRetries ≤ 2 ^ 53 ∨ attemptCount (metadata j) + Z.of_nat n ≤ 2 ^ 53 →
  attemptCount (metadata j') = attemptCount (metadata j) + Z.of_nat n
  ∧ ((0 < n)%nat → attemptCount (metadata j') ≤ maxRetries).
Proof.
  induction 1 as [j|n j j' j'' _ IH Hhop]; intros Hlo Hhi; [split; lia|].
  destruct IH as [IH _]; [done|lia|].
  apply retried_spec in Hhop as [-> Hlt]. simpl. unfold number_add.
  rewrite double_nearest_exact by lia. split; lia.
Qed.

(** A job below [maxRetries] whose execution throws is retried. *)
Lemma retried_intro config maxRetries j :
  attemptCount (metadata j) < maxRetries → retried config maxRetries j (retryJob j).
Proof.
  intros Hlt. exists (Rejects "error"), world0. left.
  assert (getCircuitState (jobType j) world0 = (world0, Ok (Some CLOSED))) as Hg.
  { rewrite getCircuitState_ok by done. unfold lookup_live. simpl. by rewrite lookup_empty. }
  destruct (processJob_rejected config j "error" world0) as (_ & Hp & _).
  specialize (Hp world0 (Some CLOSED) Hg ltac:(discriminate)).
  unfold handleJob, try_catch. promise. rewrite Hp.
  unfold getRoutingDecision. promise. simpl.
  rewrite getCircuitState_ok by done. unfold lookup_live. simpl. rewrite lookup_empty. simpl.
  assert ((maxRetries <=? attemptCount (metadata j)) = false) as -> by (apply Z.leb_gt; lia).
  done.
Qed.

Lemma retryJob_stuck j : attemptCount (metadata j) = 2 ^ 53 → retryJob j = j.
Proof.
  intros H. unfold retryJob. rewrite H, number_add_stuck.
  destruct j as [jt pl [st ac]]. simpl in *. by subst.
Qed.

(** X2.  A retry hop copies the job, sets its attempt count to the
    number [attemptCount + 1], and is taken only below [maxRetries].
    After [n] hops the job type, the payload and the submission stamp
    are those of the start.  As long as the counts stay within 2^53 the
    attempt count has grown by [n], and it does not exceed [maxRetries]
    once a hop was taken.  At 2^53 the sum is 2^53 again: a hop leaves
    the job as it is, and with [maxRetries] above 2^53 such a job is
    retried without end. *)
Theorem X2_retry_hops_are_bounded config maxRetries n j j' :
  retries config maxRetries n j j' →
  jobType j' = jobType j
  ∧ payload j' = payload j
  ∧ submittedAt (metadata j') = submittedAt (metadata j)
  ∧ (- 2 ^ 53 ≤ attemptCount (metadata j) →
     attemptCount (metadata j) + Z.of_nat n ≤ 2 ^ 53 →
     attemptCount (metadata j') = attemptCount (metadata j) + Z.of_nat n
     ∧ ((0 < n)%nat → attemptCount (metadata j') ≤ maxRetries))
  ∧ (attemptCount (metadata j) = 2 ^ 53 →
     j' = j ∧ (2 ^ 53 < maxRetries → ∀ m, retries config maxRetries m j j)).
Proof.
  intros Hr. pose proof (retries_iter _ _ _ _ _ Hr) as ->.
  destruct (iter_retryJob n j) as (H1 & H2 & H3).
  split; [done|]. split; [done|]. split; [done|]. split.
  - intros Hlo Hhi. apply (retries_count config maxRetries n j); [done|done|by right].
  - intros Hs. split.
    + clear Hr H1 H2 H3. induction n as [|n IH]; [done|].
      rewrite Nat.iter_succ, IH. by apply retryJob_stuck.
    + intros Hm m. induction m as [|m IH]; [constructor|].
      apply (retries_more _ _ m j j j); [exact IH|].
      rewrite <- (retryJob_stuck j Hs) at 2. apply retried_intro. lia.
Qed.

Lemma X2_witness :
  attemptCount (metadata (emailJob 1)) = attemptCount (metadata (emailJob 0)) + Z.of_nat 1
  ∧ ((0 < 1)%nat → attemptCount (metadata (emailJob 1)) ≤ 3).
Proof.
  destruct (X2_retry_hops_are_bounded defaultConfig 3 1 (emailJob 0) (emailJob 1))
    as (_ & _ & _ & H4 & _).
  - apply (retries_more _ _ 0 (emailJob 0) (emailJob 0) (emailJob 1)); [constructor|].
    exists (fails "API_TIMEOUT"), world0. left. vm_compute. reflexivity.
  - apply H4; vm_compute; discriminate.
Defined.

(** From a count between 0 and 2^53 each hop adds one until 2^53 is
    reached, where the count stays; the count before the last hop was
    below [maxRetries]. *)
Lemma retries_count_capped config maxRetries n j j' :
  retries config maxRetries n j j' →
  0 ≤ attemptCount (metadata j) ≤ 2 ^ 53 →
  attemptCount (metadata j') = Z.min (attemptCount (metadata j) + Z.of_nat n) (2 ^ 53)
  ∧ ((0 < n)%nat →
     Z.min (attemptCount (metadata j) + Z.of_nat n - 1) (2 ^ 53) < maxRetries).
Proof.
  induction 1 as [j|n j j' j'' _ IH Hhop]; intros Ha; [split; lia|].
  destruct IH as [IH _]; [done|].
  apply retried_spec in Hhop as [-> Hlt]. simpl.
  split; [|intros _; rewrite IH in Hlt; lia].
  destruct (decide (attemptCount (metadata j') = 2 ^ 53)) as [E|E].
  - rewrite E, number_add_stuck. lia.
  - unfold number_add. rewrite double_nearest_exact by lia. lia.
Qed.

(** With [maxRetries] above 2^53 the retry budget is never used up: the
    count of a job stops at 2^53, below [maxRetries], and every further
    hop is taken. *)
Lemma retries_without_end config maxRetries j n :
  0 ≤ attemptCount (metadata j) ≤ 2 ^ 53 → 2 ^ 53 < maxRetries →
  retries config maxRetries n j (Nat.iter n retryJob j).
Proof.
  intros Ha Hm. induction n as [|n IH]; [constructor|].
  rewrite Nat.iter_succ. apply (retries_more _ _ n j _ _ IH).
  apply retried_intro.
  destruct (retries_count_capped _ _ _ _ _ IH Ha) as [-> _]. lia.
Qed.

(** X3.  A job published by the job API starts with attempt count 0.  The
    job that [n] retry hops lead to has the job type and the payload of
    the submission, and its attempt count is [n], or 2^53 from there on,
    where adding one changes nothing; this count does not exceed
    [maxRetries].  So, for [maxRetries] up to 2^53, the job is retried at
    most [maxRetries] times (never, when [maxRetries] is not positive)
    and carries the attempt count [n]. *)
Theorem X3_published_job_is_retried_at_most_maxRetries
    config maxRetries dto nowISO main j n j' :
  (JobsController.createJob dto nowISO main).1 = main ++ [j] →
  retries config maxRetries n j j' →
  attemptCount (metadata j') = Z.min (Z.of_nat n) (2 ^ 53)
  ∧ attemptCount (metadata j') ≤ Z.max 0 maxRetries
  ∧ (maxRetries ≤ 2 ^ 53 →
     Z.of_nat n ≤ Z.max 0 maxRetries ∧ attemptCount (metadata j') = Z.of_nat n)
  ∧ jobType j' = JobsService.jobType dto
  ∧ payload j' = JobsService.payload dto.
Proof.
  unfold JobsController.createJob, JobsService.publishJob. simpl.
  intros E%app_inv_head. injection E as <-. intros Hr.
  destruct (retries_count_capped _ _ _ _ _ Hr) as [Hc Hb]; [simpl; lia|].
  pose proof (retries_iter _ _ _ _ _ Hr) as ->.
  destruct (iter_retryJob n (mkJob (JobsService.jobType dto) (JobsService.payload dto)
                               (mkMetadata nowISO 0))) as (H1 & H2 & _).
  simpl in *. rewrite Hc.
  split; [f_equal; lia|].
  destruct n as [|n]; [repeat split; try done; lia|].
  specialize (Hb ltac:(lia)).
  split; [lia|]. split; [lia|done].
Qed.

Lemma X3_witness :
  Z.of_nat 1 ≤ Z.max 0 3
  ∧ attemptCount (metadata (emailJob 1)) = Z.of_nat 1
  ∧ jobType (emailJob 1) = "email"
  ∧ payload (emailJob 1) = "{to: test@example.com}".
Proof.
  destruct (X3_published_job_is_retried_at_most_maxRetries defaultConfig 3
              (JobsService.mkDto "email" "{to: test@example.com}") "2024-01-01" []
              (emailJob 0) 1 (emailJob 1)) as (_ & _ & H & H1 & H2).
  - reflexivity.
  - apply (retries_more _ _ 0 (emailJob 0) (emailJob 0) (emailJob 1)); [constructor|].
    exists (fails "API_TIMEOUT"), world0. right. vm_compute. reflexivity.
  - destruct H as [H3 H4]; [vm_compute; discriminate|].
    split; [exact H3|]. split; [exact H4|]. split; [exact H1|exact H2].
Defined.

(** ** Jobs that succeed, jobs that are suppressed *)

Lemma deliver_success_closed config maxRetries d r w :
  faults w = [] →
  record_closed (redis w) (jobType (d_job d)) = true →
  d_exec d = Resolves r → success r = true →
  deliver config maxRetries d w
  = mkWorld (redis w) (d_at d) [] (executed w ++ [d_job d]) (alerts w) (emitted w)
            (channel w ++ [Ack]).
Proof.
  intros Hf Hc Hx Hs.
  assert (processJob config (d_job d) (d_exec d) (with_clock (d_at d) w)
          = (with_executed (executed w ++ [d_job d]) (with_clock (d_at d) w), Ok r)) as Hp.
  { unfold processJob, try_catch. promise.
    rewrite getCircuitState_closed by done. simpl. rewrite Hx. simpl. by rewrite Hs. }
  unfold deliver, handleJob, try_catch. promise. rewrite Hp.
  unfold getRoutingDecision. rewrite Hs. simpl. destruct w; simpl in *; by subst.
Qed.

Lemma run_successes config maxRetries ds w :
  faults w = [] →
  Forall (λ d, record_closed (redis w) (jobType (d_job d)) = true
               ∧ ∃ r, d_exec d = Resolves r ∧ success r = true) ds →
  let w' := run config maxRetries ds w in
  faults w' = [] ∧ redis w' = redis w ∧ alerts w' = alerts w ∧ emitted w' = emitted w
  ∧ executed w' = executed w ++ (d_job <$> ds)
  ∧ channel w' = channel w ++ ((λ _, Ack) <$> ds).
Proof.
  intros Hf. induction ds as [|d ds IH] using rev_ind; intros Hall w'.
  - subst w'. simpl. by rewrite !app_nil_r.
  - apply Forall_app in Hall as [Hall Hd]. apply Forall_inv in Hd as (Hc & r & Hx & Hs).
    destruct (IH Hall) as (H0 & H1 & H2 & H3 & H4 & H5).
    subst w'. rewrite run_snoc.
    rewrite (deliver_success_closed _ _ d r) by (by rewrite ?H1). simpl.
    rewrite H1, H2, H3, H4, H5, !fmap_app, !app_assoc. done.
Qed.

(** X4.  While the circuits of their job types are CLOSED, jobs that
    succeed leave the store as it is, whatever their number: no failure
    counter is reset by a success.  Each one is executed and acked, and
    nothing is emitted nor alerted. *)
Theorem X4_successes_leave_the_store_alone config maxRetries ds w :
  faults w = [] →
  Forall (λ d, record_closed (redis w) (jobType (d_job d)) = true
               ∧ ∃ r, d_exec d = Resolves r ∧ success r = true) ds →
  let w' := run config maxRetries ds w in
  (∀ jt ec now, counter now (redis w') jt ec = counter now (redis w) jt ec)
  ∧ redis w' = redis w
  ∧ alerts w' = alerts w
  ∧ emitted w' = emitted w
  ∧ executed w' = executed w ++ (d_job <$> ds)
  ∧ channel w' = channel w ++ ((λ _, Ack) <$> ds).
Proof.
  intros Hf Hall w'.
  destruct (run_successes config maxRetries ds w Hf Hall) as (_ & H1 & H2 & H3 & H4 & H5).
  fold w' in H1, H2, H3, H4, H5.
  split; [intros; by rewrite H1|]. done.
Qed.

Lemma X4_witness :
  let w := almost_tripped in
  let ds := [mkDelivery (emailJob 0) succeeds 2000; mkDelivery (emailJob 1) succeeds 3000] in
  let w' := run defaultConfig 3 ds w in
  counter 3000 (redis w') "email" "INTERNAL_ERROR" = Some (RInt 4)
  ∧ channel w' = [Ack; Ack].
Proof.
  intros w ds w'.
  destruct (X4_successes_leave_the_store_alone defaultConfig 3 ds w)
    as (H1 & _ & _ & _ & _ & H6).
  - reflexivity.
  - repeat constructor; by eexists.
  - split; [rewrite H1; reflexivity | exact H6].
Defined.

Lemma deliver_suppressed config maxRetries d t w :
  faults w = [] →
  redis w !! breakerKey (jobType (d_job d)) = Some (open_record t) →
  d_at d - t < 1000 * cooldownPeriod config →
  deliver config maxRetries d w
  = mkWorld (redis w) (d_at d) [] (executed w) (alerts w)
            (emitted w ++ [EmitQuarantine (d_job d) "Circuit breaker is open" (d_at d)])
            (channel w ++ [Ack]).
Proof.
  intros Hf Hr Ht.
  assert (processJob config (d_job d) (d_exec d) (with_clock (d_at d) w)
          = (with_clock (d_at d) w, Ok circuitOpenResult)) as Hp.
  { unfold processJob, try_catch. promise.
    rewrite (getCircuitState_open _ _ t) by done. simpl.
    rewrite canProbe_ok by done. simpl. unfold lookup_live. rewrite Hr. simpl.
    assert (cooldown_elapsed (cooldownPeriod config) (d_at d) t = false) as ->.
    { apply not_true_iff_false. rewrite cooldown_elapsed_iff. lia. }
    by rewrite andb_false_r. }
  unfold deliver, handleJob, try_catch. promise. rewrite Hp.
  simpl. destruct w; simpl in *; by subst.
Qed.

Lemma run_suppressed config maxRetries jt t ds w :
  faults w = [] →
  redis w !! breakerKey jt = Some (open_record t) →
  Forall (λ d, jobType (d_job d) = jt ∧ d_at d - t < 1000 * cooldownPeriod config) ds →
  let w' := run config maxRetries ds w in
  faults w' = []
  ∧ redis w' = redis w
  ∧ executed w' = executed w
  ∧ alerts w' = alerts w
  ∧ emitted w'
    = emitted w ++ ((λ d, EmitQuarantine (d_job d) "Circuit breaker is open" (d_at d)) <$> ds)
  ∧ channel w' = channel w ++ ((λ _, Ack) <$> ds).
Proof.
  intros Hf Hr. induction ds as [|d ds IH] using rev_ind; intros Hall w'.
  - subst w'. simpl. by rewrite !app_nil_r.
  - apply Forall_app in Hall as [Hall Hd]. apply Forall_inv in Hd as [<- Ht].
    destruct (IH Hall) as (H0 & H1 & H2 & H3 & H4 & H5).
    subst w'. rewrite run_snoc.
    rewrite (deliver_suppressed _ _ d t) by (by rewrite ?H1). simpl.
    rewrite H1, H2, H3, H4, H5, !fmap_app, !app_assoc. done.
Qed.

(** X5.  While the circuit of a job type is OPEN and the cooldown has
    not elapsed, every job of that type is quarantined with reason
    "Circuit breaker is open" and acked; none reaches the executor, and
    the store is left as it is: suppressed jobs count as failures
    nowhere and do not move [openedAt]. *)
Theorem X5_suppressed_jobs_leave_no_trace config maxRetries jt t ds w :
  faults w = [] →
  redis w !! breakerKey jt = Some (open_record t) →
  Forall (λ d, jobType (d_job d) = jt ∧ d_at d - t < 1000 * cooldownPeriod config) ds →
  let w' := run config maxRetries ds w in
  redis w' = redis w
  ∧ executed w' = executed w
  ∧ alerts w' = alerts w
  ∧ emitted w'
    = emitted w ++ ((λ d, EmitQuarantine (d_job d) "Circuit breaker is open" (d_at d)) <$> ds)
  ∧ channel w' = channel w ++ ((λ _, Ack) <$> ds).
Proof.
  intros Hf Hr Hall w'.
  by destruct (run_suppressed config maxRetries jt t ds w Hf Hr Hall) as (_ & H).
Qed.

Lemma X5_witness :
  let w := open_world 1000 2000 in
  let ds := [mkDelivery (emailJob 0) succeeds 3000; mkDelivery (emailJob 2) (fails "API_TIMEOUT") 60999] in
  let w' := run defaultConfig 3 ds w in
  redis w' = redis w ∧ executed w' = [] ∧ channel w' = [Ack; Ack].
Proof.
  intros w ds w'.
  destruct (X5_suppressed_jobs_leave_no_trace defaultConfig 3 "email" 1000 ds w)
    as (H1 & H2 & _ & _ & H5).
  - reflexivity.
  - reflexivity.
  - repeat constructor.
  - split; [exact H1|]. split; [exact H2 | exact H5].
Defined.

(** ** Alerts and the opening of a circuit *)

#[global] Instance store_only_preorder : PreOrder store_only.
Proof.
  split; [by intros w|].
  intros w1 w2 w3 (? & ? & ? & ? & ?) (? & ? & ? & ? & ?). repeat split; congruence.
Qed.

Lemma command_store_only {A} (f : Z → gmap string entry → gmap string entry * result A) :
  keeps store_only (command f).
Proof. apply keeps_command. by intros w db fs. Qed.

(** A command either fails before it reaches the store or runs against it. *)
Lemma command_inv {A} (f : Z → gmap string entry → gmap string entry * result A) w w' r :
  command f w = (w', r) →
  store_only w w'
  ∧ ((redis w' = redis w ∧ r = Err "Redis connection lost")
     ∨ (redis w', r) = f (clock w) (redis w)).
Proof.
  intros H. split.
  - pose proof (command_store_only f w) as Hk. by rewrite H in Hk.
  - unfold command in H. destruct (faults w) as [|[] fs]; simpl in H.
    + right. destruct (f _ _) as [db r']. by injection H as <- <-.
    + left. by injection H as <- <-.
    + right. destruct (f _ _) as [db r']. by injection H as <- <-.
Qed.

Lemma incrementFailure_inv jt ec w w' n :
  incrementFailure jt ec w = (w', Ok n) →
  store_only w w'
  ∧ (∀ k, k ≠ failureKey jt ec → redis w' !! k = redis w !! k)
  ∧ ∃ ex, redis w' !! failureKey jt ec = Some (mkEntry (RInt n) ex)
          ∧ live (clock w) (mkEntry (RInt n) ex) = true.
Proof.
  unfold incrementFailure. promise.
  destruct (INCR _ w) as [w1 [c|e]] eqn:E1; [|discriminate].
  apply command_inv in E1 as [S1 [[_ [=]]|E1]].
  assert ((∀ k, k ≠ failureKey jt ec → redis w1 !! k = redis w !! k)
          ∧ ∃ ex, redis w1 !! failureKey jt ec = Some (mkEntry (RInt c) ex)
                  ∧ live (clock w) (mkEntry (RInt c) ex) = true) as [F1 (ex & L1 & V1)].
  { unfold lookup_live in E1.
    destruct (redis w !! failureKey jt ec) as [[[m|b] ex]|] eqn:El; simpl in E1.
    - destruct (live _ _) eqn:Hl; injection E1 as -> <-.
      + split; [intros k Hk; by rewrite lookup_insert_ne|].
        exists ex. by rewrite lookup_insert_eq.
      + split; [intros k Hk; by rewrite lookup_insert_ne|].
        exists None. by rewrite lookup_insert_eq.
    - destruct (live _ _) eqn:Hl; [discriminate|]. injection E1 as -> <-.
      split; [intros k Hk; by rewrite lookup_insert_ne|].
      exists None. by rewrite lookup_insert_eq.
    - injection E1 as -> <-.
      split; [intros k Hk; by rewrite lookup_insert_ne|].
      exists None. by rewrite lookup_insert_eq. }
  destruct (c =? 1) eqn:Hc.
  - destruct (EXPIRE _ _ w1) as [w2 [b|e]] eqn:E2; [|discriminate].
    intros [= <- <-].
    apply command_inv in E2 as [S2 [[_ [=]]|E2]].
    pose proof S1 as (C1 & _).
    split; [by etrans|].
    unfold lookup_live in E2. rewrite L1, C1, V1 in E2. simpl in E2.
    injection E2 as -> _. split.
    + intros k Hk. rewrite lookup_insert_ne by done. by apply F1.
    + eexists. rewrite lookup_insert_eq. split; [done|].
      unfold live. simpl. apply Z.ltb_lt. lia.
  - intros [= <- <-]. split; [done|]. split; [done|]. by exists ex.
Qed.

Lemma shouldOpenCircuit_inv config jt ec w w' b :
  shouldOpenCircuit config jt ec w = (w', Ok b) →
  store_only w w' ∧ redis w' = redis w
  ∧ b = match counter (clock w) (redis w) jt ec with
        | None => failureThreshold config <=? 0
        | Some (RInt n) => failureThreshold config <=? n
        | Some (RJson _) => false
        end.
Proof.
  unfold shouldOpenCircuit. promise.
  destruct (GET _ w) as [w1 [c|e]] eqn:E1; [|discriminate].
  apply command_inv in E1 as [S1 [[_ [=]]|E1]].
  injection E1 as E1 ->. by intros [= <- <-].
Qed.

Lemma openCircuit_inv jt w w' :
  openCircuit jt w = (w', Ok tt) →
  store_only w w' ∧ redis w' = <[breakerKey jt := open_record (clock w)]> (redis w).
Proof.
  unfold openCircuit, Date_now. promise.
  intros [S1 [[_ [=]]|E1]]%command_inv. by injection E1 as E1.
Qed.

Lemma openCircuit_fails jt w w' e :
  openCircuit jt w = (w', Err e) → store_only w w' ∧ redis w' = redis w.
Proof.
  unfold openCircuit, Date_now. promise.
  intros [S1 [[? _]|[=]]]%command_inv. done.
Qed.

#[global] Instance same_alerts_preorder : PreOrder same_alerts.
Proof. split; [by intros w|]. intros w1 w2 w3 H1 H2. unfold same_alerts in *. congruence. Qed.

Lemma store_only_same_alerts {A} (m : M A) : keeps store_only m → keeps same_alerts m.
Proof. intros H w. by destruct (H w) as (_ & ? & _). Qed.

Lemma command_same_alerts {A} (f : Z → gmap string entry → gmap string entry * result A) :
  keeps same_alerts (command f).
Proof. apply keeps_command. by intros w db fs. Qed.

Ltac keeps_alerts :=
  repeat first
    [ apply command_same_alerts
    | apply keeps_ret; try apply _
    | apply keeps_throw; try apply _
    | apply keeps_bind; try apply _; [|intros ?]
    | apply keeps_try_catch; try apply _; [|intros ?]
    | match goal with |- keeps _ (if ?b then _ else _) => destruct b end
    | match goal with |- keeps _ (match ?b with _ => _ end) => destruct b end
    | (intros ?; done) ].

(** No alert is sent for a job whose read of the state before execution
    was not CLOSED. *)
Lemma processJob_no_alert config job exec w :
  (∀ w1, getCircuitState (jobType job) w ≠ (w1, Ok (Some CLOSED))) →
  alerts (processJob config job exec w).1 = alerts w.
Proof.
  intros H. change (same_alerts w (processJob config job exec w).1).
  unfold processJob, try_catch.
  match goal with |- same_alerts w (match ?m w with _ => _ end).1 =>
    assert (same_alerts w (m w).1) as Hm; [|destruct (m w) as [w' [a|e]]; exact Hm] end.
  unfold mbind at 1. unfold M_bind at 1. unfold bind at 1.
  assert (same_alerts w (getCircuitState (jobType job) w).1) as Hg.
  { destruct (getCircuitState_quiet (jobType job) w) as [-> _]. done. }
  destruct (getCircuitState (jobType job) w) as [w1 [cs|e]] eqn:E; [|exact Hg].
  destruct (decide (cs = Some CLOSED)) as [->|Hcs]; [by destruct (H w1)|]. cbv beta iota.
  match goal with |- same_alerts w (?k w1).1 =>
    assert (keeps same_alerts k) as Hk; [|etrans; [exact Hg|apply Hk]] end.
  clear -Hcs. simpl.
  apply keeps_bind; [apply _| |intros skip].
  { unfold canProbe, GET, Date_now. keeps_alerts. }
  destruct skip; [apply keeps_ret; apply _|].
  apply keeps_bind; [apply _| |intros result].
  { intros w. unfold executeJobLogic. by destruct exec. }
  apply keeps_bind; [apply _| |intros ?; apply keeps_ret; apply _].
  destruct (success result).
  - unfold closeCircuit, SET, KEYS, DEL. keeps_alerts.
  - simpl. apply keeps_bind; [apply _| |intros failureCount].
    { unfold incrementFailure, INCR, EXPIRE. keeps_alerts. }
    apply keeps_bind; [apply _| |intros shouldOpen].
    { unfold shouldOpenCircuit, GET. keeps_alerts. }
    rewrite (bool_decide_eq_false_2 _ Hcs), andb_false_r. apply keeps_ret; apply _.
Qed.

(** What [processJob] does to the alerts and to the record of its job type. *)
Lemma processJob_alert config job exec w :
  let p := processJob config job exec w in
  let jt := jobType job in
  (alerts p.1 = alerts w
   ∧ (redis p.1 !! breakerKey jt = redis w !! breakerKey jt
      ∨ redis p.1 !! breakerKey jt = Some closed_record))
  ∨ ∃ r n ex,
      exec = Resolves r ∧ success r = false ∧ p.2 = Ok r
      ∧ alerts p.1 = alerts w ++ [(jt, recordedCode r, n)]
      ∧ failureThreshold config ≤ n
      ∧ redis p.1 !! failureKey jt (recordedCode r) = Some (mkEntry (RInt n) ex)
      ∧ redis p.1 !! breakerKey jt = Some (open_record (clock w))
      ∧ executed p.1 = executed w ++ [job]
      ∧ ∃ w1, getCircuitState jt w = (w1, Ok (Some CLOSED)).
Proof.
  intros p jt.
  destruct (getCircuitState jt w) as [w1 [[[]|]|e]] eqn:Eg.
  2,3,4: left; split;
    [ apply processJob_no_alert; fold jt; rewrite Eg; congruence
    | assert (record_moves (breakerKey jt) (λ _ e', e' = closed_record) w
                (processJob config job exec w).1) as [_ [H|(e' & H & ->)]];
      [|by left|by right];
      apply processJob_moves; intros w2 cs Hg _; fold jt in Hg; rewrite Eg in Hg;
      by simplify_eq ].
  pose proof (getCircuitState_quiet jt w) as Hq. rewrite Eg in Hq. destruct Hq as [Hq _].
  simpl in Hq.
  assert (redis w1 = redis w ∧ alerts w1 = alerts w ∧ clock w1 = clock w
          ∧ executed w1 = executed w) as (R1 & A1 & C1 & X1) by (by rewrite Hq).
  clear Hq. subst p. unfold processJob, try_catch. promise. fold jt. rewrite Eg. simpl.
  destruct exec as [r|msg]; simpl; [|left; by rewrite A1, R1; auto].
  destruct (success r) eqn:Hs; simpl; [left; by rewrite A1, R1; auto|].
  set (w2 := with_executed _ w1).
  destruct (incrementFailure jt (recordedCode r) w2) as [w3 [n|e]] eqn:Ei.
  - apply incrementFailure_inv in Ei as ((C3 & A3 & X3 & _) & F3 & ex & L3 & V3).
    simpl in C3, A3, X3, V3.
    assert (redis w3 !! breakerKey jt = redis w !! breakerKey jt) as B3.
    { rewrite F3 by apply breakerKey_ne_failureKey. simpl. by rewrite R1. }
    destruct (shouldOpenCircuit config jt (recordedCode r) w3) as [w4 [b|e]] eqn:Es.
    + apply shouldOpenCircuit_inv in Es as ((C4 & A4 & X4 & _) & R4 & Hb).
      unfold counter, lookup_live in Hb. rewrite L3, C3, V3 in Hb. simpl in Hb.
      destruct b; simpl; [|left; rewrite A4, A3, R4, B3, A1; auto].
      destruct (openCircuit jt w4) as [w5 [[]|e]] eqn:Eo; simpl.
      * apply openCircuit_inv in Eo as ((C5 & A5 & X5 & _) & R5).
        right. exists r, n, ex. split; [done|]. split; [done|]. split; [done|].
        split; [by rewrite A5, A4, A3, A1|]. split; [by apply Z.leb_le|].
        split; [rewrite R5, lookup_insert_ne, R4 by apply breakerKey_ne_failureKey; done|].
        split; [rewrite R5, lookup_insert_eq, C4, C3, C1; done|].
        split; [by rewrite X5, X4, X3, X1|]. by exists w1.
      * apply openCircuit_fails in Eo as ((_ & A5 & _) & R5).
        left. rewrite A5, A4, A3, R5, R4, B3, A1. auto.
    + left.
      assert (keeps store_only (shouldOpenCircuit config jt (recordedCode r))) as K.
      { unfold shouldOpenCircuit, GET.
        apply keeps_bind; [apply _|apply command_store_only|intros ?; apply keeps_ret; apply _]. }
      pose proof (K w3) as (_ & A4 & _).
      pose proof (shouldOpenCircuit_moves jt (λ _ _, False) config jt (recordedCode r) w3)
        as [_ [B4|(? & _ & [])]].
      rewrite Es in A4, B4. simpl in *. rewrite A4, A3, B4, B3, A1. auto.
  - left.
    assert (keeps store_only (incrementFailure jt (recordedCode r))) as K.
    { unfold incrementFailure, INCR, EXPIRE.
      repeat first
        [ apply command_store_only
        | apply keeps_ret; try apply _
        | apply keeps_bind; try apply _; [|intros ?]
        | match goal with |- keeps _ (if ?b then _ else _) => destruct b end ]. }
    pose proof (K w2) as (_ & A3 & _).
    pose proof (incrementFailure_moves jt (λ _ _, False) jt (recordedCode r) w2)
      as [_ [B3|(? & _ & [])]].
    rewrite Ei in A3, B3. simpl in *. rewrite A3, B3, A1, R1. auto.
Qed.

(** X6.  One delivery sends at most one alert, and sends it exactly when
    it opens the circuit, whatever the outages of the store.  Either the
    alerts are as before and the record of the job type is as before or
    has been closed; or the execution failed with a read of CLOSED before
    it, the record is now OPEN and stamped with the instant of the
    delivery, and the one new alert names the job type, the recorded
    error code and the count that the counter now holds, which is at or
    above the threshold. *)
Theorem X6_alert_exactly_when_circuit_opens config maxRetries job exec w :
  let w' := (handleJob config maxRetries job exec w).1 in
  let jt := jobType job in
  (alerts w' = alerts w
   ∧ (redis w' !! breakerKey jt = redis w !! breakerKey jt
      ∨ redis w' !! breakerKey jt = Some closed_record))
  ∨ ∃ r n ex,
      exec = Resolves r ∧ success r = false
      ∧ alerts w' = alerts w ++ [(jt, recordedCode r, n)]
      ∧ failureThreshold config ≤ n
      ∧ redis w' !! failureKey jt (recordedCode r) = Some (mkEntry (RInt n) ex)
      ∧ redis w' !! breakerKey jt = Some (open_record (clock w))
      ∧ executed w' = executed w ++ [job]
      ∧ ∃ w1, getCircuitState jt w = (w1, Ok (Some CLOSED)).
Proof.
  intros w' jt.
  destruct (handleJob_store config maxRetries job exec w) as (Hr & _ & Hx & Ha & _).
  fold w' in Hr, Hx, Ha. rewrite Hr, Ha, Hx.
  destruct (processJob_alert config job exec w)
    as [H|(r & n & ex & H1 & H2 & _ & H4 & H5 & H6 & H7 & H8 & H9)]; [by left|].
  right. exists r, n, ex. done.
Qed.

(** ** The time-to-live of a counter *)

(** X7.  [incrementFailure] sets the time-to-live in a second command.
    When the store answers the [INCR] that creates a counter and fails
    the [EXPIRE] that follows, the call throws and the counter stays at 1
    without expiry: it is live at every later instant, and no later
    increment gives it an expiry, since only a count of 1 does. *)
Theorem X7_failed_expire_leaves_a_counter_without_expiry jt ec w fs :
  lookup_live (clock w) (redis w) (failureKey jt ec) = None →
  faults w = false :: true :: fs →
  let w' := (incrementFailure jt ec w).1 in
  (incrementFailure jt ec w).2 = Err "Redis connection lost"
  ∧ redis w' !! failureKey jt ec = Some (mkEntry (RInt 1) None)
  ∧ (∀ later, counter later (redis w') jt ec = Some (RInt 1))
  ∧ ∀ w2 n, redis w2 !! failureKey jt ec = Some (mkEntry (RInt n) None) → 1 ≤ n →
      ∃ m, n ≤ m ≤ n + 1
           ∧ redis (incrementFailure jt ec w2).1 !! failureKey jt ec
             = Some (mkEntry (RInt m) None).
Proof.
  intros Hl Hf w'.
  assert (incrementFailure jt ec w
          = (with_faults fs (with_redis (<[failureKey jt ec := mkEntry (RInt 1) None]> (redis w)) w),
             Err "Redis connection lost")) as E.
  { unfold incrementFailure, INCR, EXPIRE, command. promise. rewrite Hf. simpl.
    rewrite Hl. simpl. done. }
  subst w'. rewrite E. simpl.
  assert (∀ v, <[failureKey jt ec := v]> (redis w) !! failureKey jt ec = Some v) as Hi
    by (intros v; apply lookup_insert_eq).
  split; [done|]. split; [apply Hi|].
  split; [intros later; unfold counter, lookup_live; by rewrite Hi|].
  intros w2 n H2 Hn.
  assert ((n + 1 =? 1) = false) as N by (apply Z.eqb_neq; lia).
  unfold incrementFailure. promise.
  destruct (INCR _ w2) as [w1 [c|e]] eqn:E1;
    apply command_inv in E1 as [_ [[R1 [=]]|E1]];
    try (unfold lookup_live in E1; rewrite H2 in E1; simpl in E1; injection E1 as R1 Hc).
  - subst c. rewrite N. simpl. exists (n + 1). split; [lia|].
    rewrite R1. apply lookup_insert_eq.
  - simpl. exists n. split; [lia|]. by rewrite R1.
  - discriminate Hc.
Qed.

Lemma X7_witness :
  let w := flaky [false; true] in
  let w' := (incrementFailure "email" "API_TIMEOUT" w).1 in
  (incrementFailure "email" "API_TIMEOUT" w).2 = Err "Redis connection lost"
  ∧ redis w' !! failureKey "email" "API_TIMEOUT" = Some (mkEntry (RInt 1) None).
Proof.
  intros w w'.
  destruct (X7_failed_expire_leaves_a_counter_without_expiry "email" "API_TIMEOUT" w [])
    as (H1 & H2 & _); [reflexivity|reflexivity|].
  split; [exact H1 | exact H2].
Defined.

(** ** The keys that a close deletes *)

Lemma matches_prefix p s :
  Glob.matches ((Glob.Lit <$> list_ascii_of_string p) ++ [Glob.Star]) s = starts_with p s.
Proof.
  revert s. induction p as [|c p IH]; intros s.
  - simpl. destruct s; [done|]. simpl. by rewrite GlobFacts.matches_star_any.
  - destruct s as [|a s]; [done|]. simpl. rewrite IH. by rewrite Ascii.eqb_sym.
Qed.

(** A pattern made of plain text and a final star matches the keys that
    start with the text. *)
Lemma stringmatch_prefix p k :
  Glob.plain p = true → Glob.stringmatch (p +:+ "*") k = starts_with p k.
Proof.
  intros Hp. unfold Glob.stringmatch.
  rewrite (GlobFacts.tokens_plain_app p "*" Hp). simpl. apply matches_prefix.
Qed.

Lemma plain_app p q : Glob.plain p = true → Glob.plain q = true → Glob.plain (p +:+ q) = true.
Proof.
  intros Hp Hq. induction p as [|c p IH]; simpl in *; [done|].
  apply andb_prop in Hp as [-> Hp]. simpl. by apply IH.
Qed.

Lemma app_assoc_string (a b c : string) : (a +:+ b) +:+ c = a +:+ (b +:+ c).
Proof.
  induction a as [|x a IH]; [done|].
  change (String x ((a +:+ b) +:+ c) = String x (a +:+ (b +:+ c))). by f_equal.
Qed.

Lemma length_app_string (a b : string) :
  String.length (a +:+ b) = (String.length a + String.length b)%nat.
Proof.
  induction a as [|x a IH]; [done|].
  change (S (String.length (a +:+ b)) = S (String.length a + String.length b)). by f_equal.
Qed.

Lemma failurePattern_prefix jt k :
  Glob.plain jt = true →
  Glob.stringmatch (failurePattern jt) k = starts_with (failurePrefix jt) k.
Proof.
  intros Hp. unfold failurePattern, failurePrefix.
  replace ("failure:" +:+ jt +:+ ":*") with (("failure:" +:+ jt +:+ ":") +:+ "*").
  - apply stringmatch_prefix. change (Glob.plain (jt +:+ ":") = true).
    by apply plain_app.
  - by rewrite !app_assoc_string.
Qed.

Lemma starts_with_app p s : starts_with p (p +:+ s) = true.
Proof. induction p as [|c p IH]; simpl; [done|]. by rewrite Ascii.eqb_refl. Qed.

Lemma starts_with_app_inv p q s : starts_with (p +:+ q) (p +:+ s) = starts_with q s.
Proof. induction p as [|c p IH]; simpl; [done|]. by rewrite Ascii.eqb_refl. Qed.

Lemma closed_db_lookup now jt db k :
  Glob.plain jt = true →
  closed_db now jt db !! k
  = if decide (k = breakerKey jt) then Some closed_record
    else match db !! k with
         | Some e => if live now e && starts_with (failurePrefix jt) k then None else Some e
         | None => None
         end.
Proof.
  intros Hp. destruct (decide (k = breakerKey jt)) as [->|Hk]; [apply closed_db_breaker|].
  unfold closed_db. cbv zeta. rewrite lookup_delete_all.
  destruct (decide _) as [Hin|Hnot].
  - apply elem_of_matching_keys in Hin as (e & Hl & Hlive & Hm).
    rewrite lookup_insert_ne in Hl by done. rewrite Hl, Hlive.
    rewrite failurePattern_prefix in Hm by done. by rewrite Hm.
  - rewrite lookup_insert_ne by done.
    destruct (db !! k) as [e|] eqn:E; [|done].
    destruct (live now e && starts_with (failurePrefix jt) k) eqn:B; [|done].
    exfalso. apply Hnot, elem_of_matching_keys. exists e.
    apply andb_prop in B as [B1 B2].
    rewrite lookup_insert_ne by done. rewrite failurePattern_prefix by done. done.
Qed.

(** X8.  What [closeCircuit] leaves in the store, for a job type in plain
    text and a store that answers: under the breaker key of the job type
    the CLOSED record; no live key that starts with [failure:<jobType>:];
    every other key as it was. *)
Theorem X8_close_deletes_the_keys_under_the_failure_prefix jt w k :
  faults w = [] → Glob.plain jt = true →
  redis (closeCircuit jt w).1 !! k
  = if decide (k = breakerKey jt) then Some closed_record
    else match redis w !! k with
         | Some e =>
             if live (clock w) e && starts_with (failurePrefix jt) k then None else Some e
         | None => None
         end.
Proof.
  intros Hf Hp.
  assert (redis (closeCircuit jt w).1 = closed_db (clock w) jt (redis w)) as ->
    by (by rewrite closeCircuit_ok).
  by apply closed_db_lookup.
Qed.

Lemma X8_witness :
  redis (closeCircuit "email" almost_tripped).1 !! failureKey "email" "INTERNAL_ERROR" = None.
Proof.
  rewrite (X8_close_deletes_the_keys_under_the_failure_prefix "email" almost_tripped
             (failureKey "email" "INTERNAL_ERROR")); reflexivity.
Defined.

Lemma failureKey_alias jt x ec :
  failureKey (jt +:+ ":" +:+ x) ec = failureKey jt (x +:+ ":" +:+ ec).
Proof.
  unfold failureKey. by rewrite !app_assoc_string.
Qed.

Lemma failurePrefix_failureKey jt ec : starts_with (failurePrefix jt) (failureKey jt ec) = true.
Proof.
  unfold failurePrefix, failureKey.
  replace ("failure:" +:+ jt +:+ ":" +:+ ec) with (("failure:" +:+ jt +:+ ":") +:+ ec).
  - apply starts_with_app.
  - by rewrite !app_assoc_string.
Qed.

(** X9.  The counter keys do not separate job types that contain a
    colon: the counter of job type [a:x] for the code [ec] is the counter
    of job type [a] for the code [x:ec].  A failure of the one counts for
    the other, and closing the circuit of [a] deletes the counters of
    [a:x], whose own circuit record it leaves alone. *)
Theorem X9_job_types_with_a_colon_share_counters jt x ec w :
  faults w = [] → Glob.plain jt = true →
  incrementFailure (jt +:+ ":" +:+ x) ec = incrementFailure jt (x +:+ ":" +:+ ec)
  ∧ (∀ config, shouldOpenCircuit config (jt +:+ ":" +:+ x) ec
               = shouldOpenCircuit config jt (x +:+ ":" +:+ ec))
  ∧ counter (clock w) (redis (closeCircuit jt w).1) (jt +:+ ":" +:+ x) ec = None
  ∧ redis (closeCircuit jt w).1 !! breakerKey (jt +:+ ":" +:+ x)
    = redis w !! breakerKey (jt +:+ ":" +:+ x).
Proof.
  intros Hf Hp.
  split; [unfold incrementFailure; by rewrite failureKey_alias|].
  split; [intros config; unfold shouldOpenCircuit; by rewrite failureKey_alias|].
  assert (redis (closeCircuit jt w).1 = closed_db (clock w) jt (redis w)) as ->
    by (by rewrite closeCircuit_ok).
  split.
  - unfold counter. rewrite failureKey_alias.
    exact (closed_db_counter (clock w) jt (redis w) (x +:+ ":" +:+ ec) Hp).
  - apply closed_db_other_breaker. intros H.
    assert (String.length (jt +:+ ":" +:+ x) = String.length jt) as L by (by rewrite H).
    rewrite !length_app_string in L. simpl in L. lia.
Qed.

Lemma X9_witness :
  let w := mkWorld {[ failureKey "email:bulk" "API_TIMEOUT" := mkEntry (RInt 4) (Some hour_ms) ]}
             1000 [] [] [] [] [] in
  counter 1000 (redis w) "email:bulk" "API_TIMEOUT" = Some (RInt 4)
  ∧ counter 1000 (redis (closeCircuit "email" w).1) "email:bulk" "API_TIMEOUT" = None.
Proof.
  intros w. split; [reflexivity|].
  destruct (X9_job_types_with_a_colon_share_counters "email" "bulk" "API_TIMEOUT" w)
    as (_ & _ & H & _); [reflexivity|reflexivity|exact H].
Defined.

Lemma starts_with_colon_free a b s :
  colon_free a = true → colon_free b = true →
  starts_with (a +:+ ":") (b +:+ ":" +:+ s) = true → a = b.
Proof.
  revert b. induction a as [|c a IH]; intros b Ha Hb H.
  - destruct b as [|d b]; [done|].
    change (Ascii.eqb ":" d && true = true) in H.
    simpl in Hb. apply andb_prop in Hb as [Hd _]. apply andb_prop in H as [H _].
    rewrite Ascii.eqb_sym in H. by rewrite H in Hd.
  - simpl in Ha. apply andb_prop in Ha as [Hc Ha].
    destruct b as [|d b].
    + change (Ascii.eqb c ":" && starts_with (a +:+ ":") s = true) in H.
      apply andb_prop in H as [H _]. by rewrite H in Hc.
    + change (Ascii.eqb c d && starts_with (a +:+ ":") (b +:+ ":" +:+ s) = true) in H.
      simpl in Hb. apply andb_prop in Hb as [_ Hb].
      apply andb_prop in H as [H1 H2]. apply Ascii.eqb_eq in H1 as ->.
      f_equal. by apply IH.
Qed.

(** X10.  Job types without a colon are kept apart: closing the circuit
    of one leaves every counter and the circuit record of any other as
    they were. *)
Theorem X10_close_leaves_other_job_types_alone jt jt' ec w :
  faults w = [] → Glob.plain jt = true →
  colon_free jt = true → colon_free jt' = true → jt' ≠ jt →
  redis (closeCircuit jt w).1 !! failureKey jt' ec = redis w !! failureKey jt' ec
  ∧ redis (closeCircuit jt w).1 !! breakerKey jt' = redis w !! breakerKey jt'.
Proof.
  intros Hf Hp Hc Hc' Hne.
  assert (redis (closeCircuit jt w).1 = closed_db (clock w) jt (redis w)) as ->
    by (by rewrite closeCircuit_ok).
  split; [|by apply closed_db_other_breaker].
  rewrite closed_db_lookup by done.
  destruct (decide _) as [E|_]; [by destruct (breakerKey_ne_failureKey jt jt' ec)|].
  destruct (redis w !! failureKey jt' ec) as [e|]; [|done].
  destruct (starts_with (failurePrefix jt) (failureKey jt' ec)) eqn:S;
    [|by rewrite andb_false_r].
  exfalso. apply Hne. symmetry.
  apply (starts_with_colon_free jt jt' ec); [done..|].
  unfold failurePrefix, failureKey in S.
  by rewrite (starts_with_app_inv "failure:") in S.
Qed.

Lemma X10_witness :
  redis (closeCircuit "sms" almost_tripped).1 !! failureKey "email" "INTERNAL_ERROR"
  = Some (mkEntry (RInt 4) (Some hour_ms)).
Proof.
  destruct (X10_close_leaves_other_job_types_alone "sms" "email" "INTERNAL_ERROR" almost_tripped)
    as [H _]; [reflexivity|reflexivity|reflexivity|reflexivity|discriminate|].
  rewrite H. reflexivity.
Defined.

(** ** What is written is what is read *)

(** X11.  With a store that answers, whatever was under the breaker key
    before: a circuit that [openCircuit] has opened reads OPEN at every
    later instant, the record having no expiry, and [canProbe] answers
    from the instant of the opening, with one exception: opened at
    instant 0, the circuit never admits a probe.  A circuit that
    [closeCircuit] has closed reads CLOSED and admits no probe. *)
Theorem X11_written_record_is_read_back config jt w t :
  faults w = [] →
  let wo := with_clock t (openCircuit jt w).1 in
  let wc := with_clock t (closeCircuit jt w).1 in
  getCircuitState jt wo = (wo, Ok (Some OPEN))
  ∧ canProbe config jt wo
    = (wo, Ok (negb (clock w =? 0) && (1000 * cooldownPeriod config <=? t - clock w)))
  ∧ getCircuitState jt wc = (wc, Ok (Some CLOSED))
  ∧ canProbe config jt wc = (wc, Ok false).
Proof.
  intros Hf wo wc.
  assert (openCircuit jt w
          = (with_redis (<[breakerKey jt := open_record (clock w)]> (redis w)) w, Ok tt)) as Eo.
  { unfold openCircuit, Date_now. promise. by rewrite SET_ok. }
  assert (lookup_live t (redis wo) (breakerKey jt) = Some (open_record (clock w))) as Lo.
  { subst wo. rewrite Eo. unfold lookup_live. simpl. by rewrite lookup_insert_eq. }
  assert (lookup_live t (redis wc) (breakerKey jt) = Some closed_record) as Lc.
  { subst wc. rewrite closeCircuit_ok by done. unfold lookup_live. simpl.
    by rewrite closed_db_breaker. }
  assert (faults wo = []) as Fo by (subst wo; by rewrite Eo).
  assert (faults wc = []) as Fc by (subst wc; by rewrite closeCircuit_ok).
  assert (clock wo = t) as Co by done.
  assert (clock wc = t) as Cc by done.
  rewrite !getCircuitState_ok, !canProbe_ok by done.
  rewrite Co, Cc, Lo, Lc. simpl.
  split; [done|]. split; [|done]. do 2 f_equal. f_equal.
  apply eq_true_iff_eq. rewrite cooldown_elapsed_iff, Z.leb_le. lia.
Qed.

Lemma X11_witness :
  let wo := with_clock 61000 (openCircuit "email" world0).1 in
  canProbe defaultConfig "email" wo = (wo, Ok false).
Proof.
  intros wo.
  destruct (X11_written_record_is_read_back defaultConfig "email" world0 61000)
    as (_ & H & _); [reflexivity|exact H].
Defined.

(** ** Jobs that leave the queues *)

Lemma closeCircuit_inv jt w w' :
  closeCircuit jt w = (w', Ok tt) →
  store_only w w' ∧ redis w' !! breakerKey jt = Some closed_record.
Proof.
  unfold closeCircuit. promise.
  destruct (SET _ _ w) as [w1 [[]|e]] eqn:E1; [|discriminate].
  apply command_inv in E1 as [S1 [[_ [=]]|E1]]. injection E1 as R1.
  destruct (KEYS _ w1) as [w2 [keys|e]] eqn:E2; [|discriminate].
  apply command_inv in E2 as [S2 [[_ [=]]|E2]]. injection E2 as R2 K2.
  assert (redis w2 !! breakerKey jt = Some closed_record) as H2.
  { rewrite R2, R1. apply lookup_insert_eq. }
  destruct (0 <? length keys)%nat.
  - destruct (DEL keys w2) as [w3 [n|e]] eqn:E3; [|discriminate].
    intros [= <-]. apply command_inv in E3 as [S3 [[_ [=]]|E3]]. injection E3 as R3 _.
    split; [by etrans; [|etrans]|].
    rewrite R3, lookup_delete_all. destruct (decide _) as [Hin|_]; [|done].
    rewrite K2 in Hin. apply elem_of_matching_keys in Hin as (e & _ & _ & Hm).
    by rewrite failurePattern_breakerKey in Hm.
  - intros [= <-]. split; [by etrans|done].
Qed.

(** An outcome of success comes from the executor.  A record under the
    breaker key afterwards is CLOSED, and a number under it was there
    before the job. *)
Lemma processJob_success config job exec w w' r :
  processJob config job exec w = (w', Ok r) → success r = true →
  exec = Resolves r
  ∧ executed w' = executed w ++ [job]
  ∧ alerts w' = alerts w
  ∧ clock w' = clock w
  ∧ (∀ e b, lookup_live (clock w) (redis w') (breakerKey (jobType job)) = Some e →
            value e = RJson b → state b = CLOSED)
  ∧ (∀ e n, lookup_live (clock w) (redis w') (breakerKey (jobType job)) = Some e →
            value e = RInt n →
            lookup_live (clock w) (redis w) (breakerKey (jobType job)) = Some e).
Proof.
  unfold processJob, try_catch. promise.
  pose proof (getCircuitState_quiet (jobType job) w) as Q1.
  destruct (getCircuitState (jobType job) w) as [w1 [cs|e0]] eqn:Eg; simpl in *;
    [|by intros [= <- <-] [=]].
  pose proof (getCircuitState_inv _ _ _ _ Eg) as Hcs.
  destruct Q1 as [Q1 _].
  assert (redis w1 = redis w ∧ alerts w1 = alerts w ∧ clock w1 = clock w
          ∧ executed w1 = executed w) as (R1 & A1 & C1 & X1) by (by rewrite Q1).
  destruct (decide (cs = Some OPEN)) as [->|Hopen]; simpl.
  - pose proof (canProbe_quiet config (jobType job) w1) as [Q2 _].
    destruct (canProbe config (jobType job) w1) as [w2 [probe|e]]; simpl in *;
      [|by intros [= <- <-] [=]].
    assert (alerts w2 = alerts w ∧ clock w2 = clock w ∧ executed w2 = executed w)
      as (A2 & C2 & X2) by (by rewrite Q2).
    destruct probe; simpl; [|by intros [= <- <-] [=]].
    destruct exec as [r0|msg]; simpl; [|by intros [= <- <-] [=]].
    destruct (success r0) eqn:Hs; simpl.
    + destruct (closeCircuit _ _) as [w3 [[]|e]] eqn:Ec; simpl; [|by intros [= <- <-] [=]].
      apply closeCircuit_inv in Ec as ((C3 & A3 & X3 & _) & R3). simpl in *.
      intros [= <- <-] _. rewrite A3, C3, X3, A2, C2, X2.
      split; [done|]. split; [done|]. split; [done|]. split; [done|].
      split; intros e b Hl Hv; unfold lookup_live in Hl; rewrite R3 in Hl; simpl in Hl;
        injection Hl as <-; simpl in Hv; [by injection Hv as <-|done].
    + intros H Hr. exfalso.
      destruct (incrementFailure _ _ _) as [w3 [n|e]]; [|by injection H as <- <-].
      destruct (shouldOpenCircuit _ _ _ _) as [w4 [b|e]]; [|by injection H as <- <-].
      rewrite andb_false_r in H. injection H as <- <-. congruence.
  - destruct exec as [r0|msg]; simpl; [|by intros [= <- <-] [=]].
    destruct (success r0) eqn:Hs; simpl.
    + intros [= <- <-] _. simpl. rewrite R1, A1, C1, X1.
      split; [done|]. split; [done|]. split; [done|]. split; [done|].
      split; [|done].
      intros e b Hl Hv. rewrite Hl in Hcs. simpl in Hcs. rewrite Hv in Hcs.
      destruct (state b); congruence.
    + intros H Hr. exfalso.
      destruct (incrementFailure _ _ _) as [w3 [n|e]]; [|by injection H as <- <-].
      destruct (shouldOpenCircuit _ _ _ _) as [w4 [b|e]]; [|by injection H as <- <-].
      destruct (b && _).
      * destruct (openCircuit _ _) as [w5 [[]|e]]; simpl in H; injection H as <- <-;
          simpl in Hr; congruence.
      * injection H as <- <-. congruence.
Qed.

Lemma getRoutingDecision_ack maxRetries job r w w' d :
  getRoutingDecision maxRetries job r w = (w', Ok d) → route d = ack →
  success r = true ∧ w' = w.
Proof.
  unfold getRoutingDecision. promise.
  destruct (success r); [by intros [= <- <-]|].
  destruct (decide _); [by intros [= <- <-]|].
  destruct (getCircuitState _ w) as [w1 [cs|e]]; [|done].
  destruct (bool_decide _ || _); by intros [= <- <-].
Qed.

Lemma app_singleton_ne {A} (l : list A) x : l ++ [x] ≠ l.
Proof. intros H. apply (f_equal length) in H. rewrite length_app in H. simpl in H. lia. Qed.

(** A number under the breaker key does not stop the worker: the state
    read from it is undefined, which is neither OPEN nor CLOSED, so the
    job is executed, and a success is acked with the number left in
    place. *)
Lemma handleJob_number_record_acks :
  let w := with_redis (<[breakerKey "email" := mkEntry (RInt 5) None]> ∅) world0 in
  let h := (handleJob defaultConfig 3 (emailJob 0) succeeds w).1 in
  channel h = [Ack] ∧ emitted h = [] ∧ executed h = [emailJob 0]
  ∧ redis h = redis w
  ∧ getCircuitState "email" h = (h, Ok None)
  ∧ canProbe defaultConfig "email" h = (h, Ok false).
Proof. vm_compute. repeat split; reflexivity. Qed.

(** X12.  A delivery that is acked with nothing emitted, so that its job
    is in no queue any more, was executed and succeeded.  No alert was
    sent for it, and a read of the circuit of its job type afterwards
    does not answer OPEN: a probe that succeeded has closed it.  The read
    answers CLOSED, except when a number lay under the breaker key before
    the delivery: the number is still there, and the state read from it
    is undefined. *)
Theorem X12_job_leaves_the_queues_only_after_success config maxRetries job exec w :
  let h := (handleJob config maxRetries job exec w).1 in
  channel h = channel w ++ [Ack] → emitted h = emitted w →
  ∃ r, exec = Resolves r ∧ success r = true
       ∧ executed h = executed w ++ [job]
       ∧ alerts h = alerts w
       ∧ ∀ w1 cs, getCircuitState (jobType job) h = (w1, Ok cs) →
           cs = Some CLOSED
           ∨ (cs = None
              ∧ ∃ n ex, lookup_live (clock w) (redis w) (breakerKey (jobType job))
                        = Some (mkEntry (RInt n) ex)
                      ∧ lookup_live (clock w) (redis h) (breakerKey (jobType job))
                        = Some (mkEntry (RInt n) ex)).
Proof.
  intros h. subst h.
  pose proof (processJob_same_queues config job exec w) as [Qe Qc].
  pose proof (processJob_success config job exec w) as Hp.
  pose proof (handleJob_store config maxRetries job exec w) as (Hr & _).
  rewrite Hr. clear Hr.
  unfold handleJob, try_catch. promise.
  destruct (processJob config job exec w) as [w1 [r|e0]]; simpl in *.
  - pose proof (getRoutingDecision_same_queues maxRetries job r w1) as [Ge Gc].
    pose proof (getRoutingDecision_ack maxRetries job r w1) as Ga.
    destruct (getRoutingDecision maxRetries job r w1) as [w2 [d|e]]; simpl in *.
    + destruct (route d) eqn:Hr; simpl.
      * intros _ _. destruct (Ga w2 d eq_refl Hr) as [Hs ->].
        destruct (Hp w1 r eq_refl Hs) as (H1 & H2 & H3 & H4 & H5 & H6).
        exists r. split; [done|]. split; [done|]. split; [done|]. split; [done|].
        intros w3 cs Hg. apply getCircuitState_inv in Hg. simpl in Hg. rewrite H4 in Hg.
        destruct (lookup_live (clock w) (redis w1) (breakerKey (jobType job)))
          as [[[n|b] ex]|] eqn:Hl; simpl in Hg.
        -- right. split; [done|]. exists n, ex. split; [|done]. by eapply H6.
        -- left. subst cs. f_equal. by eapply H5.
        -- by left.
      * intros _ He. rewrite Ge, Qe in He. by apply app_singleton_ne in He.
      * intros _ He. rewrite Ge, Qe in He. by apply app_singleton_ne in He.
    + intros Hc. rewrite Gc, Qc in Hc. by apply app_inv_head in Hc.
  - intros Hc. rewrite Qc in Hc. by apply app_inv_head in Hc.
Qed.

Lemma X12_witness :
  let w := open_world 1000 61000 in
  let h := (handleJob defaultConfig 3 (emailJob 0) succeeds w).1 in
  ∃ r, succeeds = Resolves r ∧ success r = true
       ∧ ∀ w1 cs, getCircuitState "email" h = (w1, Ok cs) →
           cs = Some CLOSED
           ∨ (cs = None
              ∧ ∃ n ex, lookup_live (clock w) (redis w) (breakerKey "email")
                        = Some (mkEntry (RInt n) ex)
                      ∧ lookup_live (clock w) (redis h) (breakerKey "email")
                        = Some (mkEntry (RInt n) ex)).
Proof.
  intros w h.
  destruct (X12_job_leaves_the_queues_only_after_success defaultConfig 3 (emailJob 0) succeeds
              (open_world 1000 61000)) as (r & H1 & H2 & _ & _ & H5).
  - vm_compute. reflexivity.
  - vm_compute. reflexivity.
  - exists r. split; [exact H1|]. split; [exact H2|exact H5].
Defined.

(** ** Listing the circuit breakers *)

Lemma replace_first_unfold p r s :
  replace_first p r s
  = if starts_with p s then r +:+ drop_chars (String.length p) s
    else match s with
         | EmptyString => EmptyString
         | String c s' => String c (replace_first p r s')
         end.
Proof. by destruct s. Qed.

Lemma drop_chars_app p s : drop_chars (String.length p) (p +:+ s) = s.
Proof. induction p as [|c p IH]; [by destruct s|exact IH]. Qed.

Lemma starts_with_inv p k : starts_with p k = true → k = p +:+ drop_chars (String.length p) k.
Proof.
  revert k. induction p as [|c p IH]; intros k H; [by destruct k|].
  destruct k as [|a k]; [done|]. simpl in H. apply andb_prop in H as [H1 H2].
  apply Ascii.eqb_eq in H1 as ->.
  change (String a k = String a (p +:+ drop_chars (String.length p) k)).
  f_equal. by apply IH.
Qed.

Lemma replace_first_breakerKey jt : replace_first "breaker:" EmptyString (breakerKey jt) = jt.
Proof.
  rewrite replace_first_unfold. unfold breakerKey. rewrite starts_with_app.
  by rewrite drop_chars_app.
Qed.

(** The keys that [KEYS breaker:*] answers are the live breaker keys. *)
Lemma elem_of_breaker_keys now db k :
  k ∈ matching_keys now "breaker:*" db
  ↔ ∃ jt e, k = breakerKey jt ∧ lookup_live now db k = Some e.
Proof.
  rewrite elem_of_matching_keys.
  change "breaker:*" with ("breaker:" +:+ "*"). split.
  - intros (e & Hl & Hlive & Hm). rewrite stringmatch_prefix in Hm by done.
    exists (drop_chars (String.length "breaker:") k), e.
    split; [by apply starts_with_inv|]. unfold lookup_live. by rewrite Hl, Hlive.
  - intros (jt & e & -> & Hl). unfold lookup_live in Hl.
    destruct (db !! breakerKey jt) as [e'|] eqn:E; [|done].
    destruct (live now e') eqn:L; [|done]. injection Hl as ->.
    exists e. split; [done|]. split; [done|].
    rewrite stringmatch_prefix by done. apply starts_with_app.
Qed.

Lemma NoDup_matching_keys now pattern db : NoDup (matching_keys now pattern db).
Proof.
  unfold matching_keys.
  assert (∀ l : list (string * entry), NoDup l.*1 →
            NoDup (List.filter
                     (λ ke : string * entry, live now ke.2 && Glob.stringmatch pattern ke.1) l).*1)
    as H.
  { induction l as [|[k e] l IH]; [done|]. simpl. intros [Hk Hl]%NoDup_cons.
    destruct (_ && _); [|by apply IH]. simpl. apply NoDup_cons. split; [|by apply IH].
    intros Hin. apply Hk. apply list_elem_of_fmap in Hin as ([k' e'] & -> & Hin).
    apply list_elem_of_In, filter_In in Hin as [Hin _].
    apply list_elem_of_fmap. exists (k', e'). split; [done|]. by apply list_elem_of_In. }
  apply H, NoDup_fst_map_to_list.
Qed.

Lemma collect_ok cooldownPeriod keys acc w :
  faults w = [] →
  (∀ k, k ∈ keys → is_Some (lookup_live (clock w) (redis w) k)) →
  ∃ infos,
    BreakersService.collect cooldownPeriod keys acc w = (w, Ok (acc ++ infos))
    ∧ Forall2 (λ k i, ∃ e, lookup_live (clock w) (redis w) k = Some e
                           ∧ i = info_of cooldownPeriod (clock w) k (value e)) keys infos.
Proof.
  intros Hf. revert acc. induction keys as [|k keys IH]; intros acc Hk.
  - exists []. simpl. rewrite app_nil_r. by split.
  - destruct (Hk k) as [e Hl]; [by left|].
    destruct (IH (acc ++ [info_of cooldownPeriod (clock w) k (value e)])) as (infos & E & F).
    { intros k' Hin. apply Hk. by right. }
    exists (info_of cooldownPeriod (clock w) k (value e) :: infos). split.
    + cbn [BreakersService.collect]. promise. rewrite GET_ok by done. rewrite Hl.
      cbn [fmap option_fmap option_map].
      rewrite <- app_assoc in E. cbn [app] in E.
      destruct (value e) as [n|[[] [t|]]]; try exact E.
      unfold info_of in E |- *. cbn [state openedAt truthy] in E |- *.
      destruct (negb (t =? 0)); exact E.
    + constructor; [|done]. by exists e.
Qed.

Lemma info_of_jobType cooldownPeriod now jt v :
  BreakersService.jobType (info_of cooldownPeriod now (breakerKey jt) v) = jt.
Proof. unfold info_of. destruct v; apply replace_first_breakerKey. Qed.

Lemma breaker_keys_jobTypes now db :
  NoDup (replace_first "breaker:" EmptyString <$> matching_keys now "breaker:*" db).
Proof.
  apply NoDup_fmap_2_strong; [|apply NoDup_matching_keys].
  intros k1 k2 (jt1 & e1 & -> & _)%elem_of_breaker_keys (jt2 & e2 & -> & _)%elem_of_breaker_keys.
  rewrite !replace_first_breakerKey. by intros ->.
Qed.

(** X13.  The listing of the control plane, for a store that answers.
    It names each job type with a live circuit record once, and no
    other.  An entry made from a record shows the state that the
    worker's [getCircuitState] reads at that instant, and its
    [cooldownElapsed], present exactly for an OPEN record with a non-zero
    [openedAt], is the answer of the worker's [canProbe] under the same
    cooldown period; an entry made from a value that is no record has
    neither state nor [openedAt], and the worker reads an undefined state
    from that value and allows no probe.  The controller adds the length
    as [count]. *)
Theorem X13_listing_agrees_with_the_worker config w :
  faults w = [] →
  ∃ infos,
    BreakersService.getAllBreakers (cooldownPeriod config) w = (w, Ok infos)
    ∧ BreakersController.getBreakers (cooldownPeriod config) w
      = (w, Ok (BreakersController.mkListing (length infos) infos))
    ∧ NoDup (BreakersService.jobType <$> infos)
    ∧ (∀ jt, (∃ i, i ∈ infos ∧ BreakersService.jobType i = jt)
             ↔ is_Some (lookup_live (clock w) (redis w) (breakerKey jt)))
    ∧ ∀ i, i ∈ infos →
        ∃ e, lookup_live (clock w) (redis w) (breakerKey (BreakersService.jobType i)) = Some e
             ∧ match value e with
               | RJson b =>
                   BreakersService.state i = Some (state b)
                   ∧ BreakersService.openedAt i = openedAt b
                   ∧ getCircuitState (BreakersService.jobType i) w = (w, Ok (Some (state b)))
                   ∧ canProbe config (BreakersService.jobType i) w
                     = (w, Ok (default false (BreakersService.cooldownElapsed i)))
                   ∧ (is_Some (BreakersService.cooldownElapsed i)
                      ↔ state b = OPEN ∧ truthy (openedAt b) = true)
               | RInt _ =>
                   BreakersService.state i = None
                   ∧ BreakersService.openedAt i = None
                   ∧ BreakersService.cooldownElapsed i = None
                   ∧ getCircuitState (BreakersService.jobType i) w = (w, Ok None)
                   ∧ canProbe config (BreakersService.jobType i) w = (w, Ok false)
               end.
Proof.
  intros Hf.
  set (keys := matching_keys (clock w) "breaker:*" (redis w)).
  destruct (collect_ok (cooldownPeriod config) keys [] w Hf) as (infos & E & F).
  { intros k (jt & e & -> & Hl)%elem_of_breaker_keys. by exists e. }
  simpl in E.
  assert (BreakersService.getAllBreakers (cooldownPeriod config) w = (w, Ok infos)) as G.
  { unfold BreakersService.getAllBreakers. promise. rewrite KEYS_ok by done. exact E. }
  assert (BreakersService.jobType <$> infos
          = replace_first "breaker:" EmptyString <$> keys) as J.
  { clear -F. induction F as [|k i keys infos (e & _ & ->) _ IH]; [done|].
    rewrite !fmap_cons. f_equal; [|done]. unfold info_of. by destruct (value e). }
  exists infos. split; [done|]. split.
  { unfold BreakersController.getBreakers. promise. by rewrite G. }
  split; [rewrite J; apply breaker_keys_jobTypes|]. split.
  - intros jt. split.
    + intros (i & Hi & <-).
      apply list_elem_of_lookup in Hi as [n Hn].
      destruct (Forall2_lookup_r _ _ _ _ _ F Hn) as (k & Hk & e & Hl & ->).
      apply list_elem_of_lookup_2, elem_of_breaker_keys in Hk as (jt & e' & -> & _).
      rewrite info_of_jobType. by exists e.
    + intros [e He].
      assert (breakerKey jt ∈ keys) as Hin by (apply elem_of_breaker_keys; by exists jt, e).
      apply list_elem_of_lookup in Hin as [n Hn].
      destruct (Forall2_lookup_l _ _ _ _ _ F Hn) as (i & Hi & e' & _ & ->).
      exists (info_of (cooldownPeriod config) (clock w) (breakerKey jt) (value e')).
      split; [by eapply list_elem_of_lookup_2|]. apply info_of_jobType.
  - intros i Hi. apply list_elem_of_lookup in Hi as [n Hn].
    destruct (Forall2_lookup_r _ _ _ _ _ F Hn) as (k & Hk & e & Hl & ->).
    apply list_elem_of_lookup_2, elem_of_breaker_keys in Hk as (jt & e' & -> & _).
    rewrite info_of_jobType. exists e. split; [done|].
    rewrite getCircuitState_ok, canProbe_ok by done. rewrite Hl.
    cbn [fmap option_fmap option_map]. unfold info_of.
    destruct (value e) as [n'|[[] [t|]]]; simpl; [done|..].
    all: split; [done|]; split; [done|]; split; [done|].
    + split; [done|]. split; [by intros [? [=]]|by intros [[=] _]].
    + split; [done|]. split; [by intros [? [=]]|by intros [[=] _]].
    + destruct (negb (t =? 0)); simpl.
      * split; [done|]. split; [done|]. intros _. by eexists.
      * split; [done|]. split; [by intros [? [=]]|by intros [_ [=]]].
    + split; [done|]. split; [by intros [? [=]]|by intros [_ [=]]].
Qed.

Lemma X13_witness :
  let w := open_world 1000 61000 in
  ∃ infos,
    BreakersService.getAllBreakers 60 w = (w, Ok infos)
    ∧ (∃ i, i ∈ infos ∧ BreakersService.jobType i = "email").
Proof.
  intros w.
  destruct (X13_listing_agrees_with_the_worker defaultConfig w) as (infos & G & _ & _ & H & _).
  - reflexivity.
  - exists infos. split; [exact G|]. apply H. by eexists.
Defined.

Lemma collectBreakers_ok keys acc w :
  faults w = [] →
  (∀ k, k ∈ keys → ∃ jt, k = breakerKey jt) →
  ∃ m,
    collectBreakers keys acc w = (w, Ok m)
    ∧ ∀ jt, m !! jt
            = match value <$> lookup_live (clock w) (redis w) (breakerKey jt) with
              | Some v => if decide (jt ≠ "__proto__" ∧ breakerKey jt ∈ keys)
                          then Some v else acc !! jt
              | None => acc !! jt
              end.
Proof.
  intros Hf. revert acc. induction keys as [|k keys IH]; intros acc Hk.
  - exists acc. split; [done|]. intros jt. destruct (value <$> _); [|done].
    rewrite decide_False; [done|]. intros [_ H]. by apply elem_of_nil in H.
  - destruct (Hk k) as [jt0 ->]; [by left|].
    assert (∀ k', k' ∈ keys → ∃ jt, k' = breakerKey jt) as Hk'
      by (intros k' Hin; apply Hk; by right).
    assert (∀ jt, jt ≠ jt0 → breakerKey jt ∈ breakerKey jt0 :: keys ↔ breakerKey jt ∈ keys)
      as Hi.
    { intros jt Hne. rewrite elem_of_cons. split; [|by right].
      intros [H%breakerKey_inj|H]; done. }
    cbn [collectBreakers]. promise. rewrite GET_ok by done.
    destruct (lookup_live (clock w) (redis w) (breakerKey jt0)) as [e|] eqn:Hl;
      cbn [fmap option_fmap option_map].
    + rewrite replace_first_breakerKey.
      set (acc' := if decide (jt0 = "__proto__") then acc else <[jt0 := value e]> acc).
      destruct (IH acc' Hk') as (m & E & Hm). exists m. split; [exact E|].
      intros jt. rewrite Hm. destruct (decide (jt = jt0)) as [->|Hne].
      * rewrite Hl. cbn [fmap option_fmap option_map].
        subst acc'. destruct (decide (jt0 = "__proto__")) as [Hp|Hp].
        -- rewrite !decide_False; [done| |]; by intros [? _].
        -- assert (breakerKey jt0 ∈ breakerKey jt0 :: keys) by (by left).
           rewrite (decide_True (P := _ ∧ _ ∈ _ :: _)) by done.
           case_decide; [done|]. by rewrite lookup_insert_eq.
      * assert (acc' !! jt = acc !! jt) as Ha.
        { subst acc'. destruct (decide _); [done|]. by rewrite lookup_insert_ne. }
        rewrite Ha. destruct (value <$> _) as [v|]; [|done].
        destruct (decide (jt ≠ "__proto__" ∧ breakerKey jt ∈ keys)) as [H|H].
        -- rewrite decide_True; [done|]. destruct H. split; [done|]. by apply Hi.
        -- rewrite decide_False; [done|]. intros [? Hin]. apply H. split; [done|].
           by apply Hi.
    + destruct (IH acc Hk') as (m & E & Hm). exists m. split; [exact E|].
      intros jt. rewrite Hm. destruct (decide (jt = jt0)) as [->|Hne].
      * rewrite Hl. done.
      * destruct (value <$> _) as [v|]; [|done].
        destruct (decide (jt ≠ "__proto__" ∧ breakerKey jt ∈ keys)) as [H|H].
        -- rewrite decide_True; [done|]. destruct H. split; [done|]. by apply Hi.
        -- rewrite decide_False; [done|]. intros [? Hin]. apply H. split; [done|].
           by apply Hi.
Qed.

(** X14.  [getAllBreakers] of the worker returns an object keyed by job
    type.  With a store that answers, the object has, under each job
    type, the value that is live under its breaker key; except that it
    never has a property [__proto__] of its own: the circuit of a job
    type of that name is not listed, while the worker reads it like any
    other. *)
Theorem X14_worker_listing_omits_proto w :
  faults w = [] →
  ∃ m,
    getAllBreakers w = (w, Ok m)
    ∧ m !! "__proto__" = None
    ∧ ∀ jt, jt ≠ "__proto__" →
        m !! jt = value <$> lookup_live (clock w) (redis w) (breakerKey jt).
Proof.
  intros Hf.
  destruct (collectBreakers_ok (matching_keys (clock w) "breaker:*" (redis w)) ∅ w Hf)
    as (m & E & Hm).
  { intros k (jt & e & -> & Hl)%elem_of_breaker_keys. by exists jt. }
  exists m. split; [|split].
  - unfold getAllBreakers. promise. by rewrite KEYS_ok.
  - rewrite Hm. destruct (value <$> _); [|done]. rewrite decide_False; [done|].
    by intros [? _].
  - intros jt Hne. rewrite Hm.
    destruct (lookup_live (clock w) (redis w) (breakerKey jt)) as [e|] eqn:Hl; [|done].
    cbn [fmap option_fmap option_map]. rewrite decide_True; [done|].
    split; [done|]. apply elem_of_breaker_keys. by exists jt, e.
Qed.

Lemma X14_witness :
  let w := mkWorld {[ breakerKey "__proto__" := open_record 1000 ]} 2000 [] [] [] [] [] in
  getCircuitState "__proto__" w = (w, Ok (Some OPEN))
  ∧ ∃ m, getAllBreakers w = (w, Ok m) ∧ m !! "__proto__" = None.
Proof.
  intros w. split; [vm_compute; reflexivity|].
  destruct (X14_worker_listing_omits_proto w) as (m & G & H & _).
  - reflexivity.
  - exists m. split; [exact G|exact H].
Defined.

Lemma resetBreaker_ok jt w :
  faults w = [] →
  is_Some (lookup_live (clock w) (redis w) (breakerKey jt)) →
  resetBreaker jt w = (with_redis (closed_db (clock w) jt (redis w)) w, Ok tt).
Proof.
  intros Hf [e He]. unfold resetBreaker. promise.
  rewrite EXISTS_ok by done. rewrite He. simpl.
  rewrite SET_ok by done. rewrite KEYS_ok by done. simpl.
  unfold closed_db. simpl.
  destruct (matching_keys _ _ _) as [|k ks] eqn:E; simpl.
  - by destruct w.
  - unfold DEL. rewrite command_ok by done. simpl. by destruct w.
Qed.

(** X15.  A reset through the control plane shows in its listing.  For a
    job type with a circuit record, POST /breakers/:jobType/reset
    answers with the message of success, and the listing that follows
    has the job type as CLOSED, without [openedAt] and without
    [cooldownElapsed]; without a record the request raises NotFound and
    changes nothing. *)
Theorem X15_reset_shows_in_the_listing cooldownPeriod jt w :
  faults w = [] →
  (is_Some (lookup_live (clock w) (redis w) (breakerKey jt)) →
   ∃ w' infos,
     BreakersController.resetBreaker jt w
     = (w', Ok (BreakersController.mkResetResponse
                  ("Circuit breaker for '" +:+ jt +:+ "' has been reset") jt))
     ∧ BreakersService.getAllBreakers cooldownPeriod w' = (w', Ok infos)
     ∧ BreakersService.mkInfo jt (Some CLOSED) None None ∈ infos)
  ∧ (lookup_live (clock w) (redis w) (breakerKey jt) = None →
     BreakersController.resetBreaker jt w
     = (w, Err ("Circuit breaker for jobType '" +:+ jt +:+ "' not found"))).
Proof.
  intros Hf. split.
  - intros Hs. set (w' := with_redis (closed_db (clock w) jt (redis w)) w).
    assert (lookup_live (clock w') (redis w') (breakerKey jt) = Some closed_record) as Hl.
    { unfold lookup_live. subst w'. cbn [redis with_redis]. by rewrite closed_db_breaker. }
    set (keys := matching_keys (clock w') "breaker:*" (redis w')).
    destruct (collect_ok cooldownPeriod keys [] w') as (infos & E & F); [done| |].
    { intros k (jt' & e & -> & He)%elem_of_breaker_keys. by exists e. }
    exists w', infos. split; [|split].
    + unfold BreakersController.resetBreaker. promise. by rewrite resetBreaker_ok.
    + unfold BreakersService.getAllBreakers. promise. rewrite KEYS_ok by done. exact E.
    + assert (breakerKey jt ∈ keys) as Hin by (apply elem_of_breaker_keys; by eexists _, _).
      apply list_elem_of_lookup in Hin as [n Hn].
      destruct (Forall2_lookup_l _ _ _ _ _ F Hn) as (i & Hi & e' & Hl' & ->).
      rewrite Hl in Hl'. injection Hl' as <-.
      apply list_elem_of_lookup_2 in Hi.
      replace (BreakersService.mkInfo jt (Some CLOSED) None None)
        with (info_of cooldownPeriod (clock w') (breakerKey jt) (value closed_record));
        [done|].
      unfold info_of. cbn [value closed_record]. by rewrite replace_first_breakerKey.
  - intros Hn. unfold BreakersController.resetBreaker, resetBreaker. promise.
    rewrite EXISTS_ok by done. by rewrite Hn.
Qed.

Lemma X15_witness :
  let w := open_world 1000 2000 in
  ∃ w' infos,
    BreakersService.getAllBreakers 60 w' = (w', Ok infos)
    ∧ BreakersService.mkInfo "email" (Some CLOSED) None None ∈ infos.
Proof.
  intros w.
  destruct (X15_reset_shows_in_the_listing 60 "email" w) as [H _]; [reflexivity|].
  destruct H as (w' & infos & _ & G & Hin); [by eexists|].
  exists w', infos. split; [exact G|exact Hin].
Defined.

(** ** Reads *)

#[global] Instance only_faults_preorder : PreOrder only_faults.
Proof. split; [exact only_faults_refl|exact only_faults_trans]. Qed.

Lemma GET_reads key : keeps only_faults (GET key).
Proof. intros w. apply GET_quiet. Qed.

Lemma KEYS_reads pattern : keeps only_faults (KEYS pattern).
Proof. intros w. by apply command_read. Qed.

Lemma Date_now_reads : keeps only_faults Date_now.
Proof. intros w. apply only_faults_refl. Qed.

Lemma collectBreakers_reads keys acc : keeps only_faults (collectBreakers keys acc).
Proof.
  revert acc. induction keys as [|k keys IH]; intros acc; [apply keeps_ret; apply _|].
  cbn [collectBreakers]. apply keeps_bind; [apply _|apply GET_reads|].
  intros [v|]; apply IH.
Qed.

Lemma collect_reads cooldownPeriod keys acc :
  keeps only_faults (BreakersService.collect cooldownPeriod keys acc).
Proof.
  revert acc. induction keys as [|k keys IH]; intros acc; [apply keeps_ret; apply _|].
  cbn [BreakersService.collect]. apply keeps_bind; [apply _|apply GET_reads|].
  intros [[n|[st opened]]|]; [apply IH| |apply IH].
  apply keeps_bind; [apply _| |intros ?; apply IH].
  destruct st, opened as [t|]; try (apply keeps_ret; apply _).
  destruct (truthy _); [|apply keeps_ret; apply _].
  apply keeps_bind; [apply _|apply Date_now_reads|intros ?; apply keeps_ret; apply _].
Qed.

(** X16.  The reads never write.  Whatever the store holds and whatever
    its outages, reading the state of a circuit, asking for a probe,
    checking the threshold, deciding the route and listing the circuit
    breakers leave the store, the queues, the alerts and the record of
    executions as they were. *)
Theorem X16_reads_never_write config maxRetries cooldown jt ec job r w :
  only_faults w (getCircuitState jt w).1
  ∧ only_faults w (canProbe config jt w).1
  ∧ only_faults w (shouldOpenCircuit config jt ec w).1
  ∧ only_faults w (getRoutingDecision maxRetries job r w).1
  ∧ only_faults w (getAllBreakers w).1
  ∧ only_faults w (BreakersService.getAllBreakers cooldown w).1
  ∧ only_faults w (BreakersController.getBreakers cooldown w).1.
Proof.
  assert (keeps only_faults (BreakersService.getAllBreakers cooldown)) as Hl.
  { unfold BreakersService.getAllBreakers.
    apply keeps_bind; [apply _|apply KEYS_reads|intros ?; apply collect_reads]. }
  split; [apply getCircuitState_quiet|]. split; [apply canProbe_quiet|].
  split; [|split; [apply getRoutingDecision_quiet|split; [|split]]].
  - unfold shouldOpenCircuit.
    apply keeps_bind; [apply _|apply GET_reads|intros ?; apply keeps_ret; apply _].
  - unfold getAllBreakers.
    apply keeps_bind; [apply _|apply KEYS_reads|intros ?; apply collectBreakers_reads].
  - apply Hl.
  - unfold BreakersController.getBreakers.
    apply keeps_bind; [apply _|apply Hl|intros ?; apply keeps_ret; apply _].
Qed.

(** ** Circuits of other job types *)

Lemma handleJob_other_record config maxRetries job exec w jt :
  jobType job ≠ jt →
  redis (handleJob config maxRetries job exec w).1 !! breakerKey jt = redis w !! breakerKey jt.
Proof.
  intros Hne.
  destruct (handleJob_moves jt (λ _ _, False) config maxRetries job exec w)
    as [_ [H|(e & _ & [])]]; [|done].
  apply processJob_moves. intros w2 cs _ Hj. done.
Qed.

(** X17.  A delivery never touches the circuit record of another job
    type: whatever the jobs, their outcomes and the outages of the
    store, the record of a job type is after a run what it was before
    when no job of the run has that type. *)
Theorem X17_run_leaves_other_circuits_alone config maxRetries jt ds w :
  Forall (λ d, jobType (d_job d) ≠ jt) ds →
  redis (run config maxRetries ds w) !! breakerKey jt = redis w !! breakerKey jt.
Proof.
  induction ds as [|d ds IH] using rev_ind; intros Hall; [done|].
  apply Forall_app in Hall as [Hall Hd]. apply Forall_inv in Hd.
  rewrite run_snoc. unfold deliver.
  rewrite handleJob_other_record by done. by apply IH.
Qed.

Lemma X17_witness :
  let ds := [mkDelivery bracketJob succeeds 70000; mkDelivery bracketJob (fails "API_TIMEOUT") 80000] in
  redis (run defaultConfig 3 ds (open_world 1000 2000)) !! breakerKey "email"
  = Some (open_record 1000).
Proof.
  intros ds.
  rewrite (X17_run_leaves_other_circuits_alone defaultConfig 3 "email" ds (open_world 1000 2000)).
  - reflexivity.
  - repeat constructor; discriminate.
Defined.

(** ** A job type that is a pattern *)

Lemma matches_star_skip ts a s :
  Glob.matches ts s = true → Glob.matches (Glob.Star :: ts) (a +:+ s) = true.
Proof.
  intros H. induction a as [|c a IH].
  - change (Glob.matches (Glob.Star :: ts) s = true).
    destruct s; simpl; by rewrite H.
  - change (Glob.matches (Glob.Star :: ts) (String c (a +:+ s)) = true).
    simpl in *. rewrite IH. apply orb_true_r.
Qed.

Lemma failurePattern_star jt ec :
  Glob.stringmatch (failurePattern "*") (failureKey jt ec) = true.
Proof.
  unfold Glob.stringmatch, failurePattern, failureKey.
  change (Glob.matches [Glob.Star; Glob.Lit ":"; Glob.Star] (jt +:+ ":" +:+ ec) = true).
  apply matches_star_skip.
  change (Glob.matches [Glob.Star] ec = true). apply GlobFacts.matches_star_any.
Qed.

(** X18.  The job type [*] is a pattern for every job type.  With a
    store that answers, closing its circuit, as a successful probe of a
    job of that type or a reset does, deletes the counters of all job
    types; the circuit records of the others stay. *)
Theorem X18_closing_the_star_job_type_deletes_every_counter w jt ec :
  faults w = [] →
  counter (clock w) (redis (closeCircuit "*" w).1) jt ec = None
  ∧ (is_Some (lookup_live (clock w) (redis w) (breakerKey "*")) →
     counter (clock w) (redis (resetBreaker "*" w).1) jt ec = None)
  ∧ (jt ≠ "*" →
     redis (closeCircuit "*" w).1 !! breakerKey jt = redis w !! breakerKey jt).
Proof.
  intros Hf.
  assert (counter (clock w) (closed_db (clock w) "*" (redis w)) jt ec = None) as H.
  { unfold counter, lookup_live, closed_db. cbv zeta. rewrite lookup_delete_all.
    destruct (decide _) as [Hin|Hnot]; [done|].
    destruct (_ !! failureKey jt ec) as [e|] eqn:E; [|done].
    destruct (live (clock w) e) eqn:L; [|done].
    exfalso. apply Hnot, elem_of_matching_keys. exists e.
    split; [done|]. split; [done|]. apply failurePattern_star. }
  split; [by rewrite closeCircuit_ok|]. split.
  - intros Hs. by rewrite resetBreaker_ok.
  - intros Hne. rewrite closeCircuit_ok by done. by apply closed_db_other_breaker.
Qed.

Lemma X18_witness :
  counter 1000 (redis almost_tripped) "email" "INTERNAL_ERROR" = Some (RInt 4)
  ∧ counter 1000 (redis (closeCircuit "*" almost_tripped).1) "email" "INTERNAL_ERROR" = None.
Proof.
  split; [reflexivity|].
  destruct (X18_closing_the_star_job_type_deletes_every_counter almost_tripped
              "email" "INTERNAL_ERROR") as [H _]; [reflexivity|exact H].
Defined.

(** ** The counters of the control plane *)

Lemma countBreakers_ok keys o c w :
  faults w = [] →
  (∀ k, k ∈ keys → is_Some (lookup_live (clock w) (redis w) k)) →
  MetricsService.countBreakers keys o c w
  = (w, Ok (o + Z.of_nat (length (List.filter (reads_open (clock w) (redis w)) keys)),
            c + Z.of_nat (length (List.filter (λ k, negb (reads_open (clock w) (redis w) k))
                                              keys)))).
Proof.
  intros Hf. revert o c. induction keys as [|k keys IH]; intros o c Hk.
  - simpl. by rewrite !Z.add_0_r.
  - destruct (Hk k) as [e Hl]; [by left|].
    assert (∀ k', k' ∈ keys → is_Some (lookup_live (clock w) (redis w) k')) as Hk'
      by (intros k' Hin; apply Hk; by right).
    assert (reads_open (clock w) (redis w) k
            = match value e with RJson b => bool_decide (state b = OPEN) | RInt _ => false end)
      as Hro by (unfold reads_open; by rewrite Hl).
    cbn [MetricsService.countBreakers List.filter]. rewrite Hro. promise.
    rewrite GET_ok by done. rewrite Hl. cbn [fmap option_fmap option_map].
    destruct (value e) as [n|b].
    + rewrite IH by done. cbn [negb length]. f_equal. f_equal. f_equal. lia.
    + destruct (decide (state b = OPEN)) as [Hs|Hs].
      * rewrite bool_decide_eq_true_2 by done. rewrite IH by done. cbn [negb length].
        f_equal. f_equal. f_equal. lia.
      * rewrite bool_decide_eq_false_2 by done. rewrite IH by done. cbn [negb length].
        f_equal. f_equal. f_equal. lia.
Qed.

Lemma sumFailures_total keys acc w :
  faults w = [] → ∃ obj, MetricsService.sumFailures keys acc w = (w, Ok obj).
Proof.
  intros Hf. revert acc. induction keys as [|k keys IH]; intros acc; [by eexists|].
  cbn [MetricsService.sumFailures]. destruct (2 <=? _)%nat; [|apply IH].
  promise. rewrite GET_ok by done. apply IH.
Qed.

Lemma filter_length_split {A} (f : A → bool) l :
  (length (List.filter f l) + length (List.filter (λ x, negb (f x)) l) = length l)%nat.
Proof. induction l as [|x l IH]; [done|]. simpl. destruct (f x); simpl; lia. Qed.

(** X19.  The circuit-breaker counters of GET /metrics, for a store that
    answers, agree with the listing of GET /breakers at the same
    instant: [total] is the number of entries of the listing, [open] the
    number of its entries with state OPEN, and [closed] counts all the
    others, so that [open + closed = total]. *)
Theorem X19_metrics_agree_with_the_listing cooldownPeriod w :
  faults w = [] →
  ∃ m infos,
    MetricsController.getMetrics w = (w, Ok m)
    ∧ BreakersService.getAllBreakers cooldownPeriod w = (w, Ok infos)
    ∧ MetricsService.total (MetricsService.circuitBreakers m) = length infos
    ∧ MetricsService.open (MetricsService.circuitBreakers m)
      = Z.of_nat (length (List.filter
                            (λ i, bool_decide (BreakersService.state i = Some OPEN)) infos))
    ∧ MetricsService.open (MetricsService.circuitBreakers m)
      + MetricsService.closed (MetricsService.circuitBreakers m)
      = Z.of_nat (MetricsService.total (MetricsService.circuitBreakers m)).
Proof.
  intros Hf.
  set (keys := matching_keys (clock w) "breaker:*" (redis w)).
  assert (∀ k, k ∈ keys → is_Some (lookup_live (clock w) (redis w) k)) as Hk.
  { intros k (jt & e & -> & Hl)%elem_of_breaker_keys. by exists e. }
  destruct (collect_ok cooldownPeriod keys [] w Hf Hk) as (infos & E & F).
  destruct (sumFailures_total (matching_keys (clock w) "failure:*" (redis w)) ∅ w Hf)
    as (obj & Es).
  eexists _, infos. split; [|split; [|split; [|split]]].
  - unfold MetricsController.getMetrics, MetricsService.getMetrics. promise.
    rewrite KEYS_ok by done. fold keys. rewrite countBreakers_ok by done.
    rewrite KEYS_ok by done. rewrite Es. reflexivity.
  - unfold BreakersService.getAllBreakers. promise. rewrite KEYS_ok by done. exact E.
  - simpl. by eapply Forall2_length.
  - simpl. rewrite Z.add_0_l. f_equal. clear -F.
    induction F as [|k i keys infos (e & Hl & ->) _ IH]; [done|].
    assert (reads_open (clock w) (redis w) k
            = match value e with RJson b => bool_decide (state b = OPEN) | RInt _ => false end)
      as Hro by (unfold reads_open; by rewrite Hl).
    cbn [List.filter]. rewrite Hro. unfold info_of.
    destruct (value e) as [n|b]; cbn [BreakersService.state].
    + rewrite bool_decide_eq_false_2 by done. exact IH.
    + destruct (decide (state b = OPEN)) as [Hs|Hs].
      * rewrite !bool_decide_eq_true_2 by (by rewrite ?Hs). cbn [length]. by rewrite IH.
      * rewrite !bool_decide_eq_false_2 by congruence. exact IH.
  - simpl. rewrite !Z.add_0_l, <- Nat2Z.inj_add. f_equal. apply filter_length_split.
Qed.

Lemma X19_witness :
  ∃ m, MetricsController.getMetrics (open_world 1000 2000) = (open_world 1000 2000, Ok m)
       ∧ MetricsService.open (MetricsService.circuitBreakers m)
         + MetricsService.closed (MetricsService.circuitBreakers m)
         = Z.of_nat (MetricsService.total (MetricsService.circuitBreakers m)).
Proof.
  destruct (X19_metrics_agree_with_the_listing 60 (open_world 1000 2000))
    as (m & infos & G & _ & _ & _ & H); [reflexivity|].
  exists m. split; [exact G|exact H].
Defined.

Lemma split_nonempty sep s : MetricsService.split sep s ≠ [].
Proof.
  destruct s as [|c s]; [done|]. simpl. destruct (Ascii.eqb c sep); [done|].
  by destruct (MetricsService.split sep s).
Qed.

Lemma split_colon_free a s :
  colon_free a = true →
  MetricsService.split ":" (a +:+ ":" +:+ s) = a :: MetricsService.split ":" s.
Proof.
  intros Ha. induction a as [|c a IH].
  - change (MetricsService.split ":" (String ":" s) = "" :: MetricsService.split ":" s).
    reflexivity.
  - simpl in Ha. apply andb_prop in Ha as [Hc Ha]. apply negb_true_iff in Hc.
    change (MetricsService.split ":" (String c (a +:+ ":" +:+ s))
            = String c a :: MetricsService.split ":" s).
    cbn [MetricsService.split]. rewrite Hc. by rewrite IH.
Qed.

Lemma split_failure x :
  MetricsService.split ":" ("failure:" +:+ x) = "failure" :: MetricsService.split ":" x.
Proof. by apply (split_colon_free "failure" x). Qed.


Lemma split_length_failure k :
  starts_with "failure:" k = true → (2 ≤ length (MetricsService.split ":" k))%nat.
Proof.
  intros H%starts_with_inv. rewrite H, split_failure.
  pose proof (split_nonempty ":" (drop_chars (String.length "failure:") k)) as Hn.
  destruct (MetricsService.split _ _); [done|]. simpl. lia.
Qed.

Lemma set_other obj name v jt :
  name ≠ jt → MetricsService.set obj name v !! jt = obj !! jt.
Proof.
  intros Hne. unfold MetricsService.set. destruct (decide _); [done|].
  by rewrite lookup_insert_ne.
Qed.




(** The second loop, followed on a name that a plain object inherits. *)
Lemma sumFailures_inherited jt keys acc w :
  faults w = [] →
  MetricsService.prototype_member jt = true →
  (∀ k, k ∈ keys → (2 ≤ length (MetricsService.split ":" k))%nat) →
  acc !! jt = None ∨ acc !! jt = Some MetricsService.Text →
  ∃ obj,
    MetricsService.sumFailures keys acc w = (w, Ok obj)
    ∧ obj !! jt
      = match keys_of_segment jt keys with
        | [] => acc !! jt
        | _ => if decide (jt = "__proto__") then acc !! jt else Some MetricsService.Text
        end.
Proof.
  intros Hf Hp. revert acc. induction keys as [|k keys IH]; intros acc Hlen Ha.
  - exists acc. by split.
  - assert (∀ k', k' ∈ keys → (2 ≤ length (MetricsService.split ":" k'))%nat) as Hlen'
      by (intros k' Hin; apply Hlen; by right).
    cbn [MetricsService.sumFailures].
    assert ((2 <=? length (MetricsService.split ":" k))%nat = true) as ->
      by (apply Nat.leb_le, Hlen; by left).
    promise. rewrite GET_ok by done. fold (segment k).
    unfold keys_of_segment. cbn [List.filter]. fold (keys_of_segment jt keys).
    destruct (decide (segment k = jt)) as [Hs|Hs].
    + rewrite bool_decide_eq_true_2 by done. rewrite Hs.
      assert (MetricsService.falsy (MetricsService.get acc jt) = false
              ∧ MetricsService.plus (MetricsService.get acc jt)
                  (MetricsService.parseCount (value <$> lookup_live (clock w) (redis w) k))
                = MetricsService.Text) as [-> ->].
      { unfold MetricsService.get. destruct Ha as [-> | ->]; [by rewrite Hp|done]. }
      set (acc' := MetricsService.set acc jt MetricsService.Text).
      assert (acc' !! jt = if decide (jt = "__proto__") then acc !! jt
                           else Some MetricsService.Text) as Ha'.
      { subst acc'. unfold MetricsService.set. destruct (decide _); [done|].
        by rewrite lookup_insert_eq. }
      destruct (IH acc' Hlen') as (obj & E & Ho).
      { rewrite Ha'. destruct (decide _); [done|by right]. }
      exists obj. split; [exact E|]. rewrite Ho, Ha'.
      destruct (keys_of_segment jt keys); [done|]. by destruct (decide _).
    + rewrite bool_decide_eq_false_2 by done.
      set (acc' := MetricsService.set _ (segment k) _).
      assert (acc' !! jt = acc !! jt) as Ha'.
      { subst acc'. rewrite set_other by done. destruct (MetricsService.falsy _); [|done].
        by rewrite set_other. }
      destruct (IH acc' Hlen') as (obj & E & Ho); [by rewrite Ha'|].
      exists obj. split; [exact E|]. by rewrite Ho, Ha'.
Qed.

(** X21.  Under the name of a member of [Object.prototype]
    ([constructor], [toString], ...) GET /metrics never reports a
    number: the counters filed under such a name are appended to the text
    of what the object inherits, and under [__proto__] nothing is
    reported at all. *)
Theorem X21_metrics_of_an_inherited_name_are_no_number jt w :
  faults w = [] →
  MetricsService.prototype_member jt = true →
  ∃ m,
    MetricsController.getMetrics w = (w, Ok m)
    ∧ MetricsService.byJobType (MetricsService.failures m) !! jt
      = match keys_of_segment jt (matching_keys (clock w) "failure:*" (redis w)) with
        | [] => None
        | _ => if decide (jt = "__proto__") then None else Some MetricsService.Text
        end.
Proof.
  intros Hf Hp.
  set (bkeys := matching_keys (clock w) "breaker:*" (redis w)).
  assert (∀ k, k ∈ bkeys → is_Some (lookup_live (clock w) (redis w) k)) as Hk.
  { intros k (jt' & e & -> & Hl)%elem_of_breaker_keys. by exists e. }
  destruct (sumFailures_inherited jt (matching_keys (clock w) "failure:*" (redis w)) ∅ w
              Hf Hp) as (obj & Es & Ho).
  { intros k (e & _ & _ & Hm)%elem_of_matching_keys.
    change "failure:*" with ("failure:" +:+ "*") in Hm.
    rewrite stringmatch_prefix in Hm by done. by apply split_length_failure. }
  { left. by rewrite lookup_empty. }
  eexists. split.
  - unfold MetricsController.getMetrics, MetricsService.getMetrics. promise.
    rewrite KEYS_ok by done. fold bkeys. rewrite countBreakers_ok by done.
    rewrite KEYS_ok by done. rewrite Es. reflexivity.
  - simpl. rewrite Ho. by rewrite lookup_empty.
Qed.

Lemma X21_witness :
  let w := mkWorld {[ failureKey "constructor" "API_TIMEOUT" := mkEntry (RInt 3) None ]}
             1000 [] [] [] [] [] in
  ∃ m, MetricsController.getMetrics w = (w, Ok m)
       ∧ MetricsService.byJobType (MetricsService.failures m) !! "constructor"
         = Some MetricsService.Text.
Proof.
  intros w.
  destruct (X21_metrics_of_an_inherited_name_are_no_number "constructor" w) as (m & G & H).
  - reflexivity.
  - reflexivity.
  - exists m. split; [exact G|]. rewrite H. vm_compute. reflexivity.
Defined.

